(** * A thread-safe bank account: embedding and verification

    Source: [src/unit_6/individual_coding.py], class [BankAccount] and the
    worker loop of [UserTask].

    The methods of [BankAccount] are translated once, into a small command
    tree ([prog]) whose nodes are the shared-memory actions a Python thread
    performs: reading and writing the private fields of an account object and
    acquiring and releasing its [threading.RLock].  Two readings of that tree
    are given: [exec], which runs a call to completion in one thread, and
    [step], which lets one of several threads perform a single action. *)

From Stdlib Require Import ZArith NArith Ascii String.
From Stdlib Require Import Decimal DecimalString DecimalZ.
From stdpp Require Import base decidable option list numbers.

Open Scope Z_scope.

(** ** Python strings *)

(** A Python [str] is a sequence of Unicode code points. *)
Definition str := list N.

Fixpoint str_of_string (s : string) : str :=
  match s with
  | EmptyString => []
  | String c s' => N_of_ascii c :: str_of_string s'
  end.

(** [s < t] on [str]: lexicographic on code points, a proper prefix is
    smaller. *)
Fixpoint str_lt (s t : str) : bool :=
  match s, t with
  | [], [] => false
  | [], _ :: _ => true
  | _ :: _, [] => false
  | a :: s', b :: t' =>
      if (a <? b)%N then true
      else if (b <? a)%N then false
      else str_lt s' t'
  end.

(** The characters [str.strip()] removes: CPython's [Py_UNICODE_ISSPACE]. *)
Definition Py_UNICODE_ISSPACE (c : N) : bool :=
  ((9 <=? c) && (c <=? 13) || (28 <=? c) && (c <=? 32)
   || (c =? 133) || (c =? 160) || (c =? 5760)
   || (8192 <=? c) && (c <=? 8202)
   || (c =? 8232) || (c =? 8233) || (c =? 8239) || (c =? 8287)
   || (c =? 12288))%N.

Fixpoint lstrip (s : str) : str :=
  match s with
  | [] => []
  | c :: s' => if Py_UNICODE_ISSPACE c then lstrip s' else s
  end.

Definition rstrip (s : str) : str := rev (lstrip (rev s)).

Definition strip (s : str) : str := rstrip (lstrip s).

(** Truth value of a [str]: the empty string is false. *)
Definition truthy (s : str) : bool :=
  match s with [] => false | _ :: _ => true end.

(** A string is blank when every character of it is whitespace. *)
Definition blank (s : str) : bool := forallb Py_UNICODE_ISSPACE s.

(** ** Exceptions and commands *)

Inductive exn : Type :=
| ValueError (msg : string)
| InsufficientFundsError (msg : string).

Inductive result (A : Type) : Type :=
| Returns (a : A)
| Raises (e : exn).
Arguments Returns {A} a.
Arguments Raises {A} e.

(** Object identity: the address of an account object in the store. *)
Abbreviation loc := nat.

(** Thread identity. *)
Abbreviation tid := nat.

(** What a thread does to the shared store, one action per node. *)
Inductive prog (A : Type) : Type :=
| Ret (a : A)
| Raise (e : exn)
| New (number : str) (balance : Z) (k : loc -> prog A)
| LoadNumber (l : loc) (k : str -> prog A)
| LoadBalance (l : loc) (k : Z -> prog A)
| StoreBalance (l : loc) (v : Z) (k : prog A)
| Acquire (l : loc) (k : prog A)
| Release (l : loc) (k : prog A).
Arguments Ret {A} a.
Arguments Raise {A} e.
Arguments New {A} number balance k.
Arguments LoadNumber {A} l k.
Arguments LoadBalance {A} l k.
Arguments StoreBalance {A} l v k.
Arguments Acquire {A} l k.
Arguments Release {A} l k.

Fixpoint bind {A B : Type} (p : prog A) (f : A -> prog B) : prog B :=
  match p with
  | Ret a => f a
  | Raise e => Raise e
  | New n b k => New n b (fun l => bind (k l) f)
  | LoadNumber l k => LoadNumber l (fun n => bind (k n) f)
  | LoadBalance l k => LoadBalance l (fun v => bind (k v) f)
  | StoreBalance l v k => StoreBalance l v (bind k f)
  | Acquire l k => Acquire l (bind k f)
  | Release l k => Release l (bind k f)
  end.

Notation "p ;; q" := (bind p (fun _ => q))
  (at level 100, q at level 200, right associativity).

(** The exit of a [with l.__lock:] block: the lock is released on the
    normal path and on the exceptional one. *)
Fixpoint finally {A : Type} (p : prog A) (l : loc) : prog A :=
  match p with
  | Ret a => Release l (Ret a)
  | Raise e => Release l (Raise e)
  | New n b k => New n b (fun l' => finally (k l') l)
  | LoadNumber l' k => LoadNumber l' (fun n => finally (k n) l)
  | LoadBalance l' k => LoadBalance l' (fun v => finally (k v) l)
  | StoreBalance l' v k => StoreBalance l' v (finally k l)
  | Acquire l' k => Acquire l' (finally k l)
  | Release l' k => Release l' (finally k l)
  end.

(** [with l.__lock: body] *)
Definition with_lock {A : Type} (l : loc) (body : prog A) : prog A :=
  Acquire l (finally body l).

(** ** class BankAccount *)

Module BankAccount.

(** State of a [threading.RLock]: unowned, or owned by a thread that has
    acquired it [count] times. *)
Definition RLock := option (tid * nat).

(** The three private fields of an account object. *)
Record t : Type := mk {
  account_number : str;
  balance_cents : Z;
  lock : RLock
}.

Definition __init__ (account_number : str) (initial_balance_cents : Z)
  : prog loc :=
  if negb (truthy account_number) || negb (truthy (strip account_number))
  then Raise (ValueError "Account number must not be empty.")
  else if initial_balance_cents <? 0
  then Raise (ValueError "Initial balance cannot be negative.")
  else New account_number initial_balance_cents Ret.

Definition get_balance (self : loc) : prog Z :=
  with_lock self (LoadBalance self Ret).

Definition __deposit_unlocked (self : loc) (amount_cents : Z) : prog unit :=
  LoadBalance self (fun b => StoreBalance self (b + amount_cents) (Ret tt)).

Definition __withdraw_unlocked (self : loc) (amount_cents : Z) : prog unit :=
  LoadBalance self (fun b => StoreBalance self (b - amount_cents) (Ret tt)).

Definition deposit (self : loc) (amount_cents : Z) : prog unit :=
  if amount_cents <=? 0
  then Raise (ValueError "Deposit amount must be positive.")
  else with_lock self (__deposit_unlocked self amount_cents).

Definition withdraw (self : loc) (amount_cents : Z) : prog unit :=
  if amount_cents <=? 0
  then Raise (ValueError "Withdrawal amount must be positive.")
  else
    with_lock self
      (LoadBalance self (fun b =>
         if amount_cents >? b
         then Raise (InsufficientFundsError "Insufficient funds.")
         else __withdraw_unlocked self amount_cents)).

(** [other] is an object reference or [None]. *)
Definition transfer_to (self : loc) (other : option loc) (amount_cents : Z)
  : prog unit :=
  match other with
  | None => Raise (ValueError "Target account cannot be None.")
  | Some other =>
      if decide (other = self)
      then Raise (ValueError "Cannot transfer to the same account.")
      else if amount_cents <=? 0
      then Raise (ValueError "Transfer amount must be positive.")
      else
        LoadNumber self (fun self_number =>
        LoadNumber other (fun other_number =>
          let '(first, second) :=
            if str_lt self_number other_number
            then (self, other) else (other, self) in
          with_lock first
            (with_lock second
               (LoadBalance self (fun b =>
                  if amount_cents >? b
                  then Raise (InsufficientFundsError
                                "Insufficient funds for transfer.")
                  else
                    __withdraw_unlocked self amount_cents ;;
                    __deposit_unlocked other amount_cents)))))
  end.

End BankAccount.

(** ** The object store and the meaning of actions *)

Abbreviation heap := (list BankAccount.t).

Definition set_balance (v : Z) (a : BankAccount.t) : BankAccount.t :=
  BankAccount.mk (BankAccount.account_number a) v (BankAccount.lock a).

Definition set_lock (k : BankAccount.RLock) (a : BankAccount.t)
  : BankAccount.t :=
  BankAccount.mk (BankAccount.account_number a) (BankAccount.balance_cents a) k.

(** [RLock.acquire()] by thread [t]: succeeds on a free lock and on one the
    thread already owns; [None] when another thread owns it (the caller
    blocks). *)
Definition acquire (t : tid) (k : BankAccount.RLock)
  : option BankAccount.RLock :=
  match k with
  | None => Some (Some (t, 1%nat))
  | Some (u, n) => if decide (u = t) then Some (Some (t, S n)) else None
  end.

(** [RLock.release()] by thread [t]; only the owner may release. *)
Definition release (t : tid) (k : BankAccount.RLock)
  : option BankAccount.RLock :=
  match k with
  | None => None
  | Some (u, n) =>
      if decide (u = t)
      then Some (match n with
                 | O | S O => None
                 | S n' => Some (t, n')
                 end)
      else None
  end.

(** One action of thread [t].  [None]: the thread has nothing left to do
    ([Ret], [Raise]), waits for a lock, or names an object that does not
    exist. *)
Definition act {A : Type} (t : tid) (p : prog A) (h : heap)
  : option (prog A * heap) :=
  match p with
  | Ret _ | Raise _ => None
  | New n b k => Some (k (length h), h ++ [BankAccount.mk n b None])
  | LoadNumber l k =>
      a ← h !! l; Some (k (BankAccount.account_number a), h)
  | LoadBalance l k =>
      a ← h !! l; Some (k (BankAccount.balance_cents a), h)
  | StoreBalance l v k =>
      a ← h !! l; Some (k, <[l := set_balance v a]> h)
  | Acquire l k =>
      a ← h !! l; r ← acquire t (BankAccount.lock a);
      Some (k, <[l := set_lock r a]> h)
  | Release l k =>
      a ← h !! l; r ← release t (BankAccount.lock a);
      Some (k, <[l := set_lock r a]> h)
  end.

(** A whole call run by thread [t] with no other thread interfering. *)
Fixpoint exec {A : Type} (t : tid) (p : prog A) (h : heap)
  : option (result A * heap) :=
  match p with
  | Ret a => Some (Returns a, h)
  | Raise e => Some (Raises e, h)
  | New n b k => exec t (k (length h)) (h ++ [BankAccount.mk n b None])
  | LoadNumber l k =>
      a ← h !! l; exec t (k (BankAccount.account_number a)) h
  | LoadBalance l k =>
      a ← h !! l; exec t (k (BankAccount.balance_cents a)) h
  | StoreBalance l v k =>
      a ← h !! l; exec t k (<[l := set_balance v a]> h)
  | Acquire l k =>
      a ← h !! l; r ← acquire t (BankAccount.lock a);
      exec t k (<[l := set_lock r a]> h)
  | Release l k =>
      a ← h !! l; r ← release t (BankAccount.lock a);
      exec t k (<[l := set_lock r a]> h)
  end.

(** ** Calls made one after the other *)

Inductive call : Type :=
| Construct (account_number : str) (initial_balance_cents : Z)
| GetBalance (self : loc)
| Deposit (self : loc) (amount_cents : Z)
| Withdraw (self : loc) (amount_cents : Z)
| TransferTo (self : loc) (other : option loc) (amount_cents : Z).

(** The call with its return value dropped. *)
Definition perform (c : call) : prog unit :=
  match c with
  | Construct n b => bind (BankAccount.__init__ n b) (fun _ => Ret tt)
  | GetBalance self => bind (BankAccount.get_balance self) (fun _ => Ret tt)
  | Deposit self amount => BankAccount.deposit self amount
  | Withdraw self amount => BankAccount.withdraw self amount
  | TransferTo self other amount => BankAccount.transfer_to self other amount
  end.

(** Every reference of the call names an object of the store. *)
Definition call_ok (h : heap) (c : call) : Prop :=
  match c with
  | Construct _ _ => True
  | GetBalance self | Deposit self _ | Withdraw self _ =>
      (self < length h)%nat
  | TransferTo self other _ =>
      (self < length h)%nat /\
      match other with Some o => (o < length h)%nat | None => True end
  end.

(** The calls of [cs] in order; each entry of the trace is the outcome of one
    call and the store it leaves. *)
Fixpoint run (t : tid) (cs : list call) (h : heap)
  : option (list (result unit * heap)) :=
  match cs with
  | [] => Some []
  | c :: cs' =>
      match exec t (perform c) h with
      | Some (r, h') =>
          match run t cs' h' with
          | Some tr => Some ((r, h') :: tr)
          | None => None
          end
      | None => None
      end
  end.

(** The store at the end of a trace that started in [h]. *)
Definition final (h : heap) (tr : list (result unit * heap)) : heap :=
  last (map snd tr) h.

Definition balance (h : heap) (l : loc) : option Z :=
  BankAccount.balance_cents <$> h !! l.

(** Sum of the balances of all accounts. *)
Definition total_balance (h : heap) : Z :=
  foldr (fun a s => BankAccount.balance_cents a + s) 0 h.

(** No lock is held. *)
Definition unlocked (h : heap) : Prop :=
  forall l a, h !! l = Some a -> BankAccount.lock a = None.

Definition nonneg (h : heap) : Prop :=
  forall l a, h !! l = Some a -> 0 <= BankAccount.balance_cents a.

(** The call fails with a [ValueError]. *)
Definition raises_ValueError {A : Type} (o : option (result A * heap)) : Prop :=
  exists msg h', o = Some (Raises (ValueError msg), h').

(** The condition under which the constructor rejects its arguments. *)
Definition rejected (account_number : str) (initial_balance_cents : Z) : Prop :=
  account_number = [] \/ blank account_number = true
  \/ initial_balance_cents < 0.

(** What one call does to the store, read off the methods: a call that
    raises leaves the store as it was, a call that returns has had exactly
    the effect listed. *)
Inductive outcome (h : heap) : call -> result unit -> heap -> Prop :=
| outcome_raises c e :
    outcome h c (Raises e) h
| outcome_construct n b :
    ~ rejected n b ->
    outcome h (Construct n b) (Returns tt) (h ++ [BankAccount.mk n b None])
| outcome_get_balance self :
    outcome h (GetBalance self) (Returns tt) h
| outcome_deposit self a amount :
    h !! self = Some a -> 0 < amount ->
    outcome h (Deposit self amount) (Returns tt)
      (<[self := set_balance (BankAccount.balance_cents a + amount) a]> h)
| outcome_withdraw self a amount :
    h !! self = Some a -> 0 < amount <= BankAccount.balance_cents a ->
    outcome h (Withdraw self amount) (Returns tt)
      (<[self := set_balance (BankAccount.balance_cents a - amount) a]> h)
| outcome_transfer self other a1 a2 amount :
    h !! self = Some a1 -> h !! other = Some a2 -> self <> other ->
    0 < amount <= BankAccount.balance_cents a1 ->
    outcome h (TransferTo self (Some other) amount) (Returns tt)
      (<[other := set_balance (BankAccount.balance_cents a2 + amount) a2]>
         (<[self := set_balance (BankAccount.balance_cents a1 - amount) a1]>
            h)).

(** The stores a program can be in between two calls: it starts with no
    account, and every account it has was made by the constructor. *)
Inductive reachable : heap -> Prop :=
| reachable_start : reachable []
| reachable_call t h c r h' :
    reachable h -> call_ok h c -> exec t (perform c) h = Some (r, h') ->
    reachable h'.

Definition is_transfer (c : call) : Prop :=
  match c with TransferTo _ _ _ => True | _ => False end.

(** Deposits and withdrawals on one account, and the sums of the amounts of
    those that succeeded. *)
Inductive ledger_op : Type :=
| Dep (amount_cents : Z)
| Wd (amount_cents : Z).

Definition ledger_call (self : loc) (o : ledger_op) : call :=
  match o with
  | Dep amount => Deposit self amount
  | Wd amount => Withdraw self amount
  end.

Definition succeeded (r : result unit) : bool :=
  match r with Returns _ => true | Raises _ => false end.

Fixpoint successful_deposits (os : list ledger_op) (rs : list (result unit))
  : Z :=
  match os, rs with
  | Dep amount :: os', r :: rs' =>
      (if succeeded r then amount else 0) + successful_deposits os' rs'
  | Wd _ :: os', _ :: rs' => successful_deposits os' rs'
  | _, _ => 0
  end.

Fixpoint successful_withdrawals (os : list ledger_op) (rs : list (result unit))
  : Z :=
  match os, rs with
  | Wd amount :: os', r :: rs' =>
      (if succeeded r then amount else 0) + successful_withdrawals os' rs'
  | Dep _ :: os', _ :: rs' => successful_withdrawals os' rs'
  | _, _ => 0
  end.

(** ** Concurrent workers *)

(** A worker in the manner of [UserTask.run]: it makes its calls one after
    the other and absorbs the exception of a call that fails.  [current] is
    what is left of the call in progress, [todo] the calls still to make. *)
Record worker : Type := mk_worker {
  current : prog unit;
  todo : list call
}.

(** The shared store and the workers, a worker's index being its thread
    identity. *)
Record config : Type := mk_config {
  store : heap;
  workers : list worker
}.

Definition returned {A : Type} (p : prog A) : bool :=
  match p with Ret _ | Raise _ => true | _ => false end.

(** One step of worker [t]: the next action of its call in progress, or,
    when that call has returned or raised, the start of its next call.
    [None]: the worker has finished, or cannot move. *)
Definition step (t : tid) (c : config) : option config :=
  w ← workers c !! t;
  if returned (current w)
  then match todo w with
       | [] => None
       | next :: rest =>
           Some (mk_config (store c)
                   (<[t := mk_worker (perform next) rest]> (workers c)))
       end
  else '(p, h) ← act t (current w) (store c);
       Some (mk_config h (<[t := mk_worker p (todo w)]> (workers c))).

(** The workers take steps in the order a scheduler picks: [s] lists the
    thread that moves at each step. *)
Fixpoint schedule (s : list tid) (c : config) : option config :=
  match s with
  | [] => Some c
  | t :: s' => c' ← step t c; schedule s' c'
  end.

Definition finished (w : worker) : bool :=
  returned (current w) && match todo w with [] => true | _ => false end.

(** No worker can move, and not because all are done. *)
Definition deadlocked (c : config) : Prop :=
  (forall t, step t c = None) /\ exists w, w ∈ workers c /\ finished w = false.

(** Workers that have not started yet. *)
Definition spawn (h : heap) (jobs : list (list call)) : config :=
  mk_config h (map (mk_worker (Ret tt)) jobs).

(** The locks thread [t] acquires, in order, when it runs [p] alone. *)
Fixpoint acquisitions {A : Type} (t : tid) (p : prog A) (h : heap)
  : list loc :=
  match p with
  | Ret _ | Raise _ => []
  | New n b k => acquisitions t (k (length h)) (h ++ [BankAccount.mk n b None])
  | LoadNumber l k =>
      match h !! l with
      | Some a => acquisitions t (k (BankAccount.account_number a)) h
      | None => []
      end
  | LoadBalance l k =>
      match h !! l with
      | Some a => acquisitions t (k (BankAccount.balance_cents a)) h
      | None => []
      end
  | StoreBalance l v k =>
      match h !! l with
      | Some a => acquisitions t k (<[l := set_balance v a]> h)
      | None => []
      end
  | Acquire l k =>
      match h !! l with
      | Some a =>
          match acquire t (BankAccount.lock a) with
          | Some r => l :: acquisitions t k (<[l := set_lock r a]> h)
          | None => []
          end
      | None => []
      end
  | Release l k =>
      match h !! l with
      | Some a =>
          match release t (BankAccount.lock a) with
          | Some r => acquisitions t k (<[l := set_lock r a]> h)
          | None => []
          end
      | None => []
      end
  end.

(** Account numbers are pairwise distinct: the precondition the lock order
    relies on. *)
Definition unique_numbers (h : heap) : Prop :=
  forall l l' a a',
    h !! l = Some a -> h !! l' = Some a' ->
    BankAccount.account_number a = BankAccount.account_number a' -> l = l'.

(** The calls a worker makes: on existing accounts, and no construction. *)
Definition worker_call_ok (h : heap) (c : call) : Prop :=
  call_ok h c /\ match c with Construct _ _ => False | _ => True end.

(** *** The lock discipline

    The account numbers of a store never change; [numbers h] records them
    once and for all. *)
Definition numbers (h : heap) (l : loc) : option str :=
  BankAccount.account_number <$> h !! l.

(** [l] comes before [l'] in the lock order: its account number is the
    smaller one. *)
Definition before (num : loc -> option str) (l l' : loc) : bool :=
  match num l, num l' with
  | Some n, Some n' => str_lt n n'
  | _, _ => false
  end.

(** [disciplined num held n p]: a thread that holds the locks [held] (the
    last acquired first) and has [p] left to run names existing accounts
    only, acquires a lock only if it comes after every lock it holds,
    releases the locks in the reverse order, ends holding none, and takes
    at most [n] actions. *)
Inductive disciplined (num : loc -> option str)
  : list loc -> nat -> prog unit -> Prop :=
| disciplined_ret n a : disciplined num [] n (Ret a)
| disciplined_raise n e : disciplined num [] n (Raise e)
| disciplined_load_number held n l k x :
    num l = Some x -> disciplined num held n (k x) ->
    disciplined num held (S n) (LoadNumber l k)
| disciplined_load_balance held n l k :
    is_Some (num l) -> (forall v, disciplined num held n (k v)) ->
    disciplined num held (S n) (LoadBalance l k)
| disciplined_store_balance held n l v k :
    is_Some (num l) -> disciplined num held n k ->
    disciplined num held (S n) (StoreBalance l v k)
| disciplined_acquire held n l k :
    is_Some (num l) -> Forall (fun l' => before num l' l = true) held ->
    disciplined num (l :: held) n k ->
    disciplined num held (S n) (Acquire l k)
| disciplined_release held n l k :
    disciplined num held n k ->
    disciplined num (l :: held) (S n) (Release l k).

(** Number of actions of the longest call, [transfer_to]. *)
Definition call_cost : nat := 11.

(** The lock of the object at [l], if some thread owns it. *)
Definition lock_of (h : heap) (l : loc) : option (tid * nat) :=
  a ← h !! l; BankAccount.lock a.

(** What holds of every configuration the workers can reach from the store
    [h0]: [ghost] gives, for each worker, the locks it holds and a bound on
    the actions left in its current call. *)
Record invariant (h0 : heap) (c : config) (ghost : list (list loc * nat))
  : Prop := mk_invariant {
  inv_length : length ghost = length (workers c);
  inv_numbers : forall l, numbers (store c) l = numbers h0 l;
  inv_locks : forall l u n,
    lock_of (store c) l = Some (u, n) ->
    n = 1%nat /\ (u < length (workers c))%nat;
  inv_workers : forall t w held n,
    workers c !! t = Some w -> ghost !! t = Some (held, n) ->
    disciplined (numbers h0) held n (current w)
    /\ NoDup held
    /\ (forall l, l ∈ held <-> lock_of (store c) l = Some (t, 1%nat))
    /\ Forall (worker_call_ok h0) (todo w)
}.

(** Before the workers start: no lock held, no call in progress. *)
Definition idle (jobs : list (list call)) : list (list loc * nat) :=
  map (fun _ => ([], 0%nat)) jobs.

(** The lock a worker is about to acquire. *)
Definition wanted (w : worker) : option loc :=
  match current w with Acquire l _ => Some l | _ => None end.

(** Steps the workers can still take, at most. *)
Definition measure (c : config) (ghost : list (list loc * nat)) : nat :=
  sum_list (snd <$> ghost)
  + S call_cost * sum_list ((fun w => length (todo w)) <$> workers c).

(** *** Ownership of balances

    What a worker knows of the balances of the accounts whose locks it
    holds: the value it has last read or written there. *)
Definition view := loc -> option Z.

Definition no_view : view := fun _ => None.

Definition learn (l : loc) (v : Z) (f : view) : view :=
  fun l' => if decide (l' = l) then Some v else f l'.

Definition forget (l : loc) (f : view) : view :=
  fun l' => if decide (l' = l) then None else f l'.

(** [tracked P strict held f owed p]: a thread that holds the locks [held],
    knows the balances [f] and has taken [owed] more out of the accounts
    than it has put in, and has [p] left to run,
    - reads and writes a balance only while it holds the account's lock,
    - writes a balance only after it has read it, and writes a value that
      satisfies [P] provided the values it reads do,
    - releases the locks in the reverse order and ends holding none,
    - and, when [strict], ends owing nothing. *)
Inductive tracked (P : Z -> Prop) (strict : bool)
  : list loc -> view -> Z -> prog unit -> Prop :=
| tracked_ret f owed a :
    (strict = true -> owed = 0) -> tracked P strict [] f owed (Ret a)
| tracked_raise f owed e :
    (strict = true -> owed = 0) -> tracked P strict [] f owed (Raise e)
| tracked_load_number held f owed l k :
    (forall x, tracked P strict held f owed (k x)) ->
    tracked P strict held f owed (LoadNumber l k)
| tracked_load_balance held f owed l k :
    l ∈ held ->
    (forall v, P v -> (forall b, f l = Some b -> v = b) ->
               tracked P strict held (learn l v f) owed (k v)) ->
    tracked P strict held f owed (LoadBalance l k)
| tracked_store_balance held f owed l v b k :
    l ∈ held -> f l = Some b -> P v ->
    tracked P strict held (learn l v f) (owed + b - v) k ->
    tracked P strict held f owed (StoreBalance l v k)
| tracked_acquire held f owed l k :
    l ∉ held -> tracked P strict (l :: held) f owed k ->
    tracked P strict held f owed (Acquire l k)
| tracked_release held f owed l k :
    tracked P strict held (forget l f) owed k ->
    tracked P strict (l :: held) f owed (Release l k).

Definition sum_owed (k : list (list loc * view * Z)) : Z :=
  foldr (fun x s => snd x + s) 0 k.

(** What holds of every configuration the workers can reach, as far as the
    balances go: [k] gives, for each worker, the locks it holds, what it
    knows of the balances behind them and what it owes.  Every balance
    satisfies [P]; when [strict], the balances and the amounts owed add up
    to [total]. *)
Record ledger (P : Z -> Prop) (strict : bool) (total : Z) (c : config)
  (k : list (list loc * view * Z)) : Prop := mk_ledger {
  led_length : length k = length (workers c);
  led_balances : forall l a,
    store c !! l = Some a -> P (BankAccount.balance_cents a);
  led_total : strict = true -> total_balance (store c) + sum_owed k = total;
  led_workers : forall t w held f owed,
    workers c !! t = Some w -> k !! t = Some (held, f, owed) ->
    tracked P strict held f owed (current w)
    /\ NoDup held
    /\ (forall l, l ∈ held -> exists m, lock_of (store c) l = Some (t, m))
    /\ (forall l v, f l = Some v -> l ∈ held /\ balance (store c) l = Some v)
    /\ Forall (fun c' => tracked P strict [] no_view 0 (perform c')) (todo w)
}.

(** Before the workers start: nothing held, nothing known, nothing owed. *)
Definition blank_ledger (jobs : list (list call))
  : list (list loc * view * Z) :=
  map (fun _ => ([], no_view, 0)) jobs.

(** Every worker is between two calls. *)
Definition quiescent (c : config) : bool :=
  forallb (fun w => returned (current w)) (workers c).

(** ** The rest of the module: printing, user tasks, the simulator *)

(** [try: p except ...: q]: [handler e] is the body of the clause that
    catches [e], if one does. *)
Fixpoint try_except {A : Type} (p : prog A) (handler : exn -> option (prog A))
  : prog A :=
  match p with
  | Ret a => Ret a
  | Raise e => match handler e with Some q => q | None => Raise e end
  | New n b k => New n b (fun l => try_except (k l) handler)
  | LoadNumber l k => LoadNumber l (fun n => try_except (k n) handler)
  | LoadBalance l k => LoadBalance l (fun v => try_except (k v) handler)
  | StoreBalance l v k => StoreBalance l v (try_except k handler)
  | Acquire l k => Acquire l (try_except k handler)
  | Release l k => Release l (try_except k handler)
  end.

(** [except InsufficientFundsError: pass] *)
Definition except_InsufficientFundsError_pass (e : exn) : option (prog unit) :=
  match e with
  | InsufficientFundsError _ => Some (Ret tt)
  | ValueError _ => None
  end.

(** [except ValueError: pass] *)
Definition except_ValueError_pass (e : exn) : option (prog unit) :=
  match e with
  | ValueError _ => Some (Ret tt)
  | InsufficientFundsError _ => None
  end.

(** The decimal form of an integer: its digits, with a minus sign when
    negative. *)
Definition decimal (z : Z) : str :=
  str_of_string (NilZero.string_of_int (Z.to_int z)).

(** Number of decimal digits, the sign not counted. *)
Definition digits (z : Z) : nat := length (decimal (Z.abs z)).

(** [str(z)] for a Python [int], as the f-string of [__str__] formats the
    balance.  [max_str_digits] is [sys.get_int_max_str_digits()]: 4300
    unless the program was started otherwise, and 0 when there is no limit
    (as in interpreters older than the limit); the interpreter accepts no
    other value below 640.  With a limit, an integer of more digits is not
    converted: [ValueError] (the text is the one of CPython 3.12; older
    versions word it slightly differently). *)
Definition str_of_int (max_str_digits : nat) (z : Z) : prog str :=
  if (0 <? max_str_digits)%nat && (max_str_digits <? digits z)%nat
  then Raise (ValueError
                ("Exceeds the limit ("
                 ++ NilZero.string_of_uint (Nat.to_uint max_str_digits)
                 ++ " digits) for integer string conversion; "
                 ++ "use sys.set_int_max_str_digits() to increase the limit"))
  else Ret (decimal z).

(** [BankAccount.__str__]:
    [f"BankAccount({self.account_number}, balance_cents={self.get_balance()})"];
    the balance is formatted after [get_balance] has returned. *)
Definition __str__ (max_str_digits : nat) (self : loc) : prog str :=
  LoadNumber self (fun number =>
  bind (BankAccount.get_balance self) (fun b =>
  bind (str_of_int max_str_digits b) (fun text =>
  Ret (str_of_string "BankAccount(" ++ number
       ++ str_of_string ", balance_cents=" ++ text
       ++ str_of_string ")")))).

Module UserTask.

(** The fields set by [UserTask.__init__]; the thread name made from
    [user_id] is not used by [run]. *)
Record t : Type := mk {
  primary_account : loc;
  secondary_account : option loc;
  operations : nat
}.

(** What [random.choice(["deposit", "withdraw", "transfer"])] returns. *)
Inductive action : Type := deposit | withdraw | transfer.

(** The random values of one iteration: the action, the amount drawn by
    [random.randint(100, 10_000)] and, used by transfers only, the direction
    drawn by [random.choice([True, False])]. *)
Record draw : Type := mk_draw {
  chosen : action;
  amount_cents : Z;
  primary_to_secondary : bool
}.

(** One iteration of the loop of [run]; [time.sleep] does not touch the
    store and is left out. *)
Definition iteration (self : t) (d : draw) : prog unit :=
  try_except
    (match chosen d with
     | deposit =>
         BankAccount.deposit (primary_account self) (amount_cents d)
     | withdraw =>
         try_except
           (BankAccount.withdraw (primary_account self) (amount_cents d))
           except_InsufficientFundsError_pass
     | transfer =>
         match secondary_account self with
         | Some secondary =>
             if primary_to_secondary d
             then try_except
                    (BankAccount.transfer_to (primary_account self)
                       (Some secondary) (amount_cents d))
                    except_InsufficientFundsError_pass
             else try_except
                    (BankAccount.transfer_to secondary
                       (Some (primary_account self)) (amount_cents d))
                    except_InsufficientFundsError_pass
         | None => Ret tt
         end
     end)
    except_ValueError_pass.

(** [for _ in range(n)], the iterations numbered from [i]; [rand i] gives
    the random values of iteration [i]. *)
Fixpoint loop (self : t) (rand : nat -> draw) (n i : nat) : prog unit :=
  match n with
  | O => Ret tt
  | S n' => bind (iteration self (rand i)) (fun _ => loop self rand n' (S i))
  end.

Definition run (self : t) (rand : nat -> draw) : prog unit :=
  loop self rand (operations self) 0%nat.

(** The call on an account that an iteration makes, if it makes one. *)
Definition call_of (self : t) (d : draw) : option call :=
  match chosen d with
  | deposit => Some (Deposit (primary_account self) (amount_cents d))
  | withdraw => Some (Withdraw (primary_account self) (amount_cents d))
  | transfer =>
      match secondary_account self with
      | Some secondary =>
          Some (if primary_to_secondary d
                then TransferTo (primary_account self) (Some secondary)
                       (amount_cents d)
                else TransferTo secondary (Some (primary_account self))
                       (amount_cents d))
      | None => None
      end
  end.

(** The calls that [run] makes, in order. *)
Fixpoint calls_from (self : t) (rand : nat -> draw) (n i : nat) : list call :=
  match n with
  | O => []
  | S n' =>
      match call_of self (rand i) with
      | Some c => c :: calls_from self rand n' (S i)
      | None => calls_from self rand n' (S i)
      end
  end.

Definition calls (self : t) (rand : nat -> draw) : list call :=
  calls_from self rand (operations self) 0%nat.

(** The amount is one that [random.randint(100, 10_000)] can return. *)
Definition in_range (d : draw) : Prop := 100 <= amount_cents d <= 10000.

End UserTask.

Module TransactionSimulator.

(** The fields set by [__init__]; [user_threads] starts empty and is filled
    by [run]. *)
Record t : Type := mk {
  account_a : loc;
  account_b : loc;
  user_count : nat;
  operations_per_user : nat
}.

Definition __init__ (initial_balance_a initial_balance_b : Z)
  (user_count operations_per_user : nat) : prog t :=
  bind (BankAccount.__init__ (str_of_string "ACC-001") initial_balance_a)
    (fun a =>
  bind (BankAccount.__init__ (str_of_string "ACC-002") initial_balance_b)
    (fun b =>
  Ret (mk a b user_count operations_per_user))).

Definition total_balance (self : t) : prog Z :=
  bind (BankAccount.get_balance (account_a self)) (fun a =>
  bind (BankAccount.get_balance (account_b self)) (fun b =>
  Ret (a + b))).

(** [[UserTask(i, a, b, operations_per_user) for i in range(user_count)]] *)
Definition user_threads (self : t) : list UserTask.t :=
  map (fun _ => UserTask.mk (account_a self) (Some (account_b self))
                  (operations_per_user self))
    (seq 0 (user_count self)).

(** The threads of [run] once started, over the store [h]: thread [i]
    draws its random values from [rand i]. *)
Definition started (self : t) (rand : nat -> nat -> UserTask.draw) (h : heap)
  : config :=
  spawn h (imap (fun i u => UserTask.calls u (rand i)) (user_threads self)).

End TransactionSimulator.

(** The accounts of a user task are objects of the store. *)
Definition task_ok (h : heap) (u : UserTask.t) : Prop :=
  (UserTask.primary_account u < length h)%nat
  /\ match UserTask.secondary_account u with
     | Some s => (s < length h)%nat
     | None => True
     end.

(** The call did not fail with a [ValueError]. *)
Definition no_ValueError (r : result unit) : Prop :=
  match r with Raises (ValueError _) => False | _ => True end.

(** The account whose balance the next action of [p] reads or writes. *)
Definition accessed {A : Type} (p : prog A) : option loc :=
  match p with
  | LoadBalance l _ | StoreBalance l _ _ => Some l
  | _ => None
  end.

(** *** Workers that deposit and withdraw the same amount

    The job of a worker of [test_concurrent_deposit_and_withdraw]: [rounds]
    times, deposit [d] into the account and withdraw [d] from it. *)
Fixpoint deposit_withdraw_rounds (acc : loc) (d : Z) (rounds : nat)
  : list call :=
  match rounds with
  | O => []
  | S n => Deposit acc d :: Withdraw acc d :: deposit_withdraw_rounds acc d n
  end.

(** The books of one such worker: whether it holds the lock, the balance
    it has seen under the lock, how much of the account's money it has in
    hand ([in_hand] is negative while its deposit has not been withdrawn
    again) and what it will have in hand at the end of its current call. *)
Record books : Type := mk_books {
  locked : bool;
  seen : option Z;
  in_hand : Z;
  at_end : Z
}.

(** [paired acc final locked seen hand p]: what is left of a deposit or of
    a withdrawal on [acc] reads and writes the balance under the lock only,
    never leaves the worker with a positive amount in hand, and ends with
    [final] in hand.  The balance it reads is at least what the worker has
    deposited and not yet withdrawn. *)
Inductive paired (acc : loc) (final : Z)
  : bool -> option Z -> Z -> prog unit -> Prop :=
| paired_ret seen hand a :
    hand = final -> paired acc final false seen hand (Ret a)
| paired_load seen hand k :
    (forall v, 0 <= v + hand -> (forall b, seen = Some b -> v = b) ->
               paired acc final true (Some v) hand (k v)) ->
    paired acc final true seen hand (LoadBalance acc k)
| paired_store b hand v k :
    hand + b - v <= 0 ->
    paired acc final true (Some v) (hand + b - v) k ->
    paired acc final true (Some b) hand (StoreBalance acc v k)
| paired_acquire seen hand k :
    paired acc final true seen hand k ->
    paired acc final false seen hand (Acquire acc k)
| paired_release seen hand k :
    paired acc final false None hand k ->
    paired acc final true seen hand (Release acc k).

(** The calls a worker still has to make, given what it will have in hand
    when its current call ends: whole rounds, or a withdrawal first. *)
Definition rounds_left (acc : loc) (d : Z) (final : Z) (todo : list call)
  : Prop :=
  (final = 0 /\ exists n, todo = deposit_withdraw_rounds acc d n)
  \/ (final = - d
      /\ exists n, todo = Withdraw acc d :: deposit_withdraw_rounds acc d n).

Definition sum_in_hand (k : list books) : Z :=
  foldr (fun x s => in_hand x + s) 0 k.

(** What holds of every configuration such workers can reach: the balance
    of the account and what the workers have in hand add up to the initial
    balance [b0]. *)
Record in_step (acc : loc) (d b0 : Z) (c : config) (k : list books)
  : Prop := mk_in_step {
  ins_length : length k = length (workers c);
  ins_balance : exists b,
    balance (store c) acc = Some b /\ b + sum_in_hand k = b0;
  ins_workers : forall t w x,
    workers c !! t = Some w -> k !! t = Some x ->
    paired acc (at_end x) (locked x) (seen x) (in_hand x) (current w)
    /\ in_hand x <= 0
    /\ (locked x = true -> exists m, lock_of (store c) acc = Some (t, m))
    /\ (forall v, seen x = Some v ->
          locked x = true /\ balance (store c) acc = Some v)
    /\ rounds_left acc d (at_end x) (todo w)
}.

(** *** Workers that use some of the accounts only

    [confined ls p]: every action of [p] names an account of [ls], and [p]
    creates no account. *)
Inductive confined {A : Type} (ls : list loc) : prog A -> Prop :=
| confined_ret a : confined ls (Ret a)
| confined_raise e : confined ls (Raise e)
| confined_load_number l k :
    l ∈ ls -> (forall x, confined ls (k x)) -> confined ls (LoadNumber l k)
| confined_load_balance l k :
    l ∈ ls -> (forall v, confined ls (k v)) -> confined ls (LoadBalance l k)
| confined_store_balance l v k :
    l ∈ ls -> confined ls k -> confined ls (StoreBalance l v k)
| confined_acquire l k :
    l ∈ ls -> confined ls k -> confined ls (Acquire l k)
| confined_release l k :
    l ∈ ls -> confined ls k -> confined ls (Release l k).

(** The call is made on accounts of [ls], and is not a construction. *)
Definition call_within (ls : list loc) (c : call) : Prop :=
  match c with
  | Construct _ _ => False
  | GetBalance self | Deposit self _ | Withdraw self _ => self ∈ ls
  | TransferTo self other _ =>
      self ∈ ls /\ match other with Some o => o ∈ ls | None => True end
  end.

(** The two stores have the same objects at [ls]. *)
Definition agree (ls : list loc) (h h' : heap) : Prop :=
  forall l, l ∈ ls -> h !! l = h' !! l.

(** The workers of [c] use the accounts of [ls] only. *)
Definition within (ls : list loc) (c : config) : Prop :=
  forall t w, workers c !! t = Some w ->
    confined ls (current w) /\ Forall (call_within ls) (todo w).

(** Two configurations that differ at most in the accounts their workers
    do not use. *)
Record alike (ls : list loc) (c c' : config) : Prop := mk_alike {
  alike_workers : workers c = workers c';
  alike_store : agree ls (store c) (store c');
  alike_within : within ls c
}.

(** A store of [n] accounts with pairwise distinct numbers, none of them
    the number of an account of the simulator, no lock held and nothing in
    them: it stands in for the accounts a simulation does not use. *)
Definition placeholder (i : nat) : BankAccount.t :=
  BankAccount.mk (replicate (8 + i) 0%N) 0 None.

Definition placeholders (n : nat) : heap := map placeholder (seq 0 n).

(** *** A transfer among other threads

    Thread [t] owns the lock of the account at [l]. *)
Definition holds (c : config) (t : tid) (l : loc) : Prop :=
  exists m, lock_of (store c) l = Some (t, m).

(** No thread but [t] is about to read or write the balance of [l]. *)
Definition alone (c : config) (t : tid) (l : loc) : Prop :=
  forall u w,
    workers c !! u = Some w -> accessed (current w) = Some l -> u = t.

(** Thread [t] is not about to read or write a balance. *)
Definition quiet (c : config) (t : tid) : Prop :=
  forall w, workers c !! t = Some w -> accessed (current w) = None.

(** Thread [t] has the accounts [self] and [other] to itself: it holds both
    locks, and no other thread is about to read or write either balance. *)
Definition exclusive (c : config) (t : tid) (self other : loc) : Prop :=
  holds c t self /\ holds c t other /\ alone c t self /\ alone c t other.

(** [P] holds before, between and after the steps [s] taken from [c]. *)
Definition throughout (P : config -> Prop) (s : list tid) (c : config)
  : Prop :=
  forall p q c', s = p ++ q -> schedule p c = Some c' -> P c'.

(** The three parts of a transfer.  [leaving r p]: [p] only gives locks
    back, and ends as [r]. *)
Inductive leaving (r : prog unit) : prog unit -> Prop :=
| leaving_end : returned r = true -> leaving r r
| leaving_release l k : leaving r k -> leaving r (Release l k).

(** [critical self other amount v1 v2 x1 x2 p]: [p] is what is left of the
    part of a transfer that reads and writes the balances, entered when
    the balances of [self] and [other] were [v1] and [v2], now that they
    are [x1] and [x2].  It reads and writes these two balances only; when
    it is through with them, either [amount > v1], the balances are [v1]
    and [v2] and the transfer ends with [InsufficientFundsError], or
    [amount <= v1], the balances are [v1 - amount] and [v2 + amount] and
    the transfer returns. *)
Inductive critical (self other : loc) (amount v1 v2 : Z)
  : Z -> Z -> prog unit -> Prop :=
| critical_load_self x1 x2 k :
    critical self other amount v1 v2 x1 x2 (k x1) ->
    critical self other amount v1 v2 x1 x2 (LoadBalance self k)
| critical_load_other x1 x2 k :
    critical self other amount v1 v2 x1 x2 (k x2) ->
    critical self other amount v1 v2 x1 x2 (LoadBalance other k)
| critical_store_self x1 x2 v k :
    critical self other amount v1 v2 v x2 k ->
    critical self other amount v1 v2 x1 x2 (StoreBalance self v k)
| critical_store_other x1 x2 v k :
    critical self other amount v1 v2 x1 v k ->
    critical self other amount v1 v2 x1 x2 (StoreBalance other v k)
| critical_failed l k :
    amount > v1 ->
    leaving (Raise (InsufficientFundsError "Insufficient funds for transfer."))
      (Release l k) ->
    critical self other amount v1 v2 v1 v2 (Release l k)
| critical_done l k :
    amount <= v1 ->
    leaving (Ret tt) (Release l k) ->
    critical self other amount v1 v2 (v1 - amount) (v2 + amount)
      (Release l k).

(** [entering self other amount held p]: [p] is a transfer that has not
    yet taken both locks; [held] is the one it has.  It reads account
    numbers and takes the two locks, and then goes on with the critical
    part. *)
Inductive entering (self other : loc) (amount : Z)
  : option loc -> prog unit -> Prop :=
| entering_number l k :
    (forall x, entering self other amount None (k x)) ->
    entering self other amount None (LoadNumber l k)
| entering_first l k :
    l = self \/ l = other ->
    entering self other amount (Some l) k ->
    entering self other amount None (Acquire l k)
| entering_second l l' k :
    (l = self /\ l' = other) \/ (l = other /\ l' = self) ->
    (forall v1 v2, critical self other amount v1 v2 v1 v2 k) ->
    entering self other amount (Some l) (Acquire l' k).

(** How a transfer of [amount] that found the balances [v1] and [v2] ends,
    [r] being what is left of it and [y1], [y2] the balances it leaves:
    either it fails for lack of funds and has changed neither balance, or
    it returns and has moved the amount. *)
Definition transferred (amount v1 v2 : Z) (r : prog unit) (y1 y2 : option Z)
  : Prop :=
  (amount > v1
   /\ r = Raise (InsufficientFundsError "Insufficient funds for transfer.")
   /\ y1 = Some v1 /\ y2 = Some v2)
  \/ (amount <= v1 /\ r = Ret tt
      /\ y1 = Some (v1 - amount) /\ y2 = Some (v2 + amount)).

(** A user task whose every draw is a transfer. *)
Definition only_transfers (rand : nat -> UserTask.draw) : Prop :=
  forall i, UserTask.chosen (rand i) = UserTask.transfer.

(** Random values used in the examples: deposit 150, withdraw 500, transfer
    250 one way and 9000 the other. *)
Definition sample_rand (i : nat) : UserTask.draw :=
  match i with
  | 0%nat => UserTask.mk_draw UserTask.deposit 150 true
  | 1%nat => UserTask.mk_draw UserTask.withdraw 500 false
  | 2%nat => UserTask.mk_draw UserTask.transfer 250 true
  | _ => UserTask.mk_draw UserTask.transfer 9000 false
  end.

(** ** Stores and jobs used in the examples *)

(** Two accounts with distinct numbers. *)
Definition acc_a : BankAccount.t :=
  BankAccount.mk (str_of_string "ACC-A") 100000 None.
Definition acc_b : BankAccount.t :=
  BankAccount.mk (str_of_string "ACC-B") 200000 None.
Definition two_accounts : heap := [acc_a; acc_b].

(** Transfers of every kind: one that succeeds, one that exceeds the
    balance, a self-transfer, one with no target, one with a negative
    amount and one that empties the source. *)
Definition transfer_mix : list call :=
  [TransferTo 0%nat (Some 1%nat) 50;
   TransferTo 1%nat (Some 0%nat) 999999;
   TransferTo 0%nat (Some 0%nat) 5;
   TransferTo 0%nat None 5;
   TransferTo 1%nat (Some 0%nat) (-3);
   TransferTo 1%nat (Some 0%nat) 200050].

(** Each of the two workers runs its call from start to end, one worker
    after the other. *)
Definition one_after_the_other : list tid :=
  replicate 12 0%nat ++ replicate 12 1%nat.

(** Two distinct accounts that were given the same number. *)
Definition twins : heap :=
  [BankAccount.mk (str_of_string "ACC") 100 None;
   BankAccount.mk (str_of_string "ACC") 100 None].

Definition crossing_transfers : list (list call) :=
  [[TransferTo 0%nat (Some 1%nat) 10]; [TransferTo 1%nat (Some 0%nat) 10]].

(** An account whose lock thread 3 has acquired [count] times. *)
Definition acc_held (count : nat) : BankAccount.t :=
  BankAccount.mk (str_of_string "ACC-A") 70 (Some (3%nat, count)).

(** A user task over the two accounts, four iterations long. *)
Definition sample_task : UserTask.t := UserTask.mk 0%nat (Some 1%nat) 4.

(** Random values for the threads of a simulator: every thread always
    transfers 250 from the first account to the second. *)
Definition transfer_rand (i j : nat) : UserTask.draw :=
  UserTask.mk_draw UserTask.transfer 250 true.

(* ===================================================================== *)
(** * Properties *)

(** ** Running single calls *)

Ltac lookup_tac :=
  repeat first
    [ rewrite list_lookup_insert_ne by congruence
    | rewrite list_lookup_insert_eq
        by (rewrite ?length_insert; eauto using lookup_lt_Some) ].

Ltac heap_run :=
  repeat (lookup_tac;
          match goal with
          | H : ?h !! ?l = Some _ |- context [?h !! ?l] => rewrite H
          | H : BankAccount.lock ?a = _ |- context [BankAccount.lock ?a] =>
              rewrite H
          | |- context [decide (?x = ?x)] =>
              rewrite (decide_True (P := x = x)) by reflexivity
          | _ => progress simpl
          end).

(** Two stores with the same objects are equal. *)
Ltac heap_eq self other :=
  apply list_eq; intros i;
  destruct (decide (i = self)) as [->|];
  [|destruct (decide (i = other)) as [->|]];
  lookup_tac;
  repeat match goal with
         | H : ?h !! ?l = Some _ |- context [?h !! ?l] => rewrite H
         | a : BankAccount.t |- _ => destruct a; simpl in *; subst
         end;
  try reflexivity.

Lemma exec_get_balance t h self a :
  h !! self = Some a -> BankAccount.lock a = None ->
  exec t (BankAccount.get_balance self) h
  = Some (Returns (BankAccount.balance_cents a), h).
Proof.
  intros H L. unfold BankAccount.get_balance, with_lock. heap_run.
  do 2 f_equal. heap_eq self self.
Qed.

Lemma exec_deposit t h self a amount :
  h !! self = Some a -> BankAccount.lock a = None ->
  exec t (BankAccount.deposit self amount) h
  = Some (if amount <=? 0
          then (Raises (ValueError "Deposit amount must be positive."), h)
          else (Returns tt,
                <[self := set_balance (BankAccount.balance_cents a + amount) a]>
                  h)).
Proof.
  intros H L. unfold BankAccount.deposit, with_lock.
  destruct (amount <=? 0); [reflexivity|]. heap_run.
  do 2 f_equal. heap_eq self self.
Qed.

Lemma exec_withdraw t h self a amount :
  h !! self = Some a -> BankAccount.lock a = None ->
  exec t (BankAccount.withdraw self amount) h
  = Some (if amount <=? 0
          then (Raises (ValueError "Withdrawal amount must be positive."), h)
          else if amount >? BankAccount.balance_cents a
          then (Raises (InsufficientFundsError "Insufficient funds."), h)
          else (Returns tt,
                <[self := set_balance (BankAccount.balance_cents a - amount) a]>
                  h)).
Proof.
  intros H L. unfold BankAccount.withdraw, with_lock.
  destruct (amount <=? 0); [reflexivity|]. heap_run.
  destruct (amount >? _); heap_run; do 2 f_equal; heap_eq self self.
Qed.

Lemma exec_transfer_to t h self other a1 a2 amount :
  h !! self = Some a1 -> h !! other = Some a2 -> self <> other ->
  BankAccount.lock a1 = None -> BankAccount.lock a2 = None ->
  exec t (BankAccount.transfer_to self (Some other) amount) h
  = Some (if amount <=? 0
          then (Raises (ValueError "Transfer amount must be positive."), h)
          else if amount >? BankAccount.balance_cents a1
          then (Raises (InsufficientFundsError
                          "Insufficient funds for transfer."), h)
          else (Returns tt,
                <[other := set_balance (BankAccount.balance_cents a2 + amount)
                             a2]>
                  (<[self := set_balance (BankAccount.balance_cents a1 - amount)
                               a1]> h))).
Proof.
  intros H1 H2 Hne L1 L2. unfold BankAccount.transfer_to, with_lock.
  rewrite decide_False by congruence.
  destruct (amount <=? 0); [reflexivity|]. heap_run.
  destruct (str_lt _ _); heap_run;
    (destruct (amount >? _); heap_run; do 2 f_equal; heap_eq self other).
Qed.

(** Reading the store after an update. *)
Lemma balance_insert_eq (h : heap) l a v :
  h !! l = Some a -> balance (<[l := set_balance v a]> h) l = Some v.
Proof.
  intros H. unfold balance.
  rewrite list_lookup_insert_eq by eauto using lookup_lt_Some. reflexivity.
Qed.

Lemma balance_insert_ne (h : heap) l l' a :
  l <> l' -> balance (<[l := a]> h) l' = balance h l'.
Proof.
  intros H. unfold balance. rewrite list_lookup_insert_ne by done. reflexivity.
Qed.

Lemma balance_Some (h : heap) l a :
  h !! l = Some a -> balance h l = Some (BankAccount.balance_cents a).
Proof. intros H. unfold balance. rewrite H. reflexivity. Qed.

(** [exec] is [act] repeated until the call returns or raises. *)
Lemma exec_act {A : Type} t (p p' : prog A) h h' :
  act t p h = Some (p', h') -> exec t p h = exec t p' h'.
Proof.
  destruct p as [a|e|n b k|l k|l k|l v k|l k|l k]; simpl;
    try discriminate;
    try (destruct (h !! l) as [a|]; simpl; [|discriminate]).
  - intros [= <- <-]. reflexivity.
  - intros [= <- <-]. reflexivity.
  - intros [= <- <-]. reflexivity.
  - intros [= <- <-]. reflexivity.
  - destruct (acquire t _); simpl; [|discriminate].
    intros [= <- <-]. reflexivity.
  - destruct (release t _); simpl; [|discriminate].
    intros [= <- <-]. reflexivity.
Qed.

(** The single-threaded unit tests of the source. *)
Example test_deposit_and_withdraw_single_thread :
  exists tr,
    run 0%nat [Construct (str_of_string "TEST-001") 0;
               Deposit 0%nat 10000; Withdraw 0%nat 4000] [] = Some tr
    /\ balance (final [] tr) 0%nat = Some 6000.
Proof. eexists. split; reflexivity. Qed.

Example test_insufficient_funds_withdraw :
  exists tr,
    run 0%nat [Construct (str_of_string "TEST-002") 2000;
               Withdraw 0%nat 3000] [] = Some tr
    /\ map fst tr
       = [Returns tt;
          Raises (InsufficientFundsError "Insufficient funds.")]
    /\ balance (final [] tr) 0%nat = Some 2000.
Proof. eexists. split; [reflexivity|]. split; reflexivity. Qed.

Example test_invalid_amounts :
  exists tr,
    run 0%nat [Construct (str_of_string "TEST-003") 1000;
               Deposit 0%nat 0; Withdraw 0%nat (-100);
               TransferTo 0%nat (Some 0%nat) 100] [] = Some tr
    /\ map fst tr
       = [Returns tt;
          Raises (ValueError "Deposit amount must be positive.");
          Raises (ValueError "Withdrawal amount must be positive.");
          Raises (ValueError "Cannot transfer to the same account.")]
    /\ balance (final [] tr) 0%nat = Some 1000.
Proof. eexists. split; [reflexivity|]. split; reflexivity. Qed.

(** ** Blank account numbers *)

Lemma lstrip_nil s : lstrip s = [] <-> blank s = true.
Proof.
  induction s as [|c s IH]; simpl; [tauto|].
  destruct (Py_UNICODE_ISSPACE c); simpl; [exact IH|].
  split; discriminate.
Qed.

Lemma blank_app s s' : blank (s ++ s') = blank s && blank s'.
Proof. apply forallb_app. Qed.

Lemma blank_rev s : blank (rev s) = blank s.
Proof.
  induction s as [|c s IH]; simpl; [reflexivity|].
  rewrite blank_app, IH. simpl.
  destruct (blank s), (Py_UNICODE_ISSPACE c); reflexivity.
Qed.

Lemma blank_lstrip s : blank (lstrip s) = blank s.
Proof.
  induction s as [|c s IH]; simpl; [reflexivity|].
  destruct (Py_UNICODE_ISSPACE c) eqn:E; simpl; [exact IH|].
  rewrite E. reflexivity.
Qed.

Lemma rev_nil_inv (s : str) : rev s = [] -> s = [].
Proof.
  intros H. apply (f_equal (@rev N)) in H. rewrite rev_involutive in H.
  exact H.
Qed.

Lemma strip_nil s : strip s = [] <-> blank s = true.
Proof.
  unfold strip, rstrip. rewrite <- blank_lstrip, <- blank_rev, <- lstrip_nil.
  split; intros H.
  - apply rev_nil_inv. exact H.
  - rewrite H. reflexivity.
Qed.

(** [not s or not s.strip()] holds exactly for the blank strings. *)
Lemma number_rejected_iff s :
  negb (truthy s) || negb (truthy (strip s)) = true <-> blank s = true.
Proof.
  rewrite <- strip_nil. destruct s as [|c s]; simpl; [tauto|].
  destruct (strip (c :: s)); simpl; split; congruence.
Qed.

(** ** The constructor *)

Lemma classic_rejected number initial :
  rejected number initial \/ ~ rejected number initial.
Proof.
  unfold rejected. destruct number as [|c s]; [left; left; reflexivity|].
  destruct (blank (c :: s)); [left; right; left; reflexivity|].
  destruct (Z.lt_ge_cases initial 0); [left; right; right; assumption|].
  right. intros [?|[?|?]]; [discriminate..|lia].
Qed.

Lemma exec_init_rejected t h number initial :
  rejected number initial ->
  exists msg,
    exec t (BankAccount.__init__ number initial) h
    = Some (Raises (ValueError msg), h).
Proof.
  intros Hr. unfold BankAccount.__init__.
  destruct (negb (truthy number) || negb (truthy (strip number))) eqn:E;
    [eexists; reflexivity|].
  destruct (Z.ltb_spec initial 0); [eexists; reflexivity|].
  exfalso. destruct Hr as [->|[Hb|Hn]]; [discriminate|..|lia].
  apply number_rejected_iff in Hb. congruence.
Qed.

Lemma exec_init_accepted t h number initial :
  ~ rejected number initial ->
  exec t (BankAccount.__init__ number initial) h
  = Some (Returns (length h), h ++ [BankAccount.mk number initial None]).
Proof.
  intros Hr. unfold BankAccount.__init__.
  destruct (negb (truthy number) || negb (truthy (strip number))) eqn:E.
  - exfalso. apply Hr. right; left. apply number_rejected_iff. exact E.
  - destruct (Z.ltb_spec initial 0); [|reflexivity].
    exfalso. apply Hr. right; right. assumption.
Qed.

(** C8.  Constructing an account fails with [ValueError] (the spec's
    InvalidArgument) if and only if the account number is empty or blank
    or the initial balance is negative; a failed construction leaves the
    store as it was, and otherwise a new account object with the given
    number and balance and a free lock is added to the store. *)
Theorem construction_validation t h number initial :
  (raises_ValueError (exec t (BankAccount.__init__ number initial) h)
   <-> number = [] \/ blank number = true \/ initial < 0)
  /\ (rejected number initial ->
      exists msg, exec t (BankAccount.__init__ number initial) h
                  = Some (Raises (ValueError msg), h))
  /\ (~ rejected number initial ->
      exec t (BankAccount.__init__ number initial) h
      = Some (Returns (length h), h ++ [BankAccount.mk number initial None])).
Proof.
  split; [|split].
  - split.
    + intros (msg & h' & E).
      destruct (classic_rejected number initial) as [Hr|Hr]; [exact Hr|].
      rewrite (exec_init_accepted t h _ _ Hr) in E. discriminate.
    + intros Hr. destruct (exec_init_rejected t h _ _ Hr) as [msg E].
      exists msg, h. exact E.
  - apply exec_init_rejected.
  - apply exec_init_accepted.
Qed.

(** ** deposit and withdraw *)

(** C9.  [deposit] always completes.  It fails exactly when the amount is
    not positive, with [ValueError] (the spec's InvalidArgument), and then
    the store is unchanged; it returns exactly when the amount is positive,
    and then it has added exactly the amount to the balance and changed
    nothing else. *)
Theorem deposit_effect t h self a amount :
  h !! self = Some a -> BankAccount.lock a = None ->
  let b := BankAccount.balance_cents a in
  exists r h',
    exec t (BankAccount.deposit self amount) h = Some (r, h')
    /\ (r = Raises (ValueError "Deposit amount must be positive.")
        <-> amount <= 0)
    /\ (r = Returns tt <-> 0 < amount)
    /\ (amount <= 0 -> h' = h)
    /\ (0 < amount ->
        h' = <[self := set_balance (b + amount) a]> h
        /\ balance h' self = Some (b + amount)).
Proof.
  intros H L b. rewrite (exec_deposit t h self a amount H L). fold b.
  destruct (Z.leb_spec amount 0); eexists _, _; (split; [reflexivity|]).
  - split; [tauto|]. split; [split; [discriminate|lia]|].
    split; [reflexivity|lia].
  - split; [split; [discriminate|lia]|]. split; [tauto|].
    split; [lia|]. intros _. split; [reflexivity|].
    apply balance_insert_eq. exact H.
Qed.

Lemma deposit_effect_witness :
  exec 0%nat (BankAccount.deposit 0%nat 0) two_accounts
  = Some (Raises (ValueError "Deposit amount must be positive."), two_accounts)
  /\ exists h',
       exec 0%nat (BankAccount.deposit 0%nat 10000) two_accounts
       = Some (Returns tt, h')
       /\ balance h' 0%nat = Some 110000.
Proof.
  split.
  - destruct (deposit_effect 0%nat two_accounts 0%nat acc_a 0
                eq_refl eq_refl) as (r & h' & E & Bad & _ & Same & _).
    rewrite (Same ltac:(lia)) in E.
    destruct Bad as [_ Bad]. rewrite (Bad ltac:(lia)) in E. exact E.
  - destruct (deposit_effect 0%nat two_accounts 0%nat acc_a 10000
                eq_refl eq_refl) as (r & h' & E & _ & Good & _ & Eff).
    destruct Good as [_ Good]. rewrite (Good ltac:(lia)) in E.
    exists h'. split; [exact E|]. apply Eff. lia.
Defined.

(** C5.  [withdraw] always completes, in exactly one of three ways.  It
    fails with [ValueError] (the spec's InvalidArgument) exactly when the
    amount is not positive; it fails with [InsufficientFundsError] exactly
    when the amount is positive and exceeds the balance; in both cases the
    store, and with it the balance, is unchanged.  It returns exactly when
    the amount is positive and at most the balance, and then the balance is
    decreased by the amount and nothing else has changed. *)
Theorem withdraw_raises_iff t h self a amount :
  h !! self = Some a -> BankAccount.lock a = None ->
  let b := BankAccount.balance_cents a in
  exists r h',
    exec t (BankAccount.withdraw self amount) h = Some (r, h')
    /\ (r = Raises (ValueError "Withdrawal amount must be positive.")
        <-> amount <= 0)
    /\ (r = Raises (InsufficientFundsError "Insufficient funds.")
        <-> 0 < amount /\ b < amount)
    /\ (r = Returns tt <-> 0 < amount <= b)
    /\ (amount <= 0 \/ b < amount -> h' = h /\ balance h' self = Some b)
    /\ (0 < amount <= b ->
        h' = <[self := set_balance (b - amount) a]> h
        /\ balance h' self = Some (b - amount)).
Proof.
  intros H L b. rewrite (exec_withdraw t h self a amount H L). fold b.
  assert (Hb : balance h self = Some b) by (apply balance_Some, H).
  destruct (Z.leb_spec amount 0);
    [|destruct (Z.gtb_spec amount b)]; eexists _, _; (split; [reflexivity|]).
  - split; [tauto|]. split; [split; [discriminate|lia]|].
    split; [split; [discriminate|lia]|]. split; [auto|lia].
  - split; [split; [discriminate|lia]|]. split; [split; [lia|reflexivity]|].
    split; [split; [discriminate|lia]|]. split; [auto|lia].
  - split; [split; [discriminate|lia]|]. split; [split; [discriminate|lia]|].
    split; [split; [lia|reflexivity]|]. split; [lia|].
    intros _. split; [reflexivity|]. apply balance_insert_eq. exact H.
Qed.

Lemma withdraw_raises_iff_witness :
  exec 0%nat (BankAccount.withdraw 0%nat (-100)) two_accounts
  = Some (Raises (ValueError "Withdrawal amount must be positive."),
          two_accounts)
  /\ exec 0%nat (BankAccount.withdraw 0%nat 300000) two_accounts
     = Some (Raises (InsufficientFundsError "Insufficient funds."),
             two_accounts)
  /\ exists h',
       exec 0%nat (BankAccount.withdraw 0%nat 4000) two_accounts
       = Some (Returns tt, h')
       /\ balance h' 0%nat = Some 96000.
Proof.
  pose proof (fun amount =>
    withdraw_raises_iff 0%nat two_accounts 0%nat acc_a amount
      eq_refl eq_refl) as W.
  simpl in W. split; [|split].
  - destruct (W (-100)) as (r & h' & E & [_ Bad] & _ & _ & Same & _).
    destruct Same as [-> _]; [lia|].
    rewrite (Bad ltac:(lia)) in E. exact E.
  - destruct (W 300000) as (r & h' & E & _ & [_ Poor] & _ & Same & _).
    destruct Same as [-> _]; [lia|].
    rewrite (Poor ltac:(lia)) in E. exact E.
  - destruct (W 4000) as (r & h' & E & _ & _ & [_ Good] & _ & Eff).
    rewrite (Good ltac:(lia)) in E.
    exists h'. split; [exact E|]. apply Eff. lia.
Defined.

(** ** transfer_to *)

Lemma exec_self_transfer t (h : heap) self amount :
  exec t (BankAccount.transfer_to self (Some self) amount) h
  = Some (Raises (ValueError "Cannot transfer to the same account."), h).
Proof.
  unfold BankAccount.transfer_to. rewrite decide_True by reflexivity.
  reflexivity.
Qed.

(** C7.  A transfer whose target is the account itself fails with
    [ValueError "Cannot transfer to the same account."] (the spec's
    InvalidOperation) and leaves the store, hence the balance, unchanged:
    for every store, every account, every amount and every balance. *)
Theorem self_transfer_rejected t (h : heap) self amount :
  exec t (BankAccount.transfer_to self (Some self) amount) h
  = Some (Raises (ValueError "Cannot transfer to the same account."), h).
Proof. apply exec_self_transfer. Qed.

(** C10.  The checks of [transfer_to] run in the order: target is [None],
    target is the account itself, amount is positive.  A [None] target is
    reported as such for every amount, also a non-positive one; a
    self-transfer is reported as such for every amount, also a non-positive
    one; a non-positive amount is reported for any other target.  Each of
    the three failures leaves the store, hence both balances, unchanged. *)
Theorem transfer_validation_precedence t (h : heap) self amount :
  exec t (BankAccount.transfer_to self None amount) h
  = Some (Raises (ValueError "Target account cannot be None."), h)
  /\ exec t (BankAccount.transfer_to self (Some self) amount) h
     = Some (Raises (ValueError "Cannot transfer to the same account."), h)
  /\ forall other, other <> self -> amount <= 0 ->
       exec t (BankAccount.transfer_to self (Some other) amount) h
       = Some (Raises (ValueError "Transfer amount must be positive."), h).
Proof.
  split; [reflexivity|]. split.
  - unfold BankAccount.transfer_to. rewrite decide_True by reflexivity.
    reflexivity.
  - intros other Hne Hamt. unfold BankAccount.transfer_to.
    rewrite decide_False by exact Hne.
    destruct (Z.leb_spec amount 0); [reflexivity|lia].
Qed.

(** ** Sequences of calls *)

Lemma exec_bind {A B : Type} t (p : prog A) (f : A -> prog B) h :
  exec t (bind p f) h
  = match exec t p h with
    | Some (Returns a, h') => exec t (f a) h'
    | Some (Raises e, h') => Some (Raises e, h')
    | None => None
    end.
Proof.
  revert h. induction p as [a|e|n b k IH|l k IH|l k IH|l v k IH|l k IH|l k IH];
    intros h; simpl; try reflexivity; try apply IH.
  - destruct (h !! l); simpl; [apply IH|reflexivity].
  - destruct (h !! l); simpl; [apply IH|reflexivity].
  - destruct (h !! l); simpl; [apply IH|reflexivity].
  - destruct (h !! l) as [a|]; simpl; [|reflexivity].
    destruct (acquire t _); simpl; [apply IH|reflexivity].
  - destruct (h !! l) as [a|]; simpl; [|reflexivity].
    destruct (release t _); simpl; [apply IH|reflexivity].
Qed.

Lemma lookup_valid (h : heap) l : (l < length h)%nat -> exists a, h !! l = Some a.
Proof. intros H. apply lookup_lt_is_Some_2 in H. exact H. Qed.

(** Every call on existing objects of a store with no lock held completes,
    with one of the listed outcomes. *)
Lemma exec_perform t h c :
  unlocked h -> call_ok h c ->
  exists r h', exec t (perform c) h = Some (r, h') /\ outcome h c r h'.
Proof.
  intros U Hok. destruct c as [n b|self|self amount|self amount|self other amount];
    simpl in Hok; unfold perform.
  - rewrite exec_bind. destruct (classic_rejected n b) as [Hr|Hr].
    + destruct (exec_init_rejected t h n b Hr) as [msg ->].
      eexists _, _. split; [reflexivity|constructor].
    + rewrite (exec_init_accepted t h n b Hr). simpl.
      eexists _, _. split; [reflexivity|constructor; exact Hr].
  - destruct (lookup_valid h self Hok) as [a Ha].
    rewrite exec_bind, (exec_get_balance t h self a Ha (U _ _ Ha)). simpl.
    eexists _, _. split; [reflexivity|constructor].
  - destruct (lookup_valid h self Hok) as [a Ha].
    rewrite (exec_deposit t h self a amount Ha (U _ _ Ha)).
    destruct (Z.leb_spec amount 0); eexists _, _;
      (split; [reflexivity|]); [constructor|].
    apply outcome_deposit; assumption.
  - destruct (lookup_valid h self Hok) as [a Ha].
    rewrite (exec_withdraw t h self a amount Ha (U _ _ Ha)).
    destruct (Z.leb_spec amount 0);
      [eexists _, _; split; [reflexivity|constructor]|].
    destruct (Z.gtb_spec amount (BankAccount.balance_cents a));
      eexists _, _; (split; [reflexivity|]); [constructor|].
    apply outcome_withdraw; [assumption|lia].
  - destruct Hok as [Hs Ho]. destruct other as [other|];
      [|eexists _, _; split; [reflexivity|constructor]].
    destruct (decide (other = self)) as [->|Hne].
    { rewrite exec_self_transfer.
      eexists _, _; split; [reflexivity|constructor]. }
    destruct (lookup_valid h self Hs) as [a1 H1].
    destruct (lookup_valid h other Ho) as [a2 H2].
    rewrite (exec_transfer_to t h self other a1 a2 amount H1 H2
               ltac:(congruence) (U _ _ H1) (U _ _ H2)).
    destruct (Z.leb_spec amount 0);
      [eexists _, _; split; [reflexivity|constructor]|].
    destruct (Z.gtb_spec amount (BankAccount.balance_cents a1));
      eexists _, _; (split; [reflexivity|]); [constructor|].
    apply outcome_transfer; [assumption|assumption|congruence|lia].
Qed.

Lemma total_balance_insert (h : heap) l a a' :
  h !! l = Some a ->
  total_balance (<[l := a']> h)
  = total_balance h - BankAccount.balance_cents a
    + BankAccount.balance_cents a'.
Proof.
  revert l. induction h as [|x h IH]; intros [|l] H; simpl in *;
    try discriminate.
  - injection H as ->. lia.
  - rewrite (IH l H). lia.
Qed.

Lemma unlocked_insert (h : heap) l a :
  unlocked h -> BankAccount.lock a = None -> unlocked (<[l := a]> h).
Proof.
  intros U L l' a' H. apply list_lookup_insert_Some in H.
  destruct H as [(_ & <- & _)|[_ H]]; [exact L|exact (U _ _ H)].
Qed.

Lemma nonneg_insert (h : heap) l a :
  nonneg h -> 0 <= BankAccount.balance_cents a -> nonneg (<[l := a]> h).
Proof.
  intros U L l' a' H. apply list_lookup_insert_Some in H.
  destruct H as [(_ & <- & _)|[_ H]]; [exact L|exact (U _ _ H)].
Qed.

Lemma outcome_unlocked h c r h' : outcome h c r h' -> unlocked h -> unlocked h'.
Proof.
  intros O U.
  destruct O as [c e|n b Hr|self|self a amount Ha Hamt|self a amount Ha Hamt|self other a1 a2 amount H1 H2 Hne Hamt];
    try exact U.
  - intros l a H. apply lookup_app_Some in H.
    destruct H as [H|[_ H]]; [exact (U _ _ H)|].
    destruct (l - length h)%nat as [|k]; simpl in H; [|discriminate].
    injection H as <-. reflexivity.
  - apply unlocked_insert; [exact U|]. simpl. eauto.
  - apply unlocked_insert; [exact U|]. simpl. eauto.
  - repeat apply unlocked_insert; try exact U; simpl; eauto.
Qed.

Lemma outcome_nonneg h c r h' : outcome h c r h' -> nonneg h -> nonneg h'.
Proof.
  intros O U.
  destruct O as [c e|n b Hr|self|self a amount Ha Hamt|self a amount Ha Hamt|self other a1 a2 amount H1 H2 Hne Hamt];
    try exact U.
  - intros l a H. apply lookup_app_Some in H.
    destruct H as [H|[_ H]]; [exact (U _ _ H)|].
    destruct (l - length h)%nat as [|k]; simpl in H; [|discriminate].
    injection H as <-. simpl. unfold rejected in Hr. lia.
  - apply nonneg_insert; [exact U|]. simpl.
    pose proof (U _ _ Ha). lia.
  - apply nonneg_insert; [exact U|]. simpl. lia.
  - pose proof (U _ _ H2).
    repeat apply nonneg_insert; try exact U; simpl; lia.
Qed.

Lemma outcome_length h c r h' :
  outcome h c r h' -> (length h <= length h')%nat.
Proof.
  intros O. destruct O; rewrite ?length_insert, ?length_app; simpl; lia.
Qed.

Lemma outcome_transfer_total h c r h' :
  outcome h c r h' -> is_transfer c ->
  total_balance h' = total_balance h /\ length h' = length h.
Proof.
  intros O T.
  destruct O as [c e|n b Hr|self|self a amount Ha Hamt|self a amount Ha Hamt|self other a1 a2 amount H1 H2 Hne Hamt];
    simpl in T; try contradiction; [tauto|].
  rewrite !length_insert. split; [|reflexivity].
  rewrite (total_balance_insert _ other a2)
    by (rewrite list_lookup_insert_ne by assumption; assumption).
  rewrite (total_balance_insert _ self a1) by assumption.
  simpl. lia.
Qed.

Lemma call_ok_length (h h' : heap) c :
  (length h <= length h')%nat -> call_ok h c -> call_ok h' c.
Proof.
  intros E. destruct c as [| | | |? [?|] ?]; simpl; try tauto; lia.
Qed.

Lemma last_cons_default {A : Type} (l : list A) : forall x d,
  last (x :: l) d = last l x.
Proof.
  induction l as [|y l IH]; intros x d; [reflexivity|].
  change (last (x :: y :: l) d) with (last (y :: l) d).
  rewrite (IH y d), (IH y x). reflexivity.
Qed.

Lemma final_cons h r h' tr : final h ((r, h') :: tr) = final h' tr.
Proof. unfold final. simpl map. apply last_cons_default. Qed.

(** Transfers made one after the other keep the sum of all balances. *)
Lemma run_transfers t cs : forall h,
  unlocked h -> Forall is_transfer cs -> Forall (call_ok h) cs ->
  exists tr,
    run t cs h = Some tr /\ length tr = length cs
    /\ Forall (fun e => total_balance (snd e) = total_balance h) tr
    /\ total_balance (final h tr) = total_balance h.
Proof.
  induction cs as [|c cs IH]; intros h U T Hok.
  - exists []. repeat split; constructor.
  - apply Forall_cons_1 in T as [Tc T]. apply Forall_cons_1 in Hok as [Hc Hok].
    destruct (exec_perform t h c U Hc) as (r & h' & E & O).
    destruct (outcome_transfer_total _ _ _ _ O Tc) as [Etot Elen].
    destruct (IH h') as (tr & Er & Hl & Htr & Hfin).
    + eapply outcome_unlocked; eassumption.
    + exact T.
    + eapply Forall_impl; [|exact Hok]. intros c'. apply call_ok_length. lia.
    + exists ((r, h') :: tr). simpl. rewrite E, Er.
      split; [reflexivity|]. split; [simpl; congruence|]. split.
      * constructor; [exact Etot|].
        eapply Forall_impl; [|exact Htr]. simpl. intros; congruence.
      * rewrite final_cons. congruence.
Qed.

Ltac solve_unlocked :=
  let l := fresh "l" in let a := fresh "a" in let E := fresh "E" in
  intros l a E;
  repeat (destruct l as [|l]; simpl in E;
          [injection E as <-; reflexivity|]);
  discriminate E.

Lemma reachable_inv h : reachable h -> unlocked h /\ nonneg h.
Proof.
  induction 1 as [|t h c r h' R [U N] Hok E].
  - split; intros l a H; destruct l; discriminate H.
  - destruct (exec_perform t h c U Hok) as (r1 & h1 & E1 & O).
    rewrite E in E1. injection E1 as <- <-.
    split; [eapply outcome_unlocked|eapply outcome_nonneg]; eassumption.
Qed.

Lemma outcome_failed h c r h' : outcome h c r h' -> succeeded r = false -> h' = h.
Proof. intros O. destruct O; simpl; congruence. Qed.

Lemma unlocked_set_balance (h : heap) l a v :
  h !! l = Some a -> unlocked h -> unlocked (<[l := set_balance v a]> h).
Proof. intros H U. apply unlocked_insert; [exact U|]. simpl. eauto. Qed.

Lemma ledger_run t self os : forall h a,
  unlocked h -> h !! self = Some a -> 0 <= BankAccount.balance_cents a ->
  exists tr,
    run t (map (ledger_call self) os) h = Some tr
    /\ length tr = length os
    /\ balance (final h tr) self
       = Some (BankAccount.balance_cents a
               + successful_deposits os (map fst tr)
               - successful_withdrawals os (map fst tr))
    /\ Forall (fun e => exists b, balance (snd e) self = Some b /\ 0 <= b) tr.
Proof.
  induction os as [|o os IH]; intros h a U Ha Hb.
  - exists []. split; [reflexivity|]. split; [reflexivity|]. split.
    + unfold final, balance. simpl. rewrite Ha. simpl. f_equal. lia.
    + constructor.
  - assert (Step : exists r a',
      exec t (perform (ledger_call self o)) h
      = Some (r, <[self := a']> h)
      /\ BankAccount.lock a' = None
      /\ 0 <= BankAccount.balance_cents a'
      /\ BankAccount.balance_cents a'
         = BankAccount.balance_cents a
           + successful_deposits [o] [r] - successful_withdrawals [o] [r]).
    { destruct o as [amount|amount]; simpl.
      - rewrite (exec_deposit t h self a amount Ha (U _ _ Ha)).
        destruct (Z.leb_spec amount 0).
        + exists (Raises (ValueError "Deposit amount must be positive.")), a.
          rewrite list_insert_id by exact Ha. simpl.
          split; [reflexivity|]. split; [eauto|]. lia.
        + eexists (Returns tt), _. split; [reflexivity|]. simpl.
          split; [eauto|]. lia.
      - rewrite (exec_withdraw t h self a amount Ha (U _ _ Ha)).
        destruct (Z.leb_spec amount 0).
        + exists (Raises (ValueError "Withdrawal amount must be positive.")), a.
          rewrite list_insert_id by exact Ha. simpl.
          split; [reflexivity|]. split; [eauto|]. lia.
        + destruct (Z.gtb_spec amount (BankAccount.balance_cents a)).
          * exists (Raises (InsufficientFundsError "Insufficient funds.")), a.
            rewrite list_insert_id by exact Ha. simpl.
            split; [reflexivity|]. split; [eauto|]. lia.
          * eexists (Returns tt), _. split; [reflexivity|]. simpl.
            split; [eauto|]. lia. }
    destruct Step as (r & a' & E & L' & Hb' & Eb).
    assert (Ha' : <[self := a']> h !! self = Some a')
      by (apply list_lookup_insert_eq; eauto using lookup_lt_Some).
    destruct (IH (<[self := a']> h) a') as (tr & Er & Hl & Hfin & Htr);
      [apply unlocked_insert; assumption|exact Ha'|exact Hb'|].
    exists ((r, <[self := a']> h) :: tr).
    simpl. rewrite E, Er. split; [reflexivity|].
    split; [simpl; congruence|]. split.
    + rewrite final_cons, Hfin. f_equal. rewrite Eb.
      destruct o; simpl; lia.
    + constructor; [|exact Htr]. exists (BankAccount.balance_cents a').
      simpl. unfold balance. rewrite Ha'. split; [reflexivity|exact Hb'].
Qed.

(** C6.  For an account that the constructor has just made with balance
    [initial], any finite sequence of [deposit] and [withdraw] calls on it
    runs to its end; the balance is then [initial] plus the amounts of the
    deposits that succeeded minus the amounts of the withdrawals that
    succeeded, and the balance is at least 0 after every call of the
    sequence. *)
Theorem ledger_equation t h number initial self h0 os :
  unlocked h ->
  exec t (BankAccount.__init__ number initial) h = Some (Returns self, h0) ->
  exists tr,
    run t (map (ledger_call self) os) h0 = Some tr
    /\ length tr = length os
    /\ balance (final h0 tr) self
       = Some (initial + successful_deposits os (map fst tr)
               - successful_withdrawals os (map fst tr))
    /\ Forall (fun e => exists b, balance (snd e) self = Some b /\ 0 <= b) tr.
Proof.
  intros U E. destruct (classic_rejected number initial) as [Hr|Hr].
  { destruct (exec_init_rejected t h _ _ Hr) as [msg E'].
    rewrite E' in E. discriminate. }
  rewrite (exec_init_accepted t h _ _ Hr) in E. injection E as <- <-.
  assert (Ha : (h ++ [BankAccount.mk number initial None]) !! length h
               = Some (BankAccount.mk number initial None))
    by apply list_lookup_middle, eq_refl.
  apply (ledger_run t (length h) os _ _) with (2 := Ha).
  - eapply outcome_unlocked; [|exact U].
    apply (outcome_construct h number initial Hr).
  - simpl. unfold rejected in Hr. lia.
Qed.

Lemma ledger_equation_witness :
  exists tr,
    run 0%nat (map (ledger_call 0%nat) [Dep 10000; Wd 4000; Wd 7000; Dep 0]) 
      [BankAccount.mk (str_of_string "TEST-001") 0 None] = Some tr
    /\ balance (final [BankAccount.mk (str_of_string "TEST-001") 0 None] tr)
         0%nat
       = Some (0 + successful_deposits [Dep 10000; Wd 4000; Wd 7000; Dep 0]
                     (map fst tr)
               - successful_withdrawals [Dep 10000; Wd 4000; Wd 7000; Dep 0]
                   (map fst tr)).
Proof.
  destruct (ledger_equation 0%nat [] (str_of_string "TEST-001") 0 0%nat
              [BankAccount.mk (str_of_string "TEST-001") 0 None]
              [Dep 10000; Wd 4000; Wd 7000; Dep 0])
    as (tr & E & _ & B & _).
  - intros l a H. destruct l; discriminate H.
  - reflexivity.
  - exists tr. split; [exact E|exact B].
Defined.

(** ** Concurrent workers never deadlock *)


(** *** The order on account numbers *)

Lemma str_lt_irrefl s : str_lt s s = false.
Proof.
  induction s as [|a s IH]; simpl; [reflexivity|].
  rewrite N.ltb_irrefl. exact IH.
Qed.

Lemma str_lt_trans s : forall t u,
  str_lt s t = true -> str_lt t u = true -> str_lt s u = true.
Proof.
  induction s as [|a s IH]; intros [|b t] [|c u]; simpl; try congruence.
  destruct (N.ltb_spec a b), (N.ltb_spec b a), (N.ltb_spec b c),
    (N.ltb_spec c b), (N.ltb_spec a c), (N.ltb_spec c a);
    try congruence; try lia.
  apply IH.
Qed.

Lemma str_lt_total s : forall t,
  s <> t -> str_lt s t = false -> str_lt t s = true.
Proof.
  induction s as [|a s IH]; intros [|b t]; simpl; try congruence.
  intros Hne. destruct (N.ltb_spec a b), (N.ltb_spec b a);
    try congruence; try lia.
  apply IH. intros ->. apply Hne. f_equal. lia.
Qed.

Lemma before_irrefl num l : before num l l = false.
Proof. unfold before. destruct (num l); [apply str_lt_irrefl|reflexivity]. Qed.

Lemma before_trans num l1 l2 l3 :
  before num l1 l2 = true -> before num l2 l3 = true ->
  before num l1 l3 = true.
Proof.
  unfold before. destruct (num l1), (num l2), (num l3); try congruence.
  apply str_lt_trans.
Qed.

Lemma numbers_Some (h : heap) l a :
  h !! l = Some a -> numbers h l = Some (BankAccount.account_number a).
Proof. intros H. unfold numbers. rewrite H. reflexivity. Qed.

Lemma numbers_valid (h : heap) l : (l < length h)%nat -> is_Some (numbers h l).
Proof.
  intros H. destruct (lookup_valid h l H) as [a Ha].
  rewrite (numbers_Some h l a Ha). eauto.
Qed.

(** *** Every call follows the lock discipline *)

Ltac discipline :=
  repeat first
    [ apply disciplined_ret
    | apply disciplined_raise
    | apply disciplined_release
    | apply disciplined_store_balance; [eauto using numbers_valid|]
    | apply disciplined_load_balance; [eauto using numbers_valid|intros ?]
    | apply disciplined_acquire;
      [eauto using numbers_valid|repeat constructor; eauto|] ].

Lemma get_balance_disciplined h self :
  (self < length h)%nat ->
  disciplined (numbers h) [] call_cost
    (bind (BankAccount.get_balance self) (fun _ => Ret tt)).
Proof. intros Hs. simpl. unfold call_cost. discipline. Qed.

Lemma deposit_disciplined h self amount :
  (self < length h)%nat ->
  disciplined (numbers h) [] call_cost (BankAccount.deposit self amount).
Proof.
  intros Hs. unfold BankAccount.deposit, call_cost.
  destruct (amount <=? 0); simpl; discipline.
Qed.

Lemma withdraw_disciplined h self amount :
  (self < length h)%nat ->
  disciplined (numbers h) [] call_cost (BankAccount.withdraw self amount).
Proof.
  intros Hs. unfold BankAccount.withdraw, call_cost.
  destruct (amount <=? 0); simpl; discipline.
  destruct (amount >? _); simpl; discipline.
Qed.

(** The one place where distinct account numbers are needed: whichever
    account is the source, the lock taken second comes after the lock taken
    first. *)
Lemma transfer_to_disciplined h self other amount :
  unique_numbers h ->
  (self < length h)%nat ->
  match other with Some o => (o < length h)%nat | None => True end ->
  disciplined (numbers h) [] call_cost
    (BankAccount.transfer_to self other amount).
Proof.
  intros Uq Hs Ho. unfold BankAccount.transfer_to, call_cost.
  destruct other as [other|]; [|discipline].
  destruct (decide (other = self)) as [->|Hne]; [discipline|].
  destruct (amount <=? 0); [discipline|].
  destruct (lookup_valid h self Hs) as [a1 H1].
  destruct (lookup_valid h other Ho) as [a2 H2].
  eapply disciplined_load_number; [exact (numbers_Some h self a1 H1)|].
  eapply disciplined_load_number; [exact (numbers_Some h other a2 H2)|].
  destruct (str_lt (BankAccount.account_number a1)
              (BankAccount.account_number a2)) eqn:E; simpl.
  - assert (B : before (numbers h) self other = true).
    { unfold before. rewrite (numbers_Some h self a1 H1),
        (numbers_Some h other a2 H2). exact E. }
    discipline. destruct (amount >? _); simpl; discipline.
  - assert (B : before (numbers h) other self = true).
    { unfold before. rewrite (numbers_Some h self a1 H1),
        (numbers_Some h other a2 H2).
      apply str_lt_total; [|exact E].
      intros Heq. apply Hne. symmetry. exact (Uq _ _ _ _ H1 H2 Heq). }
    discipline. destruct (amount >? _); simpl; discipline.
Qed.

Lemma perform_disciplined h c :
  unique_numbers h -> worker_call_ok h c ->
  disciplined (numbers h) [] call_cost (perform c).
Proof.
  intros Uq [Hok Hw].
  destruct c as [n b|self|self amount|self amount|self other amount];
    simpl in Hok; unfold perform.
  - contradiction.
  - apply get_balance_disciplined, Hok.
  - apply deposit_disciplined, Hok.
  - apply withdraw_disciplined, Hok.
  - destruct Hok. apply transfer_to_disciplined; assumption.
Qed.

(** *** Locks and numbers under updates of the store *)

Lemma lock_of_set_balance (h : heap) l a v l' :
  h !! l = Some a -> lock_of (<[l := set_balance v a]> h) l' = lock_of h l'.
Proof.
  intros H. unfold lock_of. destruct (decide (l = l')) as [<-|Hne].
  - rewrite list_lookup_insert_eq by eauto using lookup_lt_Some.
    rewrite H. reflexivity.
  - rewrite list_lookup_insert_ne by exact Hne. reflexivity.
Qed.

Lemma lock_of_set_lock (h : heap) l a r l' :
  h !! l = Some a ->
  lock_of (<[l := set_lock r a]> h) l'
  = if decide (l = l') then r else lock_of h l'.
Proof.
  intros H. unfold lock_of. destruct (decide (l = l')) as [<-|Hne].
  - rewrite list_lookup_insert_eq by eauto using lookup_lt_Some. reflexivity.
  - rewrite list_lookup_insert_ne by exact Hne. reflexivity.
Qed.

Lemma numbers_insert (h : heap) l a a' l' :
  h !! l = Some a ->
  BankAccount.account_number a' = BankAccount.account_number a ->
  numbers (<[l := a']> h) l' = numbers h l'.
Proof.
  intros H E. unfold numbers. destruct (decide (l = l')) as [<-|Hne].
  - rewrite list_lookup_insert_eq by eauto using lookup_lt_Some.
    rewrite H. simpl. congruence.
  - rewrite list_lookup_insert_ne by exact Hne. reflexivity.
Qed.

Lemma numbers_lookup (h : heap) l x :
  numbers h l = Some x ->
  exists a, h !! l = Some a /\ BankAccount.account_number a = x.
Proof.
  unfold numbers. destruct (h !! l) as [a|]; simpl; [|discriminate].
  intros [= <-]. eauto.
Qed.

Lemma sum_list_insert (l : list nat) i x y :
  l !! i = Some x -> (sum_list (<[i := y]> l) + x = sum_list l + y)%nat.
Proof.
  revert i. induction l as [|z l IH]; intros [|i] H; simpl in *;
    try discriminate.
  - injection H as ->. lia.
  - specialize (IH i H). lia.
Qed.

(** *** The invariant is kept by every step *)

(** Worker [t] moves on to [p], the store becoming [h']: what is to be
    checked for the invariant to hold again. *)
Lemma invariant_update h0 c g t w held n h' p held' n' todo' :
  invariant h0 c g ->
  workers c !! t = Some w -> g !! t = Some (held, n) ->
  (forall l, numbers h' l = numbers (store c) l) ->
  (forall l u k, lock_of h' l = Some (u, k) ->
     lock_of (store c) l = Some (u, k) \/ (u = t /\ k = 1%nat)) ->
  (forall t' l, t' <> t ->
     lock_of h' l = Some (t', 1%nat)
     <-> lock_of (store c) l = Some (t', 1%nat)) ->
  disciplined (numbers h0) held' n' p -> NoDup held' ->
  (forall l, l ∈ held' <-> lock_of h' l = Some (t, 1%nat)) ->
  Forall (worker_call_ok h0) todo' ->
  invariant h0 (mk_config h' (<[t := mk_worker p todo']> (workers c)))
    (<[t := (held', n')]> g).
Proof.
  intros [IL IN IK IW] Hw Hg Hnum Hlk Hoth D ND Hheld Htodo.
  constructor; simpl.
  - rewrite !length_insert. exact IL.
  - intros l. rewrite Hnum. apply IN.
  - intros l u k Hl. rewrite length_insert.
    destruct (Hlk l u k Hl) as [Hold|[-> ->]]; [exact (IK l u k Hold)|].
    split; [reflexivity|]. eauto using lookup_lt_Some.
  - intros t' w' held1 n1 Hw' Hg'.
    destruct (decide (t' = t)) as [->|Hne].
    + rewrite list_lookup_insert_eq in Hw' by eauto using lookup_lt_Some.
      rewrite list_lookup_insert_eq in Hg' by eauto using lookup_lt_Some.
      injection Hw' as <-. injection Hg' as <- <-. simpl. auto.
    + rewrite list_lookup_insert_ne in Hw' by congruence.
      rewrite list_lookup_insert_ne in Hg' by congruence.
      destruct (IW t' w' held1 n1 Hw' Hg') as (D' & ND' & Hh' & Ht').
      repeat split; try assumption.
      * intros Hin. apply Hoth; [exact Hne|]. apply Hh'. exact Hin.
      * intros Hin. apply Hh'. apply Hoth in Hin; [exact Hin|exact Hne].
Qed.

Lemma measure_update c g t w held n h' p held' n' todo' :
  workers c !! t = Some w -> g !! t = Some (held, n) ->
  (measure (mk_config h' (<[t := mk_worker p todo']> (workers c)))
     (<[t := (held', n')]> g)
   + n + S call_cost * length (todo w)
   = measure c g + n' + S call_cost * length todo')%nat.
Proof.
  intros Hw Hg. unfold measure. simpl workers.
  rewrite !list_fmap_insert. simpl.
  pose proof (sum_list_insert (snd <$> g) t n n') as E1.
  rewrite list_lookup_fmap, Hg in E1. specialize (E1 eq_refl).
  pose proof (sum_list_insert ((fun w => length (todo w)) <$> workers c) t
                (length (todo w)) (length todo')) as E2.
  rewrite list_lookup_fmap, Hw in E2. specialize (E2 eq_refl).
  nia.
Qed.

Lemma step_invariant h0 c g t c' :
  unique_numbers h0 -> invariant h0 c g -> step t c = Some c' ->
  exists g', invariant h0 c' g' /\ (measure c' g' < measure c g)%nat.
Proof.
  intros Uq I S. pose proof I as [IL IN IK IW].
  unfold step in S. destruct (workers c !! t) as [w|] eqn:Hw; [|discriminate].
  simpl in S.
  assert (Hg : is_Some (g !! t)).
  { apply lookup_lt_is_Some. rewrite IL. eauto using lookup_lt_Some. }
  destruct Hg as [[held n] Hg].
  destruct (IW t w held n Hw Hg) as (D & ND & Hheld & Htodo).
  destruct (returned (current w)) eqn:R.
  - (* the call in progress is over: start the next one *)
    destruct (todo w) as [|next rest] eqn:T; [discriminate|].
    injection S as <-.
    assert (held = []) as ->.
    { destruct (current w); simpl in R; try discriminate;
        inversion D; reflexivity. }
    apply Forall_cons_1 in Htodo as [Hnext Hrest].
    exists (<[t := ([], call_cost)]> g). split.
    + apply (invariant_update h0 c g t w [] n _ _ _ _ _ I Hw Hg);
        [reflexivity|tauto|tauto| |exact ND|exact Hheld|exact Hrest].
      apply perform_disciplined; assumption.
    + pose proof (measure_update c g t w [] n (store c) (perform next) []
                    call_cost rest Hw Hg) as M.
      rewrite T in M. simpl length in M. lia.
  - destruct (act t (current w) (store c)) as [[p h']|] eqn:A;
      [|discriminate].
    simpl in S. injection S as <-.
    destruct (current w) as [a|e|nb b k|l k|l k|l v k|l k|l k] eqn:C;
      simpl in R; try discriminate;
      inversion D as [|
                     |held0 n0 l0 k0 x Hl D'
                     |held0 n0 l0 k0 Hl D'
                     |held0 n0 l0 v0 k0 Hl D'
                     |held0 n0 l0 k0 Hl Hord D'
                     |held0 n0 l0 k0 D'];
      subst; simpl in A.
    + (* LoadNumber *)
      destruct (store c !! l) as [a|] eqn:Ha; [|discriminate].
      simpl in A. injection A as <- <-.
      pose proof (numbers_Some _ _ _ Ha) as Hn. rewrite IN, Hl in Hn.
      injection Hn as ->.
      exists (<[t := (held, n0)]> g). split.
      * apply (invariant_update h0 c g t w held (S n0) _ _ _ _ _ I Hw Hg);
          [reflexivity|tauto|tauto|exact D'|exact ND|exact Hheld|exact Htodo].
      * pose proof (measure_update c g t w held (S n0) (store c)
                      (k (BankAccount.account_number a)) held n0 (todo w)
                      Hw Hg). lia.
    + (* LoadBalance *)
      destruct (store c !! l) as [a|] eqn:Ha; [|discriminate].
      simpl in A. injection A as <- <-.
      exists (<[t := (held, n0)]> g). split.
      * apply (invariant_update h0 c g t w held (S n0) _ _ _ _ _ I Hw Hg);
          [reflexivity|tauto|tauto|apply D'|exact ND|exact Hheld|exact Htodo].
      * pose proof (measure_update c g t w held (S n0) (store c)
                      (k (BankAccount.balance_cents a)) held n0 (todo w)
                      Hw Hg). lia.
    + (* StoreBalance *)
      destruct (store c !! l) as [a|] eqn:Ha; [|discriminate].
      simpl in A. injection A as <- <-.
      exists (<[t := (held, n0)]> g). split.
      * apply (invariant_update h0 c g t w held (S n0) _ _ _ _ _ I Hw Hg);
          [| | |exact D'|exact ND| |exact Htodo].
        -- intros l'. apply (numbers_insert _ _ a); [exact Ha|reflexivity].
        -- intros l' u k'. rewrite (lock_of_set_balance _ _ _ _ _ Ha). tauto.
        -- intros t' l' _. rewrite (lock_of_set_balance _ _ _ _ _ Ha). tauto.
        -- intros l'. rewrite (lock_of_set_balance _ _ _ _ _ Ha).
           apply Hheld.
      * pose proof (measure_update c g t w held (S n0)
                      (<[l := set_balance v a]> (store c)) k held n0 (todo w)
                      Hw Hg). lia.
    + (* Acquire *)
      destruct (store c !! l) as [a|] eqn:Ha; [|discriminate].
      simpl in A.
      assert (Hnotin : l ∉ held).
      { intros Hin. rewrite Forall_forall in Hord.
        apply list_elem_of_In in Hin. specialize (Hord l Hin).
        rewrite before_irrefl in Hord. discriminate. }
      assert (Hfree : BankAccount.lock a = None).
      { destruct (BankAccount.lock a) as [[u m]|] eqn:L; [|reflexivity].
        exfalso. simpl in A. destruct (decide (u = t)) as [->|]; [|discriminate].
        assert (Hl' : lock_of (store c) l = Some (t, m))
          by (unfold lock_of; rewrite Ha; exact L).
        destruct (IK _ _ _ Hl') as [-> _].
        apply Hheld in Hl'. contradiction. }
      rewrite Hfree in A. simpl in A. injection A as <- <-.
      assert (Hl0 : lock_of (store c) l = None)
        by (unfold lock_of; rewrite Ha; exact Hfree).
      exists (<[t := (l :: held, n0)]> g). split.
      * apply (invariant_update h0 c g t w held (S n0) _ _ _ _ _ I Hw Hg);
          [| | |exact D'| | |exact Htodo].
        -- intros l'. apply (numbers_insert _ _ a); [exact Ha|reflexivity].
        -- intros l' u k'. rewrite (lock_of_set_lock _ _ _ _ _ Ha).
           case_decide; [intros [= <- <-]; tauto|tauto].
        -- intros t' l' Hne. rewrite (lock_of_set_lock _ _ _ _ _ Ha).
           case_decide; [subst l'; rewrite Hl0|tauto].
           split; [intros [= ->]; congruence|discriminate].
        -- constructor; assumption.
        -- intros l'. rewrite (lock_of_set_lock _ _ _ _ _ Ha).
           rewrite elem_of_cons. case_decide.
           ++ subst l'. tauto.
           ++ rewrite Hheld. split; [intros [?|?]; congruence|tauto].
      * pose proof (measure_update c g t w held (S n0)
                      (<[l := set_lock (Some (t, 1%nat)) a]> (store c)) k
                      (l :: held) n0 (todo w) Hw Hg). lia.
    + (* Release *)
      assert (Hl' : lock_of (store c) l = Some (t, 1%nat))
        by (apply Hheld; left).
      pose proof Hl' as Hl''. unfold lock_of in Hl'.
      destruct (store c !! l) as [a|] eqn:Ha; [|discriminate].
      simpl in Hl', A. rewrite Hl' in A. simpl in A.
      rewrite decide_True in A by reflexivity. simpl in A.
      injection A as <- <-.
      inversion ND as [|? ? Hnotin ND']; subst.
      exists (<[t := (held0, n0)]> g). split.
      * apply (invariant_update h0 c g t w (l :: held0) (S n0) _ _ _ _ _
                 I Hw Hg);
          [| | |exact D'|exact ND'| |exact Htodo].
        -- intros l'. apply (numbers_insert _ _ a); [exact Ha|reflexivity].
        -- intros l' u k'. rewrite (lock_of_set_lock _ _ _ _ _ Ha).
           case_decide; [discriminate|tauto].
        -- intros t' l' Hne. rewrite (lock_of_set_lock _ _ _ _ _ Ha).
           case_decide; [subst l'|tauto]. rewrite Hl''.
           split; [discriminate|intros [= ->]; congruence].
        -- intros l'. rewrite (lock_of_set_lock _ _ _ _ _ Ha).
           case_decide.
           ++ subst l'. split; [contradiction|discriminate].
           ++ rewrite <- Hheld, elem_of_cons.
              split; [tauto|intros [?|?]; [congruence|assumption]].
      * pose proof (measure_update c g t w (l :: held0) (S n0)
                      (<[l := set_lock None a]> (store c)) k
                      held0 n0 (todo w) Hw Hg). lia.
Qed.

(** *** No circular wait *)

(** A finite set ordered by a strict order has a greatest element. *)
Lemma exists_maximal {A : Type} (R : A -> A -> bool) (L : list A) :
  (forall x, R x x = false) ->
  (forall x y z, R x y = true -> R y z = true -> R x z = true) ->
  L <> [] ->
  exists m, m ∈ L /\ forall y, y ∈ L -> R m y = false.
Proof.
  intros Irr Tr. induction L as [|x L IH]; [congruence|]. intros _.
  destruct L as [|x' L'].
  - exists x. split; [left|]. intros y Hy.
    apply list_elem_of_singleton in Hy as ->. apply Irr.
  - destruct IH as (m & Hm & Hmax); [congruence|].
    destruct (R m x) eqn:E.
    + exists x. split; [left|]. intros y Hy.
      apply elem_of_cons in Hy as [->|Hy]; [apply Irr|].
      destruct (R x y) eqn:E'; [|reflexivity].
      rewrite <- (Hmax y Hy). symmetry. eapply Tr; eassumption.
    + exists m. split; [right; exact Hm|]. intros y Hy.
      apply elem_of_cons in Hy as [->|Hy]; [exact E|exact (Hmax y Hy)].
Qed.

Lemma no_endless_ascent {A : Type} (R : A -> A -> bool) (L : list A) :
  (forall x, R x x = false) ->
  (forall x y z, R x y = true -> R y z = true -> R x z = true) ->
  (forall x, x ∈ L -> exists y, y ∈ L /\ R x y = true) ->
  L = [].
Proof.
  intros Irr Tr Up. destruct L as [|x L]; [reflexivity|].
  destruct (exists_maximal R (x :: L) Irr Tr) as (m & Hm & Hmax);
    [congruence|].
  destruct (Up m Hm) as (y & Hy & E). rewrite (Hmax y Hy) in E. discriminate.
Qed.

(** A worker that cannot move has finished, or waits for a lock that
    another worker holds. *)
Lemma stuck_worker h0 c g t w :
  invariant h0 c g -> workers c !! t = Some w -> step t c = None ->
  finished w = true
  \/ exists l k u,
       current w = Acquire l k /\ u <> t
       /\ lock_of (store c) l = Some (u, 1%nat).
Proof.
  intros [IL IN IK IW] Hw S.
  assert (Hg : is_Some (g !! t)).
  { apply lookup_lt_is_Some. rewrite IL. eauto using lookup_lt_Some. }
  destruct Hg as [[held n] Hg].
  destruct (IW t w held n Hw Hg) as (D & ND & Hheld & Htodo).
  unfold step in S. rewrite Hw in S. simpl in S. unfold finished.
  destruct (returned (current w)) eqn:R.
  { destruct (todo w); [left; reflexivity|discriminate]. }
  right.
  assert (Valid : forall l, is_Some (numbers h0 l) ->
                            exists a, store c !! l = Some a).
  { intros l [x Hx]. rewrite <- IN in Hx.
    destruct (numbers_lookup _ _ _ Hx) as (a & Ha & _). eauto. }
  destruct (current w) as [a|e|nb b k|l k|l k|l v k|l k|l k] eqn:C;
    simpl in R; try discriminate;
    inversion D as [|
                   |held0 n0 l0 k0 x Hl D'
                   |held0 n0 l0 k0 Hl D'
                   |held0 n0 l0 v0 k0 Hl D'
                   |held0 n0 l0 k0 Hl Hord D'
                   |held0 n0 l0 k0 D'];
    subst; simpl in S.
  - exfalso. destruct (Valid l) as [a Ha]; [eauto|].
    rewrite Ha in S. discriminate.
  - exfalso. destruct (Valid l Hl) as [a Ha]. rewrite Ha in S. discriminate.
  - exfalso. destruct (Valid l Hl) as [a Ha]. rewrite Ha in S. discriminate.
  - destruct (Valid l Hl) as [a Ha]. rewrite Ha in S. simpl in S.
    destruct (BankAccount.lock a) as [[u m]|] eqn:L; simpl in S;
      [|discriminate].
    assert (Hl' : lock_of (store c) l = Some (u, m))
      by (unfold lock_of; rewrite Ha; exact L).
    destruct (IK _ _ _ Hl') as [-> _].
    destruct (decide (u = t)) as [->|Hne]; [discriminate|].
    exists l, k, u. auto.
  - exfalso. assert (Hl' : lock_of (store c) l = Some (t, 1%nat))
      by (apply Hheld; left).
    unfold lock_of in Hl'.
    destruct (store c !! l) as [a|] eqn:Ha; [|discriminate].
    simpl in Hl', S. rewrite Hl' in S. simpl in S.
    rewrite decide_True in S by reflexivity. discriminate.
Qed.

Lemma worker_ghost h0 c g t w :
  invariant h0 c g -> workers c !! t = Some w ->
  exists held n,
    g !! t = Some (held, n)
    /\ disciplined (numbers h0) held n (current w)
    /\ (forall l, l ∈ held <-> lock_of (store c) l = Some (t, 1%nat)).
Proof.
  intros [IL IN IK IW] Hw.
  assert (Hg : is_Some (g !! t)).
  { apply lookup_lt_is_Some. rewrite IL. eauto using lookup_lt_Some. }
  destruct Hg as [[held n] Hg].
  destruct (IW t w held n Hw Hg) as (D & ND & Hheld & Htodo).
  exists held, n. auto.
Qed.

(** The holder of a lock that cannot move either waits for a lock that
    comes later in the order. *)
Lemma holder_waits h0 c g l u :
  invariant h0 c g -> (forall t, step t c = None) ->
  lock_of (store c) l = Some (u, 1%nat) ->
  exists w l' k,
    workers c !! u = Some w /\ current w = Acquire l' k
    /\ before (numbers h0) l l' = true.
Proof.
  intros I Stuck Hl.
  destruct (inv_locks _ _ _ I _ _ _ Hl) as [_ Hu].
  destruct (lookup_lt_is_Some_2 _ _ Hu) as [w Hw].
  destruct (worker_ghost _ _ _ _ _ I Hw) as (held & n & Hg & D & Hheld).
  apply Hheld in Hl.
  destruct (stuck_worker _ _ _ _ _ I Hw (Stuck u)) as [F|(l' & k & _ & C & _)].
  - exfalso. unfold finished in F. apply andb_true_iff in F as [R _].
    destruct (current w); simpl in R; try discriminate;
      inversion D; subst; inversion Hl.
  - exists w, l', k. split; [exact Hw|]. split; [exact C|].
    rewrite C in D. inversion D as [| | | | |? ? ? ? ? Hord ?|]; subst.
    rewrite Forall_forall in Hord. apply Hord, list_elem_of_In, Hl.
Qed.

(** If no worker can move, every worker has finished. *)
Lemma stuck_finished h0 c g :
  invariant h0 c g -> (forall t, step t c = None) ->
  forall w, w ∈ workers c -> finished w = true.
Proof.
  intros I Stuck.
  assert (E : omap wanted (workers c) = []).
  { apply (no_endless_ascent (before (numbers h0)));
      [apply before_irrefl|apply before_trans|].
    intros l Hl. apply list_elem_of_omap in Hl as (w & Hw & Hwant).
    apply list_elem_of_lookup in Hw as [t Hw].
    destruct (stuck_worker _ _ _ _ _ I Hw (Stuck t))
      as [F|(l1 & k & u & C & Hne & Hlock)].
    - exfalso. unfold finished in F. apply andb_true_iff in F as [R _].
      unfold wanted in Hwant. destruct (current w); simpl in R; discriminate.
    - unfold wanted in Hwant. rewrite C in Hwant. injection Hwant as ->.
      destruct (holder_waits _ _ _ _ _ I Stuck Hlock)
        as (w' & l' & k' & Hw' & C' & B).
      exists l'. split; [|exact B].
      apply list_elem_of_omap. exists w'. split.
      + apply list_elem_of_lookup. eauto.
      + unfold wanted. rewrite C'. reflexivity. }
  intros w Hw. apply list_elem_of_lookup in Hw as [t Hw].
  destruct (stuck_worker _ _ _ _ _ I Hw (Stuck t))
    as [F|(l1 & k & u & C & _)]; [exact F|].
  exfalso. assert (Hin : l1 ∈ omap wanted (workers c)).
  { apply list_elem_of_omap. exists w. split.
    - apply list_elem_of_lookup. eauto.
    - unfold wanted. rewrite C. reflexivity. }
  rewrite E in Hin. inversion Hin.
Qed.

(** *** From the start *)

Lemma spawn_invariant h jobs :
  unlocked h -> Forall (Forall (worker_call_ok h)) jobs ->
  invariant h (spawn h jobs) (idle jobs).
Proof.
  intros U Hjobs.
  assert (Free : forall l, lock_of h l = None).
  { intros l. unfold lock_of. destruct (h !! l) as [a|] eqn:Ha;
      [exact (U _ _ Ha)|reflexivity]. }
  constructor; unfold idle; simpl.
  - rewrite !length_map. reflexivity.
  - reflexivity.
  - intros l u n. rewrite Free. discriminate.
  - intros t w held n Hw Hg.
    rewrite list_lookup_fmap in Hw. rewrite list_lookup_fmap in Hg.
    destruct (jobs !! t) as [cs|] eqn:Hcs; [|discriminate].
    simpl in Hw, Hg. injection Hw as <-. injection Hg as <- <-. simpl.
    split; [constructor|]. split; [constructor|]. split.
    + intros l. rewrite Free. split; [inversion 1|discriminate].
    + rewrite Forall_forall in Hjobs. apply Hjobs.
      apply list_elem_of_In, list_elem_of_lookup. eauto.
Qed.

Lemma spawn_measure h jobs :
  measure (spawn h jobs) (idle jobs)
  = (S call_cost * sum_list (length <$> jobs))%nat.
Proof.
  unfold measure, spawn, idle. simpl workers.
  assert (E1 : sum_list ((map (fun _ => ([] : list loc, 0%nat)) jobs).*2)
               = 0%nat).
  { induction jobs as [|j jobs IH]; [reflexivity|exact IH]. }
  assert (E2 : (fun w => length (todo w)) <$> map (mk_worker (Ret tt)) jobs
               = length <$> jobs).
  { clear E1. induction jobs as [|j jobs IH]; [reflexivity|].
    simpl. f_equal. exact IH. }
  rewrite E1, E2. reflexivity.
Qed.

Lemma schedule_invariant h0 s : forall c g c',
  unique_numbers h0 -> invariant h0 c g -> schedule s c = Some c' ->
  exists g',
    invariant h0 c' g' /\ (length s + measure c' g' <= measure c g)%nat.
Proof.
  induction s as [|t s IH]; intros c g c' Uq I S; simpl in S.
  - injection S as <-. exists g. split; [exact I|simpl; lia].
  - destruct (step t c) as [c1|] eqn:E; [|discriminate]. simpl in S.
    destruct (step_invariant _ _ _ _ _ Uq I E) as (g1 & I1 & M1).
    destruct (IH c1 g1 c' Uq I1 S) as (g' & I' & M').
    exists g'. split; [exact I'|simpl; lia].
Qed.

(** Either some worker below [n] can move or none can. *)
Lemma runnable_or_stuck c n :
  (exists t c', step t c = Some c')
  \/ (forall t, (t < n)%nat -> step t c = None).
Proof.
  induction n as [|n [Run|Stuck]].
  - right. intros t Ht. lia.
  - left. exact Run.
  - destruct (step n c) as [c'|] eqn:E; [left; eauto|].
    right. intros t Ht. destruct (decide (t = n)) as [->|]; [exact E|].
    apply Stuck. lia.
Qed.

Lemma step_beyond c t : (length (workers c) <= t)%nat -> step t c = None.
Proof.
  intros H. unfold step. rewrite lookup_ge_None_2 by exact H. reflexivity.
Qed.

(** From every configuration that satisfies the invariant the workers can
    run until all of them have finished. *)
Lemma completes h0 m : forall c g,
  unique_numbers h0 -> invariant h0 c g -> (measure c g <= m)%nat ->
  exists s c',
    schedule s c = Some c'
    /\ forall w, w ∈ workers c' -> finished w = true.
Proof.
  induction m as [|m IH]; intros c g Uq I M;
    destruct (runnable_or_stuck c (length (workers c)))
      as [(t & c1 & E)|Stuck].
  - destruct (step_invariant _ _ _ _ _ Uq I E) as (g1 & _ & M1). lia.
  - exists [], c. split; [reflexivity|].
    apply (stuck_finished h0 c g I). intros t.
    destruct (Nat.lt_ge_cases t (length (workers c)));
      [apply Stuck; assumption|apply step_beyond; assumption].
  - destruct (step_invariant _ _ _ _ _ Uq I E) as (g1 & I1 & M1).
    destruct (IH c1 g1 Uq I1) as (s & c' & S & F); [lia|].
    exists (t :: s), c'. split; [|exact F]. simpl. rewrite E. exact S.
  - exists [], c. split; [reflexivity|].
    apply (stuck_finished h0 c g I). intros t.
    destruct (Nat.lt_ge_cases t (length (workers c)));
      [apply Stuck; assumption|apply step_beyond; assumption].
Qed.

(** *** The order in which a transfer takes its two locks *)

Lemma acquisitions_transfer_to t h self other a1 a2 amount :
  h !! self = Some a1 -> h !! other = Some a2 -> self <> other ->
  BankAccount.lock a1 = None -> BankAccount.lock a2 = None -> 0 < amount ->
  acquisitions t (BankAccount.transfer_to self (Some other) amount) h
  = if str_lt (BankAccount.account_number a1) (BankAccount.account_number a2)
    then [self; other] else [other; self].
Proof.
  intros H1 H2 Hne L1 L2 Hamt. unfold BankAccount.transfer_to, with_lock.
  rewrite decide_False by congruence.
  destruct (Z.leb_spec amount 0); [lia|]. heap_run.
  destruct (str_lt _ _); heap_run;
    (destruct (amount >? _); heap_run; reflexivity).
Qed.

Lemma workers_never_stuck h jobs s c :
  unlocked h -> unique_numbers h ->
  Forall (Forall (worker_call_ok h)) jobs ->
  schedule s (spawn h jobs) = Some c ->
  ~ deadlocked c
  /\ (length s <= S call_cost * sum_list (length <$> jobs))%nat
  /\ exists s' c',
       schedule s' c = Some c'
       /\ forall w, w ∈ workers c' -> finished w = true.
Proof.
  intros U Uq Hjobs S.
  destruct (schedule_invariant h s _ _ _ Uq (spawn_invariant h jobs U Hjobs) S)
    as (g & I & M).
  rewrite spawn_measure in M. split; [|split].
  - intros [Stuck (w & Hw & F)].
    rewrite (stuck_finished h c g I Stuck w Hw) in F. discriminate.
  - lia.
  - apply (completes h (measure c g) c g Uq I). lia.
Qed.

(** C2, with the precondition the lock order needs.  In a store whose
    account numbers are pairwise distinct, one of two distinct accounts has
    the smaller number, and a transfer between them acquires the lock of
    that account first and the lock of the other second, whichever of the
    two is the source.  Consequently workers that make any deposits,
    withdrawals and transfers concurrently never deadlock: whatever steps
    they have taken, they are not stuck, they have taken at most 12 steps
    per call, and they can go on until every call has completed. *)
Theorem lock_order_deadlock_free h jobs :
  unlocked h -> unique_numbers h ->
  Forall (Forall (worker_call_ok h)) jobs ->
  (forall x y a b,
     h !! x = Some a -> h !! y = Some b -> x <> y ->
     str_lt (BankAccount.account_number a) (BankAccount.account_number b)
     = true
     \/ str_lt (BankAccount.account_number b) (BankAccount.account_number a)
        = true)
  /\ (forall t x y a b amount,
        h !! x = Some a -> h !! y = Some b ->
        str_lt (BankAccount.account_number a) (BankAccount.account_number b)
        = true ->
        0 < amount ->
        acquisitions t (BankAccount.transfer_to x (Some y) amount) h = [x; y]
        /\ acquisitions t (BankAccount.transfer_to y (Some x) amount) h
           = [x; y])
  /\ (forall s c,
        schedule s (spawn h jobs) = Some c ->
        ~ deadlocked c
        /\ (length s <= S call_cost * sum_list (length <$> jobs))%nat
        /\ exists s' c',
             schedule s' c = Some c'
             /\ forall w, w ∈ workers c' -> finished w = true).
Proof.
  intros U Uq Hjobs. split; [|split].
  - intros x y a b Hx Hy Hne.
    destruct (str_lt (BankAccount.account_number a)
                (BankAccount.account_number b)) eqn:E; [left; reflexivity|].
    right. apply str_lt_total; [|exact E].
    intros Heq. apply Hne. exact (Uq _ _ _ _ Hx Hy Heq).
  - intros t x y a b amount Hx Hy Hlt Hamt.
    assert (Hne : x <> y).
    { intros ->. rewrite Hx in Hy. injection Hy as ->.
      rewrite str_lt_irrefl in Hlt. discriminate. }
    assert (Hgt : str_lt (BankAccount.account_number b)
                    (BankAccount.account_number a) = false).
    { destruct (str_lt (BankAccount.account_number b)
                  (BankAccount.account_number a)) eqn:E; [|reflexivity].
      pose proof (str_lt_trans _ _ _ Hlt E) as C.
      rewrite str_lt_irrefl in C. discriminate. }
    rewrite (acquisitions_transfer_to t h x y a b amount Hx Hy Hne
               (U _ _ Hx) (U _ _ Hy) Hamt), Hlt.
    rewrite (acquisitions_transfer_to t h y x b a amount Hy Hx
               ltac:(congruence) (U _ _ Hy) (U _ _ Hx) Hamt), Hgt.
    split; reflexivity.
  - intros s c. apply workers_never_stuck; assumption.
Qed.

Lemma lock_order_deadlock_free_witness :
  (acquisitions 0%nat (BankAccount.transfer_to 0%nat (Some 1%nat) 10)
     two_accounts = [0%nat; 1%nat]
   /\ acquisitions 1%nat (BankAccount.transfer_to 1%nat (Some 0%nat) 10)
        two_accounts = [0%nat; 1%nat])
  /\ exists c,
       schedule [0; 1; 0; 0; 1; 1; 0; 0]%nat
         (spawn two_accounts crossing_transfers) = Some c
       /\ ~ deadlocked c.
Proof.
  assert (U : unlocked two_accounts) by solve_unlocked.
  assert (Uq : unique_numbers two_accounts).
  { intros l l' a a' H H' E.
    destruct l as [|[|l]], l' as [|[|l']]; simpl in H, H';
      try discriminate; try reflexivity;
      injection H as <-; injection H' as <-; discriminate E. }
  assert (J : Forall (Forall (worker_call_ok two_accounts))
                crossing_transfers).
  { repeat constructor; simpl; lia. }
  destruct (lock_order_deadlock_free two_accounts crossing_transfers U Uq J)
    as (_ & Order & Free).
  split.
  - split.
    + apply (Order 0%nat 0%nat 1%nat acc_a acc_b 10);
        [reflexivity|reflexivity|reflexivity|lia].
    + apply (Order 1%nat 0%nat 1%nat acc_a acc_b 10);
        [reflexivity|reflexivity|reflexivity|lia].
  - destruct (schedule [0; 1; 0; 0; 1; 1; 0; 0]%nat
                (spawn two_accounts crossing_transfers)) as [c|] eqn:E;
      [|vm_compute in E; discriminate E].
    exists c. split; [reflexivity|]. apply (Free _ c E).
Defined.

(** C2 as it is stated, for any two accounts, fails on two distinct
    accounts that were given the same number: the transfer from the first
    to the second takes the second's lock first, the transfer back takes
    the first's lock first, and two workers making these two transfers
    reach a configuration where each holds one lock and waits for the
    other. *)
Lemma equal_numbers_deadlock :
  unlocked twins
  /\ Forall (Forall (worker_call_ok twins)) crossing_transfers
  /\ acquisitions 0%nat (BankAccount.transfer_to 0%nat (Some 1%nat) 10) twins
     = [1%nat; 0%nat]
  /\ acquisitions 1%nat (BankAccount.transfer_to 1%nat (Some 0%nat) 10) twins
     = [0%nat; 1%nat]
  /\ exists c,
       schedule [0; 1; 0; 0; 1; 1; 0; 1]%nat (spawn twins crossing_transfers)
       = Some c
       /\ deadlocked c.
Proof.
  split; [solve_unlocked|]. split; [repeat constructor; simpl; lia|].
  split; [reflexivity|]. split; [reflexivity|].
  eexists. split; [reflexivity|]. split.
  - intros [|[|t]]; reflexivity.
  - eexists. split; [left|]. reflexivity.
Qed.

(** ** Balances under concurrency *)

Section Safety.

(** [P] is a property of balances that deposits and covered withdrawals
    keep: "at least 0", or no condition at all. *)
Variable P : Z -> Prop.
Variable strict : bool.
Hypothesis P_deposit : forall b amount, P b -> 0 < amount -> P (b + amount).
Hypothesis P_withdraw :
  forall b amount, P b -> 0 < amount -> amount <= b -> P (b - amount).

Lemma learn_eq l v f : learn l v f l = Some v.
Proof. unfold learn. rewrite decide_True by reflexivity. reflexivity. Qed.

Lemma learn_ne l v f l' : l' <> l -> learn l v f l' = f l'.
Proof. intros H. unfold learn. rewrite decide_False by exact H. reflexivity. Qed.

Ltac known H b :=
  specialize (H b); rewrite ?learn_eq in H; specialize (H eq_refl); subst.

Lemma get_balance_tracked self owed :
  (strict = true -> owed = 0) ->
  tracked P strict [] no_view owed
    (bind (BankAccount.get_balance self) (fun _ => Ret tt)).
Proof.
  intros Ho. simpl.
  apply tracked_acquire; [inversion 1|].
  apply tracked_load_balance; [left|]. intros v Pv _.
  apply tracked_release, tracked_ret, Ho.
Qed.

Lemma deposit_tracked self amount :
  tracked P false [] no_view 0 (BankAccount.deposit self amount).
Proof.
  unfold BankAccount.deposit.
  destruct (Z.leb_spec amount 0); [apply tracked_raise; discriminate|].
  simpl. apply tracked_acquire; [inversion 1|].
  apply tracked_load_balance; [left|]. intros v Pv _.
  apply (tracked_store_balance _ _ _ _ _ _ _ v);
    [left|apply learn_eq|apply P_deposit; assumption|].
  apply tracked_release, tracked_ret. discriminate.
Qed.

Lemma withdraw_tracked self amount :
  tracked P false [] no_view 0 (BankAccount.withdraw self amount).
Proof.
  unfold BankAccount.withdraw.
  destruct (Z.leb_spec amount 0); [apply tracked_raise; discriminate|].
  simpl. apply tracked_acquire; [inversion 1|].
  apply tracked_load_balance; [left|]. intros b Pb _.
  destruct (Z.gtb_spec amount b); simpl.
  { apply tracked_release, tracked_raise. discriminate. }
  apply tracked_load_balance; [left|]. intros v Pv Hv. known Hv b.
  apply (tracked_store_balance _ _ _ _ _ _ _ b);
    [left|apply learn_eq|apply P_withdraw; assumption|].
  apply tracked_release, tracked_ret. discriminate.
Qed.

(** The body of a transfer once both locks are held, in either order. *)
Lemma transfer_body_tracked held self other amount first second :
  self ∈ held -> other ∈ held -> self <> other -> 0 < amount ->
  held = [second; first] ->
  tracked P strict held no_view 0
    (finally
       (finally
          (LoadBalance self (fun b =>
             if amount >? b
             then Raise (InsufficientFundsError
                           "Insufficient funds for transfer.")
             else
               BankAccount.__withdraw_unlocked self amount ;;
               BankAccount.__deposit_unlocked other amount))
          second)
       first).
Proof.
  intros Hs Ho Hne Hamt ->. simpl.
  apply tracked_load_balance; [exact Hs|]. intros b Pb _.
  destruct (Z.gtb_spec amount b); simpl.
  { apply tracked_release, tracked_release, tracked_raise. reflexivity. }
  apply tracked_load_balance; [exact Hs|]. intros v Pv Hv. known Hv b.
  apply (tracked_store_balance _ _ _ _ _ _ _ b);
    [exact Hs|apply learn_eq|apply P_withdraw; assumption|].
  apply tracked_load_balance; [exact Ho|]. intros v' Pv' _.
  apply (tracked_store_balance _ _ _ _ _ _ _ v');
    [exact Ho|apply learn_eq|apply P_deposit; assumption|].
  apply tracked_release, tracked_release, tracked_ret. intros _. lia.
Qed.

Lemma transfer_to_tracked self other amount :
  tracked P strict [] no_view 0 (BankAccount.transfer_to self other amount).
Proof.
  unfold BankAccount.transfer_to.
  destruct other as [other|]; [|apply tracked_raise; reflexivity].
  destruct (decide (other = self)) as [->|Hne];
    [apply tracked_raise; reflexivity|].
  destruct (Z.leb_spec amount 0); [apply tracked_raise; reflexivity|].
  apply tracked_load_number. intros x1.
  apply tracked_load_number. intros x2.
  destruct (str_lt x1 x2); unfold with_lock.
  - apply tracked_acquire; [inversion 1|].
    apply tracked_acquire; [intros Hin; apply list_elem_of_singleton in Hin;
                            contradiction|].
    apply (transfer_body_tracked [other; self] self other amount self other);
      [right; left|left|congruence|assumption|reflexivity].
  - apply tracked_acquire; [inversion 1|].
    apply tracked_acquire; [intros Hin; apply list_elem_of_singleton in Hin;
                            congruence|].
    apply (transfer_body_tracked [self; other] self other amount other self);
      [left|right; left|congruence|assumption|reflexivity].
Qed.

End Safety.

(** *** The ledger is kept by every step *)

Lemma balance_set_lock (h : heap) l a r l' :
  h !! l = Some a -> balance (<[l := set_lock r a]> h) l' = balance h l'.
Proof.
  intros H. unfold balance. destruct (decide (l = l')) as [<-|Hne].
  - rewrite list_lookup_insert_eq by eauto using lookup_lt_Some.
    rewrite H. reflexivity.
  - rewrite list_lookup_insert_ne by exact Hne. reflexivity.
Qed.

Lemma lock_of_Some (h : heap) l a :
  h !! l = Some a -> lock_of h l = BankAccount.lock a.
Proof. intros H. unfold lock_of. rewrite H. reflexivity. Qed.

Lemma sum_owed_insert (k : list (list loc * view * Z)) t x y :
  k !! t = Some x -> sum_owed (<[t := y]> k) = sum_owed k - snd x + snd y.
Proof.
  revert t. induction k as [|z k IH]; intros [|t] H; simpl in *;
    try discriminate.
  - injection H as ->. lia.
  - rewrite (IH t H). lia.
Qed.

Lemma acquire_owner t k r :
  acquire t k = Some r ->
  (k = None \/ exists m, k = Some (t, m)) /\ exists m, r = Some (t, m).
Proof.
  unfold acquire. destruct k as [[u m]|].
  - destruct (decide (u = t)) as [->|]; [|discriminate].
    intros [= <-]. eauto.
  - intros [= <-]. eauto.
Qed.

Lemma release_owner t k r :
  release t k = Some r -> exists m, k = Some (t, m).
Proof.
  unfold release. destruct k as [[u m]|]; [|discriminate].
  destruct (decide (u = t)) as [->|]; [|discriminate]. eauto.
Qed.

(** Worker [t] moves on to [p], the store becoming [h']: what is to be
    checked for the ledger to hold again. *)
Lemma ledger_update P strict T c k t w held f owed h' p held' f' owed' todo' :
  ledger P strict T c k ->
  workers c !! t = Some w -> k !! t = Some (held, f, owed) ->
  (forall l a, h' !! l = Some a -> P (BankAccount.balance_cents a)) ->
  (strict = true ->
   total_balance h' + owed' = total_balance (store c) + owed) ->
  (forall u l m, u <> t -> lock_of (store c) l = Some (u, m) ->
     lock_of h' l = Some (u, m) /\ balance h' l = balance (store c) l) ->
  tracked P strict held' f' owed' p -> NoDup held' ->
  (forall l, l ∈ held' -> exists m, lock_of h' l = Some (t, m)) ->
  (forall l v, f' l = Some v -> l ∈ held' /\ balance h' l = Some v) ->
  Forall (fun c' => tracked P strict [] no_view 0 (perform c')) todo' ->
  ledger P strict T (mk_config h' (<[t := mk_worker p todo']> (workers c)))
    (<[t := (held', f', owed')]> k).
Proof.
  intros [LL LB LT LW] Hw Hk HP Htot Hoth D ND Hheld Hview Htodo.
  constructor; simpl.
  - rewrite !length_insert. exact LL.
  - exact HP.
  - intros S. rewrite (sum_owed_insert k t _ (held', f', owed') Hk). simpl.
    specialize (LT S). specialize (Htot S). lia.
  - intros u w' held1 f1 owed1 Hw' Hk'.
    destruct (decide (u = t)) as [->|Hne].
    + rewrite list_lookup_insert_eq in Hw' by eauto using lookup_lt_Some.
      rewrite list_lookup_insert_eq in Hk' by eauto using lookup_lt_Some.
      injection Hw' as <-. injection Hk' as <- <- <-. simpl. auto.
    + rewrite list_lookup_insert_ne in Hw' by congruence.
      rewrite list_lookup_insert_ne in Hk' by congruence.
      destruct (LW u w' held1 f1 owed1 Hw' Hk') as (D' & ND' & Hh' & Hv' & Ht').
      split; [exact D'|]. split; [exact ND'|]. split; [|split; [|exact Ht']].
      * intros l Hl. destruct (Hh' l Hl) as [m Hm]. exists m.
        apply (Hoth u l m Hne Hm).
      * intros l v Hl. destruct (Hv' l v Hl) as [Hin Hb].
        split; [exact Hin|]. destruct (Hh' l Hin) as [m Hm].
        destruct (Hoth u l m Hne Hm) as [_ ->]. exact Hb.
Qed.

Lemma step_ledger P strict T c k t c' :
  ledger P strict T c k -> step t c = Some c' ->
  exists k', ledger P strict T c' k'.
Proof.
  intros L S. pose proof L as [LL LB LT LW].
  unfold step in S. destruct (workers c !! t) as [w|] eqn:Hw; [|discriminate].
  simpl in S.
  assert (Hk : is_Some (k !! t)).
  { apply lookup_lt_is_Some. rewrite LL. eauto using lookup_lt_Some. }
  destruct Hk as [[[held f] owed] Hk].
  destruct (LW t w held f owed Hw Hk) as (D & ND & Hheld & Hview & Htodo).
  destruct (returned (current w)) eqn:R.
  - (* the call in progress is over: start the next one *)
    destruct (todo w) as [|next rest] eqn:E; [discriminate|].
    injection S as <-.
    assert (held = [] /\ (strict = true -> owed = 0)) as [-> Ho].
    { destruct (current w); simpl in R; try discriminate;
        inversion D; auto. }
    apply Forall_cons_1 in Htodo as [Hnext Hrest].
    exists (<[t := ([], no_view, 0)]> k).
    apply (ledger_update P strict T c k t w [] f owed _ _ _ _ _ _ L Hw Hk);
      [exact LB| |tauto|exact Hnext|exact ND|inversion 1|discriminate
      |exact Hrest].
    intros S. rewrite (Ho S). reflexivity.
  - destruct (act t (current w) (store c)) as [[p h']|] eqn:A;
      [|discriminate].
    simpl in S. injection S as <-.
    destruct (current w) as [a|e|nb b k0|l k0|l k0|l v k0|l k0|l k0] eqn:C;
      simpl in R; try discriminate;
      inversion D as [|
                     |held0 f0 owed0 l0 k1 D'
                     |held0 f0 owed0 l0 k1 Hin D'
                     |held0 f0 owed0 l0 v0 b0 k1 Hin Hb Pv D'
                     |held0 f0 owed0 l0 k1 Hnotin D'
                     |held0 f0 owed0 l0 k1 D'];
      subst; simpl in A.
    + (* LoadNumber *)
      destruct (store c !! l) as [a|] eqn:Ha; [|discriminate].
      simpl in A. injection A as <- <-.
      exists (<[t := (held, f, owed)]> k).
      apply (ledger_update P strict T c k t w held f owed _ _ _ _ _ _
               L Hw Hk);
        [exact LB|reflexivity|tauto|apply D'|exact ND|exact Hheld|exact Hview
        |exact Htodo].
    + (* LoadBalance *)
      destruct (store c !! l) as [a|] eqn:Ha; [|discriminate].
      simpl in A. injection A as <- <-.
      exists (<[t := (held, learn l (BankAccount.balance_cents a) f, owed)]> k).
      apply (ledger_update P strict T c k t w held f owed _ _ _ _ _ _
               L Hw Hk);
        [exact LB|reflexivity|tauto| |exact ND|exact Hheld| |exact Htodo].
      * apply D'; [exact (LB _ _ Ha)|].
        intros b Hb. destruct (Hview l b Hb) as [_ Hb'].
        rewrite (balance_Some _ _ _ Ha) in Hb'. congruence.
      * intros l' v'. unfold learn. case_decide.
        -- subst l'. intros [= <-]. split; [exact Hin|].
           apply balance_Some, Ha.
        -- apply Hview.
    + (* StoreBalance *)
      destruct (store c !! l) as [a|] eqn:Ha; [|discriminate].
      simpl in A. injection A as <- <-.
      destruct (Hview l b0 Hb) as [_ Hbal].
      rewrite (balance_Some _ _ _ Ha) in Hbal. injection Hbal as Hbal.
      destruct (Hheld l Hin) as [m Hm].
      exists (<[t := (held, learn l v f, owed + b0 - v)]> k).
      apply (ledger_update P strict T c k t w held f owed _ _ _ _ _ _
               L Hw Hk);
        [| | |exact D'|exact ND| | |exact Htodo].
      * intros l' a' Ha'. apply list_lookup_insert_Some in Ha'.
        destruct Ha' as [(_ & <- & _)|[_ Ha']]; [exact Pv|exact (LB _ _ Ha')].
      * intros _. rewrite (total_balance_insert _ _ _ _ Ha). simpl. lia.
      * intros u l' m' Hne Hl'.
        assert (l <> l') by (intros ->; congruence).
        rewrite (lock_of_set_balance _ _ _ _ _ Ha).
        split; [exact Hl'|]. apply balance_insert_ne. assumption.
      * intros l' Hl'. rewrite (lock_of_set_balance _ _ _ _ _ Ha).
        apply Hheld, Hl'.
      * intros l' v'. unfold learn. case_decide.
        -- subst l'. intros [= <-]. split; [exact Hin|].
           apply balance_insert_eq, Ha.
        -- intros Hl'. destruct (Hview l' v' Hl') as [Hin' Hb'].
           split; [exact Hin'|].
           rewrite balance_insert_ne by congruence. exact Hb'.
    + (* Acquire *)
      destruct (store c !! l) as [a|] eqn:Ha; [|discriminate].
      simpl in A.
      destruct (acquire t (BankAccount.lock a)) as [r|] eqn:Hacq;
        [|discriminate].
      simpl in A. injection A as <- <-.
      destruct (acquire_owner _ _ _ Hacq) as [Hbefore [m Hr]]. subst r.
      exists (<[t := (l :: held, f, owed)]> k).
      apply (ledger_update P strict T c k t w held f owed _ _ _ _ _ _
               L Hw Hk);
        [| | |exact D'| | | |exact Htodo].
      * intros l' a' Ha'. apply list_lookup_insert_Some in Ha'.
        destruct Ha' as [(_ & <- & _)|[_ Ha']];
          [exact (LB _ _ Ha)|exact (LB _ _ Ha')].
      * intros _. rewrite (total_balance_insert _ _ _ _ Ha). simpl. lia.
      * intros u l' m' Hne Hl'.
        assert (l <> l').
        { intros ->. rewrite (lock_of_Some _ _ _ Ha) in Hl'.
          destruct Hbefore as [Hb|[m1 Hb]]; congruence. }
        rewrite (lock_of_set_lock _ _ _ _ _ Ha), decide_False by assumption.
        split; [exact Hl'|]. apply balance_set_lock, Ha.
      * constructor; assumption.
      * intros l' Hl'. rewrite (lock_of_set_lock _ _ _ _ _ Ha).
        case_decide; [eauto|].
        apply elem_of_cons in Hl' as [?|Hl']; [congruence|].
        apply Hheld, Hl'.
      * intros l' v' Hl'. destruct (Hview l' v' Hl') as [Hin' Hb'].
        split; [right; exact Hin'|].
        rewrite (balance_set_lock _ _ _ _ _ Ha). exact Hb'.
    + (* Release *)
      destruct (store c !! l) as [a|] eqn:Ha; [|discriminate].
      simpl in A.
      destruct (release t (BankAccount.lock a)) as [r|] eqn:Hrel;
        [|discriminate].
      simpl in A. injection A as <- <-.
      destruct (release_owner _ _ _ Hrel) as [m Hm].
      inversion ND as [|? ? Hnotin ND']; subst.
      exists (<[t := (held0, forget l f, owed)]> k).
      apply (ledger_update P strict T c k t w (l :: held0) f owed _ _ _ _ _ _
               L Hw Hk);
        [| | |exact D'|exact ND'| | |exact Htodo].
      * intros l' a' Ha'. apply list_lookup_insert_Some in Ha'.
        destruct Ha' as [(_ & <- & _)|[_ Ha']];
          [exact (LB _ _ Ha)|exact (LB _ _ Ha')].
      * intros _. rewrite (total_balance_insert _ _ _ _ Ha). simpl. lia.
      * intros u l' m' Hne Hl'.
        assert (l <> l').
        { intros ->. rewrite (lock_of_Some _ _ _ Ha) in Hl'. congruence. }
        rewrite (lock_of_set_lock _ _ _ _ _ Ha), decide_False by assumption.
        split; [exact Hl'|]. apply balance_set_lock, Ha.
      * intros l' Hl'. rewrite (lock_of_set_lock _ _ _ _ _ Ha).
        rewrite decide_False by (intros ->; contradiction).
        apply Hheld. right. exact Hl'.
      * intros l' v'. unfold forget. case_decide; [discriminate|].
        intros Hl'. destruct (Hview l' v' Hl') as [Hin' Hb'].
        apply elem_of_cons in Hin' as [?|Hin']; [congruence|].
        split; [exact Hin'|].
        rewrite (balance_set_lock _ _ _ _ _ Ha). exact Hb'.
Qed.

Lemma spawn_ledger P strict h jobs :
  (forall l a, h !! l = Some a -> P (BankAccount.balance_cents a)) ->
  Forall (Forall (fun c => tracked P strict [] no_view 0 (perform c))) jobs ->
  ledger P strict (total_balance h) (spawn h jobs) (blank_ledger jobs).
Proof.
  intros HP Hjobs. constructor; unfold blank_ledger; simpl.
  - rewrite !length_map. reflexivity.
  - exact HP.
  - intros _. assert (E : sum_owed (map (fun _ => ([], no_view, 0)) jobs) = 0).
    { clear Hjobs. induction jobs as [|j jobs IH]; [reflexivity|].
      simpl. rewrite IH. reflexivity. }
    rewrite E. lia.
  - intros t w held f owed Hw Hk.
    rewrite list_lookup_fmap in Hw. rewrite list_lookup_fmap in Hk.
    destruct (jobs !! t) as [cs|] eqn:Hcs; [|discriminate].
    simpl in Hw, Hk. injection Hw as <-. injection Hk as <- <- <-. simpl.
    split; [constructor; reflexivity|]. split; [constructor|].
    split; [inversion 1|]. split; [discriminate|].
    rewrite Forall_forall in Hjobs. apply Hjobs.
    apply list_elem_of_In, list_elem_of_lookup. eauto.
Qed.

Lemma schedule_ledger P strict T s : forall c k c',
  ledger P strict T c k -> schedule s c = Some c' ->
  exists k', ledger P strict T c' k'.
Proof.
  induction s as [|t s IH]; intros c k c' L S; simpl in S.
  - injection S as <-. eauto.
  - destruct (step t c) as [c1|] eqn:E; [|discriminate]. simpl in S.
    destruct (step_ledger _ _ _ _ _ _ _ L E) as [k1 L1]. eauto.
Qed.

Lemma sum_owed_zero (k : list (list loc * view * Z)) :
  (forall t x, k !! t = Some x -> snd x = 0) -> sum_owed k = 0.
Proof.
  induction k as [|x k IH]; intros H; simpl; [reflexivity|].
  rewrite (H 0%nat x eq_refl), IH; [reflexivity|].
  intros t y Hy. exact (H (S t) y Hy).
Qed.

(** A worker's call is tracked whatever the property of balances; a
    transfer, moreover, owes nothing when it ends. *)
Lemma perform_tracked (P : Z -> Prop) strict c :
  (forall b amount, P b -> 0 < amount -> P (b + amount)) ->
  (forall b amount, P b -> 0 < amount -> amount <= b -> P (b - amount)) ->
  match c with Construct _ _ => False | _ => True end ->
  (strict = true -> is_transfer c) ->
  tracked P strict [] no_view 0 (perform c).
Proof.
  intros Pd Pw Hc Hs.
  destruct c as [n b|self|self amount|self amount|self other amount];
    unfold perform.
  - contradiction.
  - destruct strict; [destruct (Hs eq_refl)|].
    apply get_balance_tracked. discriminate.
  - destruct strict; [destruct (Hs eq_refl)|].
    apply deposit_tracked. exact Pd.
  - destruct strict; [destruct (Hs eq_refl)|].
    apply withdraw_tracked. exact Pw.
  - apply transfer_to_tracked; assumption.
Qed.

(** Workers running concurrently never make a balance negative, not even in
    the middle of a call. *)
Lemma concurrent_nonneg h jobs s c :
  nonneg h -> Forall (Forall (worker_call_ok h)) jobs ->
  schedule s (spawn h jobs) = Some c ->
  nonneg (store c).
Proof.
  intros N Hjobs S.
  destruct (schedule_ledger (fun v => 0 <= v) false (total_balance h) s
              (spawn h jobs) (blank_ledger jobs) c) as [k L]; [|exact S|].
  - apply spawn_ledger; [exact N|].
    eapply Forall_impl; [|exact Hjobs]. intros cs Hcs.
    eapply Forall_impl; [|exact Hcs]. intros c0 [_ Hc0].
    apply perform_tracked; [intros; lia|intros; lia|exact Hc0|discriminate].
  - exact (led_balances _ _ _ _ _ L).
Qed.

(** Workers that make transfers only, running concurrently: whenever every
    worker is between two calls, the sum of all balances is what it was at
    the start. *)
Lemma concurrent_conservation h jobs s c :
  Forall (Forall is_transfer) jobs ->
  schedule s (spawn h jobs) = Some c -> quiescent c = true ->
  total_balance (store c) = total_balance h.
Proof.
  intros Hjobs S Q.
  destruct (schedule_ledger (fun _ => True) true (total_balance h) s
              (spawn h jobs) (blank_ledger jobs) c) as [k L]; [|exact S|].
  - apply spawn_ledger; [trivial|].
    eapply Forall_impl; [|exact Hjobs]. intros cs Hcs.
    eapply Forall_impl; [|exact Hcs]. intros c0 Hc0.
    apply perform_tracked; [trivial|trivial| |intros _; exact Hc0].
    destruct c0; [contradiction|trivial..].
  - pose proof (led_total _ _ _ _ _ L eq_refl) as E.
    rewrite sum_owed_zero in E; [lia|].
    intros t [[held f] owed] Hk. simpl.
    assert (Hw : is_Some (workers c !! t)).
    { apply lookup_lt_is_Some. rewrite <- (led_length _ _ _ _ _ L).
      eauto using lookup_lt_Some. }
    destruct Hw as [w Hw].
    destruct (led_workers _ _ _ _ _ L t w held f owed Hw Hk) as (D & _).
    assert (R : returned (current w) = true).
    { unfold quiescent in Q. rewrite forallb_forall in Q.
      apply Q, list_elem_of_In, list_elem_of_lookup. eauto. }
    destruct (current w); simpl in R; try discriminate;
      inversion D; auto.
Qed.

(** ** Conservation and non-negativity *)

(** C1.  Transfers conserve the sum of all balances.  Any sequence of
    [transfer_to] calls, between any accounts of the store and whether each
    call succeeds or fails, runs to its end and leaves the sum of all
    balances what it was before the sequence, after every call of it and at
    its end.  The same holds of transfers made concurrently by any number
    of workers: whenever every worker is between two calls, the sum of all
    balances is what it was at the start. *)
Theorem transfers_conserve_total h :
  unlocked h ->
  (forall t cs,
     Forall is_transfer cs -> Forall (call_ok h) cs ->
     exists tr,
       run t cs h = Some tr /\ length tr = length cs
       /\ Forall (fun e => total_balance (snd e) = total_balance h) tr
       /\ total_balance (final h tr) = total_balance h)
  /\ (forall jobs s c,
        Forall (Forall is_transfer) jobs ->
        schedule s (spawn h jobs) = Some c -> quiescent c = true ->
        total_balance (store c) = total_balance h).
Proof.
  intros U. split.
  - intros t cs T Hok. apply run_transfers; assumption.
  - intros jobs s c. apply concurrent_conservation.
Qed.

Lemma transfers_conserve_total_witness :
  (exists tr,
     run 0%nat transfer_mix two_accounts = Some tr
     /\ total_balance (final two_accounts tr) = 300000)
  /\ exists c,
       schedule one_after_the_other (spawn two_accounts crossing_transfers)
       = Some c
       /\ quiescent c = true
       /\ total_balance (store c) = 300000.
Proof.
  destruct (transfers_conserve_total two_accounts ltac:(solve_unlocked))
    as [Seq Conc].
  split.
  - destruct (Seq 0%nat transfer_mix) as (tr & E & _ & _ & F).
    + repeat constructor.
    + repeat constructor; simpl; lia.
    + exists tr. split; [exact E|exact F].
  - destruct (schedule one_after_the_other
                (spawn two_accounts crossing_transfers)) as [c|] eqn:E;
      [|vm_compute in E; discriminate E].
    assert (Q : quiescent c = true).
    { vm_compute in E. injection E as <-. reflexivity. }
    exists c. split; [reflexivity|]. split; [exact Q|].
    apply (Conc crossing_transfers one_after_the_other c);
      [repeat constructor|exact E|exact Q].
Defined.

(** C3.  No balance is ever negative.  In every store a program can reach
    from the empty one by constructor, [get_balance], [deposit], [withdraw]
    and [transfer_to] calls, every account has a balance of at least 0;
    every further call on accounts of that store completes, leaves every
    balance at least 0, and leaves the store untouched when it fails.  When
    workers make such calls concurrently, every balance is at least 0 after
    every step, also in the middle of a call. *)
Theorem balances_never_negative h :
  reachable h ->
  nonneg h
  /\ (forall t c, call_ok h c ->
        exists r h',
          exec t (perform c) h = Some (r, h')
          /\ nonneg h'
          /\ (succeeded r = false -> h' = h))
  /\ (forall jobs s c,
        Forall (Forall (worker_call_ok h)) jobs ->
        schedule s (spawn h jobs) = Some c ->
        nonneg (store c)).
Proof.
  intros R. destruct (reachable_inv h R) as [U N]. split; [exact N|]. split.
  - intros t c Hok. destruct (exec_perform t h c U Hok) as (r & h' & E & O).
    exists r, h'. split; [exact E|]. split.
    + eapply outcome_nonneg; eassumption.
    + eapply outcome_failed; eassumption.
  - intros jobs s c. apply concurrent_nonneg. exact N.
Qed.

Lemma balances_never_negative_witness :
  nonneg [BankAccount.mk (str_of_string "TEST-001") 0 None]
  /\ exists r h',
       exec 0%nat (perform (Withdraw 0%nat 1))
         [BankAccount.mk (str_of_string "TEST-001") 0 None] = Some (r, h')
       /\ nonneg h'.
Proof.
  destruct (balances_never_negative
              [BankAccount.mk (str_of_string "TEST-001") 0 None])
    as (N & Seq & _).
  - apply (reachable_call 0%nat
             [BankAccount.mk (str_of_string "TEST-001") 2000 None]
             (Withdraw 0%nat 2000) (Returns tt));
      [|simpl; lia|reflexivity].
    apply (reachable_call 0%nat [] (Construct (str_of_string "TEST-001") 2000)
             (Returns tt));
      [apply reachable_start|exact I|reflexivity].
  - split; [exact N|].
    destruct (Seq 0%nat (Withdraw 0%nat 1)) as (r & h' & E & N' & _);
      [simpl; lia|].
    exists r, h'. split; [exact E|exact N'].
Defined.

(* ===================================================================== *)
(** ** A transfer among other threads *)

Lemma throughout_nil (P : config -> Prop) c : P c -> throughout P [] c.
Proof.
  intros H p q c' E S. symmetry in E. apply app_eq_nil in E as [-> _].
  simpl in S. injection S as <-. exact H.
Qed.

Lemma throughout_cons (P : config -> Prop) u s c c1 :
  P c -> step u c = Some c1 -> throughout P s c1 ->
  throughout P (u :: s) c.
Proof.
  intros H E T [|u' p] q c' Es S; simpl in *.
  - injection S as <-. exact H.
  - injection Es as <- ->. rewrite E in S. simpl in S.
    exact (T p q c' eq_refl S).
Qed.

(** A worker never gets calls to make. *)
Lemma step_todo t u c c1 w :
  step u c = Some c1 -> workers c !! t = Some w ->
  exists w1, workers c1 !! t = Some w1
             /\ (length (todo w1) <= length (todo w))%nat.
Proof.
  unfold step. intros S Hw.
  destruct (workers c !! u) as [wu|] eqn:Hu; [|discriminate]. simpl in S.
  assert (Upd : forall h p td,
            (length td <= length (todo wu))%nat ->
            exists w1,
              workers (mk_config h (<[u := mk_worker p td]> (workers c))) !! t
              = Some w1
              /\ (length (todo w1) <= length (todo w))%nat).
  { intros h p td Htd. simpl. destruct (decide (t = u)) as [->|Hne].
    - rewrite list_lookup_insert_eq by eauto using lookup_lt_Some.
      eexists. split; [reflexivity|]. simpl.
      replace w with wu by congruence. exact Htd.
    - rewrite list_lookup_insert_ne by congruence. eauto. }
  destruct (returned (current wu)).
  - destruct (todo wu) as [|next rest] eqn:Etd; [discriminate|].
    injection S as <-. apply Upd. simpl. lia.
  - destruct (act u (current wu) (store c)) as [[p h]|]; [|discriminate].
    simpl in S. injection S as <-. apply Upd. lia.
Qed.

Lemma schedule_todo t s : forall c c1 w,
  schedule s c = Some c1 -> workers c !! t = Some w ->
  exists w1, workers c1 !! t = Some w1
             /\ (length (todo w1) <= length (todo w))%nat.
Proof.
  induction s as [|u s IH]; intros c c1 w S Hw; simpl in S.
  - injection S as <-. eauto.
  - destruct (step u c) as [c2|] eqn:E; [|discriminate]. simpl in S.
    destruct (step_todo t u c c2 w E Hw) as (w2 & Hw2 & L2).
    destruct (IH c2 c1 w2 S Hw2) as (w1 & Hw1 & L1).
    exists w1. split; [exact Hw1|lia].
Qed.

(** The step of a thread leaves the other workers as they are. *)
Lemma step_other t u c c1 :
  u <> t -> step u c = Some c1 -> workers c1 !! t = workers c !! t.
Proof.
  unfold step. intros Hne S.
  destruct (workers c !! u) as [wu|]; [|discriminate]. simpl in S.
  destruct (returned (current wu)).
  - destruct (todo wu); [discriminate|]. injection S as <-. simpl.
    apply list_lookup_insert_ne. exact Hne.
  - destruct (act u (current wu) (store c)) as [[p h]|]; [|discriminate].
    simpl in S. injection S as <-. simpl.
    apply list_lookup_insert_ne. exact Hne.
Qed.

(** A step of [t] inside a call. *)
Lemma step_inside t c c1 w :
  step t c = Some c1 -> workers c !! t = Some w ->
  returned (current w) = false ->
  exists p h,
    act t (current w) (store c) = Some (p, h)
    /\ store c1 = h
    /\ workers c1 !! t = Some (mk_worker p (todo w)).
Proof.
  unfold step. intros S Hw R. rewrite Hw in S. simpl in S. rewrite R in S.
  destruct (act t (current w) (store c)) as [[p h]|]; [|discriminate].
  simpl in S. injection S as <-. simpl. exists p, h.
  split; [reflexivity|]. split; [reflexivity|].
  apply list_lookup_insert_eq. eauto using lookup_lt_Some.
Qed.

(** A thread that is about to read or write a balance holds the lock. *)
Lemma accessed_holds P strict T c k u w l :
  ledger P strict T c k ->
  workers c !! u = Some w -> accessed (current w) = Some l -> holds c u l.
Proof.
  intros L Hw Hl.
  assert (Hk : is_Some (k !! u)).
  { apply lookup_lt_is_Some. rewrite (led_length _ _ _ _ _ L).
    eauto using lookup_lt_Some. }
  destruct Hk as [[[held f] owed] Hk].
  destruct (led_workers _ _ _ _ _ L u w held f owed Hw Hk)
    as (D & _ & Hheld & _).
  apply Hheld.
  destruct (current w); simpl in Hl; try discriminate;
    injection Hl as ->; inversion D; assumption.
Qed.

Lemma holds_alone P strict T c k t l :
  ledger P strict T c k -> holds c t l -> alone c t l.
Proof.
  intros L [m Hm] u w Hw Hl.
  destruct (accessed_holds _ _ _ _ _ _ _ _ L Hw Hl) as [m' Hm'].
  congruence.
Qed.

Lemma holds_exclusive P strict T c k t self other :
  ledger P strict T c k -> holds c t self -> holds c t other ->
  exclusive c t self other.
Proof.
  intros L H1 H2. unfold exclusive. eauto 6 using holds_alone.
Qed.

(** The step of another thread changes neither a lock that [t] holds nor
    the balance behind it. *)
Lemma step_other_frame P strict T c k t u c1 l :
  ledger P strict T c k -> u <> t -> step u c = Some c1 -> holds c t l ->
  holds c1 t l /\ balance (store c1) l = balance (store c) l.
Proof.
  intros L Hne S [m Hm]. unfold step in S.
  destruct (workers c !! u) as [wu|] eqn:Hu; [|discriminate]. simpl in S.
  destruct (returned (current wu)).
  { destruct (todo wu); [discriminate|]. injection S as <-. simpl.
    split; [exists m; exact Hm|reflexivity]. }
  destruct (act u (current wu) (store c)) as [[p h]|] eqn:A; [|discriminate].
  simpl in S. injection S as <-. unfold holds. simpl.
  pose proof (fun l' => accessed_holds _ _ _ _ _ u wu l' L Hu) as Own.
  assert (Hl : is_Some (store c !! l)).
  { unfold lock_of in Hm. destruct (store c !! l); [eauto|discriminate]. }
  destruct (current wu) as [a|e|nb bb k0|l' k0|l' k0|l' v k0|l' k0|l' k0];
    simpl in A; try discriminate;
    try (destruct (store c !! l') as [a'|] eqn:Ha'; [|discriminate];
         simpl in A).
  - injection A as <- <-. unfold lock_of, balance.
    rewrite lookup_app_l by (apply lookup_lt_is_Some; exact Hl).
    split; [exists m; exact Hm|reflexivity].
  - injection A as <- <-. split; [exists m; exact Hm|reflexivity].
  - injection A as <- <-. split; [exists m; exact Hm|reflexivity].
  - injection A as <- <-. rewrite (lock_of_set_balance _ _ _ _ _ Ha').
    split; [exists m; exact Hm|].
    apply balance_insert_ne. intros ->.
    destruct (Own l eq_refl) as [m' Hm']. congruence.
  - destruct (acquire u (BankAccount.lock a')) as [r|] eqn:Hacq;
      [|discriminate].
    simpl in A. injection A as <- <-.
    rewrite (lock_of_set_lock _ _ _ _ _ Ha'), (balance_set_lock _ _ _ _ _ Ha').
    split; [|reflexivity]. destruct (decide (l' = l)) as [->|_]; [|eauto].
    exfalso. rewrite (lock_of_Some _ _ _ Ha') in Hm.
    destruct (acquire_owner _ _ _ Hacq) as [[Hf|[m' Hf]] _]; congruence.
  - destruct (release u (BankAccount.lock a')) as [r|] eqn:Hrel;
      [|discriminate].
    simpl in A. injection A as <- <-.
    rewrite (lock_of_set_lock _ _ _ _ _ Ha'), (balance_set_lock _ _ _ _ _ Ha').
    split; [|reflexivity]. destruct (decide (l' = l)) as [->|_]; [|eauto].
    exfalso. rewrite (lock_of_Some _ _ _ Ha') in Hm.
    destruct (release_owner _ _ _ Hrel) as [m' Hf]. congruence.
Qed.

Lemma leaving_quiet r p : leaving r p -> accessed p = None.
Proof.
  intros [R|l k _]; [|reflexivity]. destruct r; try discriminate; reflexivity.
Qed.

Lemma entering_quiet self other amount held p :
  entering self other amount held p ->
  accessed p = None /\ returned p = false.
Proof. intros []; split; reflexivity. Qed.

Lemma critical_inside self other amount v1 v2 x1 x2 p :
  critical self other amount v1 v2 x1 x2 p -> returned p = false.
Proof. intros []; reflexivity. Qed.

(** A transfer between two accounts starts before its locks. *)
Lemma transfer_to_entering self other amount :
  self <> other -> 0 < amount ->
  entering self other amount None
    (BankAccount.transfer_to self (Some other) amount).
Proof.
  intros Hne Hamt. unfold BankAccount.transfer_to.
  rewrite decide_False by congruence.
  destruct (Z.leb_spec amount 0); [lia|].
  assert (Body : forall first second v1 v2,
    critical self other amount v1 v2 v1 v2
      (finally
         (finally
            (LoadBalance self (fun b =>
               if amount >? b
               then Raise (InsufficientFundsError
                             "Insufficient funds for transfer.")
               else BankAccount.__withdraw_unlocked self amount ;;
                    BankAccount.__deposit_unlocked other amount)) second)
         first)).
  { intros first second v1 v2. simpl. apply critical_load_self.
    destruct (Z.gtb_spec amount v1); simpl.
    - apply critical_failed; [lia|]. repeat constructor.
    - apply critical_load_self, critical_store_self.
      apply critical_load_other, critical_store_other.
      apply critical_done; [lia|]. repeat constructor. }
  constructor. intros x. constructor. intros y.
  destruct (str_lt x y); unfold with_lock; simpl finally at 1;
    (apply entering_first; [auto|]);
    (apply entering_second; [auto|]); apply Body.
Qed.

(** After its last access of a balance, a transfer gives the locks back
    and ends. *)
Lemma leaving_run t r s : forall c c' w w',
  workers c !! t = Some w -> leaving r (current w) ->
  schedule s c = Some c' -> workers c' !! t = Some w' ->
  returned (current w') = true -> length (todo w') = length (todo w) ->
  current w' = r /\ throughout (fun c0 => quiet c0 t) s c.
Proof.
  induction s as [|u s IH]; intros c c' w w' Hw Lv S Hw' R Len; simpl in S.
  - injection S as <-. replace w' with w in * by congruence. split.
    + destruct Lv as [_|l k _]; [reflexivity|discriminate R].
    + apply throughout_nil. intros w0 Hw0. replace w0 with w by congruence.
      exact (leaving_quiet _ _ Lv).
  - destruct (step u c) as [c1|] eqn:E; [|discriminate]. simpl in S.
    assert (Q : quiet c t).
    { intros w0 Hw0. replace w0 with w by congruence.
      exact (leaving_quiet _ _ Lv). }
    destruct (decide (u = t)) as [->|Hne].
    + destruct (returned (current w)) eqn:Rw.
      * exfalso. unfold step in E. rewrite Hw in E. simpl in E.
        rewrite Rw in E.
        destruct (todo w) as [|next rest] eqn:Etd; [discriminate|].
        injection E as <-.
        destruct (schedule_todo t s _ c' (mk_worker (perform next) rest) S)
          as (w1 & Hw1 & L1).
        { simpl. apply list_lookup_insert_eq. eauto using lookup_lt_Some. }
        replace w1 with w' in L1 by congruence. simpl in L1, Len. lia.
      * destruct (step_inside t c c1 w E Hw Rw) as (p & h & A & _ & Hw1).
        destruct Lv as [Rr|l k Lk]; [congruence|]. simpl in A.
        destruct (store c !! l) as [a|]; [|discriminate]. simpl in A.
        destruct (release t (BankAccount.lock a)); [|discriminate].
        simpl in A. injection A as <- <-.
        destruct (IH c1 c' _ w' Hw1 Lk S Hw' R Len) as [Er Th].
        split; [exact Er|]. eapply throughout_cons; eassumption.
    + rewrite <- (step_other t u c c1 Hne E) in Hw.
      destruct (IH c1 c' w w' Hw Lv S Hw' R Len) as [Er Th].
      split; [exact Er|]. eapply throughout_cons; eassumption.
Qed.

(** A step of the transfer inside its critical part. *)
Lemma critical_step t self other amount v1 v2 x1 x2 c c1 w :
  self <> other ->
  workers c !! t = Some w ->
  critical self other amount v1 v2 x1 x2 (current w) ->
  accessed (current w) <> None ->
  holds c t self -> holds c t other ->
  balance (store c) self = Some x1 -> balance (store c) other = Some x2 ->
  step t c = Some c1 ->
  exists p y1 y2,
    workers c1 !! t = Some (mk_worker p (todo w))
    /\ critical self other amount v1 v2 y1 y2 p
    /\ holds c1 t self /\ holds c1 t other
    /\ balance (store c1) self = Some y1
    /\ balance (store c1) other = Some y2.
Proof.
  intros Hne Hw Cr Acc H1 H2 B1 B2 S.
  destruct (step_inside t c c1 w S Hw (critical_inside _ _ _ _ _ _ _ _ Cr))
    as (p & h & A & Hst & Hw1).
  unfold holds. rewrite Hst. clear Hst.
  assert (X1 : exists a, store c !! self = Some a
                         /\ BankAccount.balance_cents a = x1).
  { unfold balance in B1. destruct (store c !! self) as [a|]; [|discriminate].
    injection B1 as <-. eauto. }
  assert (X2 : exists a, store c !! other = Some a
                         /\ BankAccount.balance_cents a = x2).
  { unfold balance in B2. destruct (store c !! other) as [a|]; [|discriminate].
    injection B2 as <-. eauto. }
  destruct X1 as (a1 & Ha1 & E1), X2 as (a2 & Ha2 & E2).
  destruct Cr as [x1 x2 k Ck|x1 x2 k Ck|x1 x2 v k Ck|x1 x2 v k Ck
                 |l k _ _|l k _ _];
    simpl in A, Acc; try congruence.
  - rewrite Ha1 in A. simpl in A. injection A as <- <-. rewrite E1 in Hw1.
    exists (k x1), x1, x2. auto 10.
  - rewrite Ha2 in A. simpl in A. injection A as <- <-. rewrite E2 in Hw1.
    exists (k x2), x1, x2. auto 10.
  - rewrite Ha1 in A. simpl in A. injection A as <- <-.
    exists k, v, x2. rewrite !(lock_of_set_balance _ _ _ _ _ Ha1).
    rewrite (balance_insert_eq _ _ _ _ Ha1).
    rewrite balance_insert_ne by exact Hne. auto 10.
  - rewrite Ha2 in A. simpl in A. injection A as <- <-.
    exists k, x1, v. rewrite !(lock_of_set_balance _ _ _ _ _ Ha2).
    rewrite (balance_insert_eq _ _ _ _ Ha2).
    rewrite balance_insert_ne by congruence. auto 10.
Qed.

(** From inside the critical part to the end of the transfer. *)
Lemma critical_run P strict T t self other amount v1 v2 s :
  self <> other ->
  forall c c' k w w' x1 x2,
    ledger P strict T c k ->
    workers c !! t = Some w ->
    critical self other amount v1 v2 x1 x2 (current w) ->
    holds c t self -> holds c t other ->
    balance (store c) self = Some x1 -> balance (store c) other = Some x2 ->
    schedule s c = Some c' -> workers c' !! t = Some w' ->
    returned (current w') = true -> length (todo w') = length (todo w) ->
    exists s2 s3 c3,
      s = s2 ++ s3
      /\ schedule s2 c = Some c3 /\ schedule s3 c3 = Some c'
      /\ throughout (fun c0 => exclusive c0 t self other) s2 c
      /\ throughout (fun c0 => quiet c0 t) s3 c3
      /\ transferred amount v1 v2 (current w')
           (balance (store c3) self) (balance (store c3) other).
Proof.
  intros Hne.
  induction s as [|u s IH];
    intros c c' k w w' x1 x2 L Hw Cr H1 H2 B1 B2 S Hw' R Len.
  { simpl in S. injection S as <-. replace w' with w in R by congruence.
    rewrite (critical_inside _ _ _ _ _ _ _ _ Cr) in R. discriminate. }
  pose proof (holds_exclusive _ _ _ _ _ _ _ _ L H1 H2) as Ex.
  destruct (accessed (current w)) as [l|] eqn:Acc.
  - (* reading or writing: one more step inside *)
    simpl in S. destruct (step u c) as [c1|] eqn:E; [|discriminate].
    simpl in S. destruct (step_ledger _ _ _ _ _ _ _ L E) as [k1 L1].
    assert (Next : exists w1 y1 y2,
              workers c1 !! t = Some w1
              /\ length (todo w1) = length (todo w)
              /\ critical self other amount v1 v2 y1 y2 (current w1)
              /\ holds c1 t self /\ holds c1 t other
              /\ balance (store c1) self = Some y1
              /\ balance (store c1) other = Some y2).
    { destruct (decide (u = t)) as [->|Hu].
      - destruct (critical_step t self other amount v1 v2 x1 x2 c c1 w Hne Hw
                    Cr ltac:(congruence) H1 H2 B1 B2 E)
          as (p & y1 & y2 & Hw1 & Cr1 & G1 & G2 & D1 & D2).
        exists (mk_worker p (todo w)), y1, y2. auto 10.
      - destruct (step_other_frame _ _ _ _ _ t u c1 self L Hu E H1)
          as [G1 D1].
        destruct (step_other_frame _ _ _ _ _ t u c1 other L Hu E H2)
          as [G2 D2].
        exists w, x1, x2. rewrite (step_other t u c c1 Hu E).
        rewrite D1, D2. auto 10. }
    destruct Next as (w1 & y1 & y2 & Hw1 & Len1 & Cr1 & G1 & G2 & D1 & D2).
    destruct (IH c1 c' k1 w1 w' y1 y2 L1 Hw1 Cr1 G1 G2 D1 D2 S Hw' R
                ltac:(congruence))
      as (s2 & s3 & c3 & Es & S2 & S3 & T2 & T3 & Eff).
    exists (u :: s2), s3, c3. split; [simpl; congruence|].
    split; [simpl; rewrite E; exact S2|]. split; [exact S3|].
    split; [eapply throughout_cons; eassumption|]. split; assumption.
  - (* through with the balances *)
    assert (Out : exists r,
              leaving r (current w)
              /\ forall p, p = r ->
                   transferred amount v1 v2 p (Some x1) (Some x2)).
    { destruct Cr as [? ? ? _|? ? ? _|? ? ? ? _|? ? ? ? _|l0 k0 Hv Lv|l0 k0 Hv Lv];
        simpl in Acc; try discriminate; eexists; (split; [exact Lv|]);
        intros p ->; [left|right]; auto. }
    destruct Out as (r & Lv & Eff).
    destruct (leaving_run t r (u :: s) c c' w w' Hw Lv S Hw' R Len)
      as [Er Th].
    exists [], (u :: s), c. split; [reflexivity|].
    split; [reflexivity|]. split; [exact S|].
    split; [apply throughout_nil, Ex|]. split; [exact Th|].
    rewrite B1, B2. apply Eff, Er.
Qed.

(** From the start of the transfer to its end. *)
Lemma entering_run P strict T t self other amount s :
  self <> other ->
  forall c c' k w w' held,
    ledger P strict T c k ->
    workers c !! t = Some w ->
    entering self other amount held (current w) ->
    (forall l, held = Some l -> holds c t l) ->
    schedule s c = Some c' -> workers c' !! t = Some w' ->
    returned (current w') = true -> length (todo w') = length (todo w) ->
    exists s1 s2 s3 c1 c2 c3 v1 v2,
      s = s1 ++ t :: s2 ++ s3
      /\ schedule s1 c = Some c1 /\ step t c1 = Some c2
      /\ schedule s2 c2 = Some c3 /\ schedule s3 c3 = Some c'
      /\ throughout (fun c0 => quiet c0 t) s1 c
      /\ throughout (fun c0 => exclusive c0 t self other) s2 c2
      /\ throughout (fun c0 => quiet c0 t) s3 c3
      /\ balance (store c2) self = Some v1
      /\ balance (store c2) other = Some v2
      /\ transferred amount v1 v2 (current w')
           (balance (store c3) self) (balance (store c3) other).
Proof.
  intros Hne.
  induction s as [|u s IH];
    intros c c' k w w' held L Hw En Hh S Hw' R Len.
  { simpl in S. injection S as <-. replace w' with w in R by congruence.
    destruct (entering_quiet _ _ _ _ _ En) as [_ R']. congruence. }
  destruct (entering_quiet _ _ _ _ _ En) as [Acc Rw].
  assert (Q : quiet c t).
  { intros w0 Hw0. replace w0 with w by congruence. exact Acc. }
  simpl in S. destruct (step u c) as [c1|] eqn:E; [|discriminate].
  simpl in S. destruct (step_ledger _ _ _ _ _ _ _ L E) as [k1 L1].
  assert (Go : forall w1 held1,
            workers c1 !! t = Some w1 ->
            length (todo w1) = length (todo w) ->
            entering self other amount held1 (current w1) ->
            (forall l, held1 = Some l -> holds c1 t l) ->
            exists s1 s2 s3 c1' c2 c3 v1 v2,
              u :: s = s1 ++ t :: s2 ++ s3
              /\ schedule s1 c = Some c1' /\ step t c1' = Some c2
              /\ schedule s2 c2 = Some c3 /\ schedule s3 c3 = Some c'
              /\ throughout (fun c0 => quiet c0 t) s1 c
              /\ throughout (fun c0 => exclusive c0 t self other) s2 c2
              /\ throughout (fun c0 => quiet c0 t) s3 c3
              /\ balance (store c2) self = Some v1
              /\ balance (store c2) other = Some v2
              /\ transferred amount v1 v2 (current w')
                   (balance (store c3) self) (balance (store c3) other)).
  { intros w1 held1 Hw1 Len1 En1 Hh1.
    destruct (IH c1 c' k1 w1 w' held1 L1 Hw1 En1 Hh1 S Hw' R
                ltac:(congruence))
      as (s1 & s2 & s3 & c1' & c2 & c3 & v1 & v2
          & Es & S1 & St & S2 & S3 & T1 & T2 & T3 & B1 & B2 & Eff).
    exists (u :: s1), s2, s3, c1', c2, c3, v1, v2.
    split; [simpl; congruence|]. split; [simpl; rewrite E; exact S1|].
    split; [exact St|]. split; [exact S2|]. split; [exact S3|].
    split; [eapply throughout_cons; eassumption|]. auto 10. }
  destruct (decide (u = t)) as [->|Hu].
  - destruct (step_inside t c c1 w E Hw Rw) as (p & h & A & Hst & Hw1).
    destruct En as [l k0 Ek|l k0 Hl Ek|l l' k0 Hl Ck]; simpl in A;
      (destruct (store c !! _) as [a|] eqn:Ha; [|discriminate]);
      simpl in A.
    + injection A as <- <-.
      apply (Go _ None Hw1 eq_refl (Ek _)). discriminate.
    + destruct (acquire t (BankAccount.lock a)) as [r|] eqn:Hacq;
        [|discriminate].
      simpl in A. injection A as <- <-.
      apply (Go _ (Some l) Hw1 eq_refl Ek). intros ? [= <-].
      unfold holds. rewrite Hst, (lock_of_set_lock _ _ _ _ _ Ha).
      rewrite decide_True by reflexivity.
      destruct (acquire_owner _ _ _ Hacq) as [_ [m ->]]. eauto.
    + destruct (acquire t (BankAccount.lock a)) as [r|] eqn:Hacq;
        [|discriminate].
      simpl in A. injection A as <- <-.
      assert (Hll : l' <> l) by (destruct Hl as [[-> ->]|[-> ->]]; congruence).
      assert (G' : holds c1 t l').
      { unfold holds. rewrite Hst, (lock_of_set_lock _ _ _ _ _ Ha).
        rewrite decide_True by reflexivity.
        destruct (acquire_owner _ _ _ Hacq) as [_ [m ->]]. eauto. }
      assert (G : holds c1 t l).
      { destruct (Hh l eq_refl) as [m Hm]. exists m.
        rewrite Hst, (lock_of_set_lock _ _ _ _ _ Ha).
        rewrite decide_False by exact Hll. exact Hm. }
      assert (Bal : forall x, holds c1 t x ->
                              exists v, balance (store c1) x = Some v).
      { intros x [m Hm]. unfold lock_of in Hm. unfold balance.
        destruct (store c1 !! x); [eauto|discriminate]. }
      assert (G1 : holds c1 t self)
        by (destruct Hl as [[-> ->]|[-> ->]]; assumption).
      assert (G2 : holds c1 t other)
        by (destruct Hl as [[-> ->]|[-> ->]]; assumption).
      destruct (Bal self G1) as [v1 B1], (Bal other G2) as [v2 B2].
      destruct (critical_run _ _ _ t self other amount v1 v2 s Hne
                  c1 c' k1 _ w' v1 v2 L1 Hw1 (Ck v1 v2) G1 G2 B1 B2 S Hw' R
                  Len)
        as (s2 & s3 & c3 & Es & S2 & S3 & T2 & T3 & Eff).
      exists [], s2, s3, c, c1, c3, v1, v2.
      split; [simpl; congruence|]. split; [reflexivity|].
      split; [exact E|]. split; [exact S2|]. split; [exact S3|].
      split; [apply throughout_nil, Q|]. auto 10.
  - apply (Go w held).
    + rewrite (step_other t u c c1 Hu E). exact Hw.
    + reflexivity.
    + exact En.
    + intros l Hl.
      exact (proj1 (step_other_frame _ _ _ _ _ t u c1 l L Hu E (Hh l Hl))).
Qed.

(** C4.  For two distinct accounts and a positive amount: if the amount
    exceeds the source's balance, [transfer_to] fails with
    [InsufficientFundsError] and the store is unchanged, both balances
    included; otherwise it returns, the source's balance is decreased by
    the amount, the target's is increased by it, and no other object of the
    store has changed.

    Among other threads the transfer is atomic.  Let thread [t] have
    started the transfer, in any configuration that concurrent workers can
    reach, and let it have ended it after the steps [s], whatever the
    other threads did meanwhile.  Then [s] is made of three parts: the
    steps [s1] up to the one that gives [t] its second lock, the steps
    [s2] of the critical part, and the steps [s3] in which [t] gives the
    locks back.  Before and after the critical part [t] is never about to
    read or write a balance.  All through the critical part [t] holds the
    locks of both accounts and no other thread is about to read or write
    either balance; with [v1] and [v2] the two balances at its start, at
    its end either [amount > v1], the balances are [v1] and [v2] still and
    the transfer ends with [InsufficientFundsError], or [amount <= v1], the
    balances are [v1 - amount] and [v2 + amount] and the transfer
    returns. *)
Theorem transfer_to_effect t h self other a1 a2 amount :
  h !! self = Some a1 -> h !! other = Some a2 -> self <> other ->
  BankAccount.lock a1 = None -> BankAccount.lock a2 = None ->
  0 < amount ->
  let b1 := BankAccount.balance_cents a1 in
  let b2 := BankAccount.balance_cents a2 in
  (amount > b1 ->
   exec t (BankAccount.transfer_to self (Some other) amount) h
   = Some (Raises (InsufficientFundsError "Insufficient funds for transfer."),
           h)
   /\ balance h self = Some b1 /\ balance h other = Some b2)
  /\ (amount <= b1 ->
      exists h',
        exec t (BankAccount.transfer_to self (Some other) amount) h
        = Some (Returns tt, h')
        /\ balance h' self = Some (b1 - amount)
        /\ balance h' other = Some (b2 + amount)
        /\ h' = <[other := set_balance (b2 + amount) a2]>
                  (<[self := set_balance (b1 - amount) a1]> h))
  /\ (forall jobs s0 c0 w0 s c w,
        Forall (Forall (worker_call_ok h)) jobs ->
        schedule s0 (spawn h jobs) = Some c0 ->
        workers c0 !! t = Some w0 ->
        current w0 = BankAccount.transfer_to self (Some other) amount ->
        schedule s c0 = Some c ->
        workers c !! t = Some w ->
        returned (current w) = true -> todo w = todo w0 ->
        exists s1 s2 s3 c1 c2 c3 v1 v2,
          s = s1 ++ t :: s2 ++ s3
          /\ schedule s1 c0 = Some c1 /\ step t c1 = Some c2
          /\ schedule s2 c2 = Some c3 /\ schedule s3 c3 = Some c
          /\ throughout (fun c' => quiet c' t) s1 c0
          /\ throughout (fun c' => exclusive c' t self other) s2 c2
          /\ throughout (fun c' => quiet c' t) s3 c3
          /\ balance (store c2) self = Some v1
          /\ balance (store c2) other = Some v2
          /\ transferred amount v1 v2 (current w)
               (balance (store c3) self) (balance (store c3) other)).
Proof.
  intros H1 H2 Hne L1 L2 Hamt b1 b2.
  split; [|split].
  - intros Hb.
    rewrite (exec_transfer_to t h self other a1 a2 amount H1 H2 Hne L1 L2).
    fold b1 b2. destruct (Z.leb_spec amount 0); [lia|].
    destruct (Z.gtb_spec amount b1); [|lia].
    split; [reflexivity|]. unfold balance. rewrite H1, H2. split; reflexivity.
  - intros Hb.
    rewrite (exec_transfer_to t h self other a1 a2 amount H1 H2 Hne L1 L2).
    fold b1 b2. destruct (Z.leb_spec amount 0); [lia|].
    destruct (Z.gtb_spec amount b1); [lia|].
    eexists; split; [reflexivity|]. split; [|split; [|reflexivity]].
    + rewrite balance_insert_ne by congruence.
      apply balance_insert_eq. exact H1.
    + apply balance_insert_eq.
      rewrite list_lookup_insert_ne by exact Hne. exact H2.
  - intros jobs s0 c0 w0 s c w J S0 Hw0 Cur S Hw R Td.
    destruct (schedule_ledger (fun _ => True) false (total_balance h) s0
                (spawn h jobs) (blank_ledger jobs) c0) as [k L];
      [|exact S0|].
    { apply spawn_ledger; [trivial|].
      eapply Forall_impl; [|exact J]. intros cs Hcs.
      eapply Forall_impl; [|exact Hcs]. intros c1 [_ Hc1].
      apply perform_tracked; [trivial|trivial|exact Hc1|discriminate]. }
    apply (entering_run _ _ _ t self other amount s Hne c0 c k w0 w None L
             Hw0).
    + rewrite Cur. apply transfer_to_entering; assumption.
    + discriminate.
    + exact S.
    + exact Hw.
    + exact R.
    + congruence.
Qed.

Lemma transfer_to_effect_witness :
  (exec 0%nat (BankAccount.transfer_to 0%nat (Some 1%nat) 100001) two_accounts
   = Some (Raises (InsufficientFundsError "Insufficient funds for transfer."),
           two_accounts)
   /\ exists h',
        exec 0%nat (BankAccount.transfer_to 0%nat (Some 1%nat) 50) two_accounts
        = Some (Returns tt, h')
        /\ balance h' 0%nat = Some 99950
        /\ balance h' 1%nat = Some 200050)
  /\ exists c0 c w,
       schedule [0%nat] (spawn two_accounts crossing_transfers) = Some c0
       /\ schedule [0; 0; 0; 0; 1; 0; 1; 0; 1; 0; 0; 0; 0; 0]%nat c0 = Some c
       /\ workers c !! 0%nat = Some w
       /\ exists s1 s2 s3 c1 c2 c3 v1 v2,
            [0; 0; 0; 0; 1; 0; 1; 0; 1; 0; 0; 0; 0; 0]%nat
            = s1 ++ 0%nat :: s2 ++ s3
            /\ schedule s1 c0 = Some c1 /\ step 0%nat c1 = Some c2
            /\ schedule s2 c2 = Some c3 /\ schedule s3 c3 = Some c
            /\ throughout (fun c' => quiet c' 0%nat) s1 c0
            /\ throughout (fun c' => exclusive c' 0%nat 0%nat 1%nat) s2 c2
            /\ throughout (fun c' => quiet c' 0%nat) s3 c3
            /\ balance (store c2) 0%nat = Some v1
            /\ balance (store c2) 1%nat = Some v2
            /\ transferred 10 v1 v2 (current w)
                 (balance (store c3) 0%nat) (balance (store c3) 1%nat).
Proof.
  pose proof (fun amount =>
    transfer_to_effect 0%nat two_accounts 0%nat 1%nat acc_a acc_b amount
      eq_refl eq_refl ltac:(lia) eq_refl eq_refl) as W.
  split; [split|].
  - apply (W 100001); simpl; lia.
  - destruct (W 50 ltac:(lia)) as (_ & Hgood & _).
    destruct Hgood as (h' & E & B1 & B2 & _); simpl; [lia|].
    exists h'. split; [exact E|]. split; [exact B1|exact B2].
  - destruct (schedule [0%nat] (spawn two_accounts crossing_transfers))
      as [c0|] eqn:S0; [|vm_compute in S0; discriminate S0].
    destruct (schedule [0; 0; 0; 0; 1; 0; 1; 0; 1; 0; 0; 0; 0; 0]%nat c0)
      as [c|] eqn:S.
    2: { exfalso. vm_compute in S0. injection S0 as <-.
         vm_compute in S. discriminate S. }
    assert (Ws : exists w0 w,
              workers c0 !! 0%nat = Some w0
              /\ current w0 = BankAccount.transfer_to 0%nat (Some 1%nat) 10
              /\ workers c !! 0%nat = Some w
              /\ returned (current w) = true /\ todo w = todo w0).
    { pose proof S0 as S0'. vm_compute in S0'. injection S0' as <-.
      pose proof S as S'. vm_compute in S'. injection S' as <-.
      do 2 eexists. repeat split; reflexivity. }
    destruct Ws as (w0 & w & Hw0 & Cur & Hw & R & Td).
    assert (J : Forall (Forall (worker_call_ok two_accounts))
                  crossing_transfers) by (repeat constructor; simpl; lia).
    destruct (W 10 ltac:(lia)) as (_ & _ & Atomic).
    exists c0, c, w. split; [reflexivity|]. split; [exact S|].
    split; [exact Hw|].
    exact (Atomic crossing_transfers [0%nat] c0 w0 _ c w J S0 Hw0 Cur S Hw R
             Td).
Defined.

(** * Further properties of the module *)

(** ** Calls and the state of the lock *)

(** X1.  [get_balance] only reads: when the account's lock is free, or
    already held by the calling thread, it returns the balance and leaves
    the store exactly as it was, the lock included. *)
Theorem get_balance_read_only t h self a :
  h !! self = Some a ->
  BankAccount.lock a = None \/ (exists n, BankAccount.lock a = Some (t, S n)) ->
  exec t (BankAccount.get_balance self) h
  = Some (Returns (BankAccount.balance_cents a), h).
Proof.
  intros H [L|[n L]]; unfold BankAccount.get_balance, with_lock; heap_run;
    do 2 f_equal; heap_eq self self.
Qed.

Lemma get_balance_read_only_witness :
  exec 0%nat (BankAccount.get_balance 1%nat) two_accounts
  = Some (Returns 200000, two_accounts)
  /\ exec 3%nat (BankAccount.get_balance 0%nat) [acc_held 2]
     = Some (Returns 70, [acc_held 2]).
Proof.
  split.
  - apply (get_balance_read_only 0%nat two_accounts 1%nat acc_b eq_refl).
    left. reflexivity.
  - apply (get_balance_read_only 3%nat [acc_held 2] 0%nat (acc_held 2)
             eq_refl).
    right. exists 1%nat. reflexivity.
Defined.

(** X2.  [deposit] and [withdraw] check the amount before they touch the
    lock.  While another thread holds the account's lock, a call with a
    non-positive amount still raises [ValueError] at once and leaves the
    store unchanged, whereas a call with a positive amount cannot complete:
    it waits for the lock. *)
Theorem amount_checked_before_locking t u n h self a amount :
  h !! self = Some a -> BankAccount.lock a = Some (u, n) -> u <> t ->
  (amount <= 0 ->
   exec t (BankAccount.deposit self amount) h
   = Some (Raises (ValueError "Deposit amount must be positive."), h)
   /\ exec t (BankAccount.withdraw self amount) h
      = Some (Raises (ValueError "Withdrawal amount must be positive."), h))
  /\ (0 < amount ->
      exec t (BankAccount.deposit self amount) h = None
      /\ exec t (BankAccount.withdraw self amount) h = None).
Proof.
  intros H L Hne. unfold BankAccount.deposit, BankAccount.withdraw, with_lock.
  split; intros Hamt; (destruct (Z.leb_spec amount 0); [|]); try lia.
  - split; reflexivity.
  - simpl. rewrite H. simpl. rewrite L. simpl.
    rewrite decide_False by exact Hne. split; reflexivity.
Qed.

Lemma amount_checked_before_locking_witness :
  exec 0%nat (BankAccount.deposit 0%nat (-5)) [acc_held 1]
  = Some (Raises (ValueError "Deposit amount must be positive."),
          [acc_held 1])
  /\ exec 0%nat (BankAccount.deposit 0%nat 5) [acc_held 1] = None.
Proof.
  destruct (amount_checked_before_locking 0%nat 3%nat 1%nat [acc_held 1]
              0%nat (acc_held 1) (-5) eq_refl eq_refl ltac:(lia)) as [Bad _].
  destruct (amount_checked_before_locking 0%nat 3%nat 1%nat [acc_held 1]
              0%nat (acc_held 1) 5 eq_refl eq_refl ltac:(lia)) as [_ Wait].
  split; [apply Bad; lia|apply Wait; lia].
Defined.

(** X3.  The lock is reentrant: a thread that already holds the account's
    lock can deposit and withdraw; the calls have their usual effect on the
    balance and give the lock back as they found it. *)
Theorem calls_reentrant t h self a n amount :
  h !! self = Some a -> BankAccount.lock a = Some (t, S n) ->
  0 < amount ->
  let b := BankAccount.balance_cents a in
  exec t (BankAccount.deposit self amount) h
  = Some (Returns tt, <[self := set_balance (b + amount) a]> h)
  /\ (amount <= b ->
      exec t (BankAccount.withdraw self amount) h
      = Some (Returns tt, <[self := set_balance (b - amount) a]> h))
  /\ (b < amount ->
      exec t (BankAccount.withdraw self amount) h
      = Some (Raises (InsufficientFundsError "Insufficient funds."), h)).
Proof.
  intros H L Hamt b. unfold BankAccount.deposit, BankAccount.withdraw.
  destruct (Z.leb_spec amount 0); [lia|]. unfold with_lock.
  split; [|split].
  - heap_run. do 2 f_equal. heap_eq self self.
  - intros Hb. heap_run. fold b. destruct (Z.gtb_spec amount b); [lia|].
    heap_run. do 2 f_equal. heap_eq self self.
  - intros Hb. heap_run. fold b. destruct (Z.gtb_spec amount b); [|lia].
    heap_run. do 2 f_equal. heap_eq self self.
Qed.

Lemma calls_reentrant_witness :
  exec 3%nat (BankAccount.deposit 0%nat 30) [acc_held 1]
  = Some (Returns tt,
          [BankAccount.mk (str_of_string "ACC-A") 100 (Some (3%nat, 1%nat))]).
Proof.
  destruct (calls_reentrant 3%nat [acc_held 1] 0%nat (acc_held 1) 0%nat 30
              eq_refl eq_refl ltac:(lia)) as [D _].
  exact D.
Defined.

Lemma exec_perform_numbers t h c r h' :
  unlocked h -> call_ok h c -> exec t (perform c) h = Some (r, h') ->
  forall l a, h !! l = Some a ->
    exists a', h' !! l = Some a'
               /\ BankAccount.account_number a' = BankAccount.account_number a.
Proof.
  intros U Hok E l a Ha.
  destruct (exec_perform t h c U Hok) as (r1 & h1 & E1 & O).
  rewrite E in E1. injection E1 as <- <-.
  destruct O as [c e|n b Hr|self|self a0 amount H0 Hamt|self a0 amount H0 Hamt
                |self other a1 a2 amount H1 H2 Hne Hamt]; eauto.
  - exists a. split; [|reflexivity]. apply lookup_app_l_Some. exact Ha.
  - destruct (decide (self = l)) as [->|].
    + rewrite list_lookup_insert_eq by eauto using lookup_lt_Some.
      eexists. split; [reflexivity|]. simpl. congruence.
    + rewrite list_lookup_insert_ne by assumption. eauto.
  - destruct (decide (self = l)) as [->|].
    + rewrite list_lookup_insert_eq by eauto using lookup_lt_Some.
      eexists. split; [reflexivity|]. simpl. congruence.
    + rewrite list_lookup_insert_ne by assumption. eauto.
  - destruct (decide (other = l)) as [->|].
    + rewrite list_lookup_insert_eq
        by (rewrite length_insert; eauto using lookup_lt_Some).
      eexists. split; [reflexivity|]. simpl. congruence.
    + rewrite list_lookup_insert_ne by assumption.
      destruct (decide (self = l)) as [->|].
      * rewrite list_lookup_insert_eq by eauto using lookup_lt_Some.
        eexists. split; [reflexivity|]. simpl. congruence.
      * rewrite list_lookup_insert_ne by assumption. eauto.
Qed.

(** X4.  Every call gives back the locks it took, on the failing paths as
    on the normal one, and no call removes an account or changes an account
    number: after any constructor, [get_balance], [deposit], [withdraw] or
    [transfer_to] call on a store with no lock held, no lock is held, and
    every account that was there is still there under the same number. *)
Theorem calls_release_locks t h c :
  unlocked h -> call_ok h c ->
  exists r h',
    exec t (perform c) h = Some (r, h')
    /\ unlocked h'
    /\ forall l a, h !! l = Some a ->
         exists a', h' !! l = Some a'
                    /\ BankAccount.account_number a'
                       = BankAccount.account_number a.
Proof.
  intros U Hok. destruct (exec_perform t h c U Hok) as (r & h' & E & O).
  exists r, h'. split; [exact E|]. split.
  - eapply outcome_unlocked; eassumption.
  - eapply exec_perform_numbers; eassumption.
Qed.

Lemma calls_release_locks_witness :
  exists r h',
    exec 0%nat (perform (TransferTo 0%nat (Some 1%nat) 999999)) two_accounts
    = Some (r, h')
    /\ unlocked h'.
Proof.
  destruct (calls_release_locks 0%nat two_accounts
              (TransferTo 0%nat (Some 1%nat) 999999))
    as (r & h' & E & U & _).
  - solve_unlocked.
  - simpl. lia.
  - exists r, h'. split; [exact E|exact U].
Defined.

(** ** How the calls compose *)

Lemma set_balance_set_balance v w a :
  set_balance v (set_balance w a) = set_balance v a.
Proof. reflexivity. Qed.

Lemma set_balance_same a :
  set_balance (BankAccount.balance_cents a) a = a.
Proof. destruct a. reflexivity. Qed.

Lemma lookup_after_insert (h : heap) l a a' :
  h !! l = Some a -> <[l := a']> h !! l = Some a'.
Proof. intros H. apply list_lookup_insert_eq. eauto using lookup_lt_Some. Qed.

(** X5.  A deposit followed by a withdrawal of the same amount restores the
    store exactly, provided the balance is not negative; both calls
    return. *)
Theorem deposit_withdraw_round_trip t h self a amount :
  h !! self = Some a -> BankAccount.lock a = None ->
  0 <= BankAccount.balance_cents a -> 0 < amount ->
  exec t (BankAccount.deposit self amount ;; BankAccount.withdraw self amount)
    h
  = Some (Returns tt, h).
Proof.
  intros H L Hb Hamt. rewrite exec_bind.
  rewrite (exec_deposit t h self a amount H L).
  destruct (Z.leb_spec amount 0); [lia|].
  set (a' := set_balance (BankAccount.balance_cents a + amount) a).
  rewrite (exec_withdraw t (<[self := a']> h) self a' amount
             (lookup_after_insert h self a a' H) L).
  destruct (Z.leb_spec amount 0); [lia|]. simpl.
  destruct (Z.gtb_spec amount (BankAccount.balance_cents a + amount)); [lia|].
  rewrite list_insert_insert_eq. unfold a'. rewrite set_balance_set_balance.
  replace (BankAccount.balance_cents a + amount - amount)
    with (BankAccount.balance_cents a) by lia.
  rewrite set_balance_same, list_insert_id by exact H. reflexivity.
Qed.

Lemma deposit_withdraw_round_trip_witness :
  exec 0%nat (BankAccount.deposit 0%nat 100 ;; BankAccount.withdraw 0%nat 100)
    two_accounts
  = Some (Returns tt, two_accounts).
Proof.
  apply (deposit_withdraw_round_trip 0%nat two_accounts 0%nat acc_a 100
           eq_refl eq_refl); simpl; lia.
Defined.

(** X6.  A transfer moves the money exactly as a withdrawal from the source
    followed by a deposit into the target would: for two distinct accounts
    and any amount, the two leave the same store, and one returns exactly
    when the other does. *)
Theorem transfer_is_withdraw_then_deposit t h self other a1 a2 amount :
  h !! self = Some a1 -> h !! other = Some a2 -> self <> other ->
  BankAccount.lock a1 = None -> BankAccount.lock a2 = None ->
  exists r1 r2 h',
    exec t (BankAccount.transfer_to self (Some other) amount) h
    = Some (r1, h')
    /\ exec t (BankAccount.withdraw self amount ;;
               BankAccount.deposit other amount) h
       = Some (r2, h')
    /\ succeeded r1 = succeeded r2.
Proof.
  intros H1 H2 Hne L1 L2.
  rewrite (exec_transfer_to t h self other a1 a2 amount H1 H2 Hne L1 L2).
  rewrite exec_bind, (exec_withdraw t h self a1 amount H1 L1).
  destruct (Z.leb_spec amount 0);
    [eexists _, _, _; split; [reflexivity|]; split; reflexivity|].
  destruct (Z.gtb_spec amount (BankAccount.balance_cents a1));
    [eexists _, _, _; split; [reflexivity|]; split; reflexivity|].
  assert (H2' : <[self := set_balance (BankAccount.balance_cents a1 - amount)
                            a1]> h !! other = Some a2)
    by (rewrite list_lookup_insert_ne by exact Hne; exact H2).
  rewrite (exec_deposit t _ other a2 amount H2' L2).
  destruct (Z.leb_spec amount 0); [lia|].
  eexists _, _, _; split; [reflexivity|]; split; reflexivity.
Qed.

Lemma transfer_is_withdraw_then_deposit_witness :
  exists r1 r2 h',
    exec 0%nat (BankAccount.transfer_to 0%nat (Some 1%nat) 50) two_accounts
    = Some (r1, h')
    /\ exec 0%nat (BankAccount.withdraw 0%nat 50 ;;
                   BankAccount.deposit 1%nat 50) two_accounts
       = Some (r2, h')
    /\ succeeded r1 = succeeded r2.
Proof.
  apply (transfer_is_withdraw_then_deposit 0%nat two_accounts 0%nat 1%nat
           acc_a acc_b 50 eq_refl eq_refl ltac:(lia) eq_refl eq_refl).
Defined.

(** X7.  A transfer followed by the same transfer in the other direction
    restores the store exactly, provided the source covers the amount and
    the target's balance is not negative; both calls return. *)
Theorem transfer_round_trip t h self other a1 a2 amount :
  h !! self = Some a1 -> h !! other = Some a2 -> self <> other ->
  BankAccount.lock a1 = None -> BankAccount.lock a2 = None ->
  0 < amount <= BankAccount.balance_cents a1 ->
  0 <= BankAccount.balance_cents a2 ->
  exec t (BankAccount.transfer_to self (Some other) amount ;;
          BankAccount.transfer_to other (Some self) amount) h
  = Some (Returns tt, h).
Proof.
  intros H1 H2 Hne L1 L2 Hamt Hb. rewrite exec_bind.
  rewrite (exec_transfer_to t h self other a1 a2 amount H1 H2 Hne L1 L2).
  destruct (Z.leb_spec amount 0); [lia|].
  destruct (Z.gtb_spec amount (BankAccount.balance_cents a1)); [lia|].
  set (a1' := set_balance (BankAccount.balance_cents a1 - amount) a1).
  set (a2' := set_balance (BankAccount.balance_cents a2 + amount) a2).
  assert (H2' : <[other := a2']> (<[self := a1']> h) !! other = Some a2').
  { apply list_lookup_insert_eq. rewrite length_insert.
    eauto using lookup_lt_Some. }
  assert (H1' : <[other := a2']> (<[self := a1']> h) !! self = Some a1').
  { rewrite list_lookup_insert_ne by congruence.
    apply lookup_after_insert with (a := a1). exact H1. }
  rewrite (exec_transfer_to t _ other self a2' a1' amount H2' H1'
             ltac:(congruence) L2 L1).
  destruct (Z.leb_spec amount 0); [lia|]. simpl.
  destruct (Z.gtb_spec amount (BankAccount.balance_cents a2 + amount)); [lia|].
  do 2 f_equal. apply list_eq. intros i.
  destruct (decide (i = self)) as [->|];
    [|destruct (decide (i = other)) as [->|]]; lookup_tac.
  - rewrite H1. f_equal. destruct a1; unfold a1', set_balance; simpl.
    f_equal. lia.
  - rewrite H2. f_equal. destruct a2; unfold a2', set_balance; simpl.
    f_equal. lia.
  - reflexivity.
Qed.

Lemma transfer_round_trip_witness :
  exec 0%nat (BankAccount.transfer_to 0%nat (Some 1%nat) 10 ;;
              BankAccount.transfer_to 1%nat (Some 0%nat) 10) two_accounts
  = Some (Returns tt, two_accounts).
Proof.
  apply (transfer_round_trip 0%nat two_accounts 0%nat 1%nat acc_a acc_b 10
           eq_refl eq_refl ltac:(lia) eq_refl eq_refl); simpl; lia.
Defined.

(** ** Printing an account *)

Lemma str_of_string_inj s s' : str_of_string s = str_of_string s' -> s = s'.
Proof.
  revert s'. induction s as [|c s IH]; intros [|c' s']; simpl;
    try discriminate; [reflexivity|].
  intros [= Hc Hs]. f_equal; [|apply IH, Hs].
  rewrite <- (ascii_N_embedding c), <- (ascii_N_embedding c'), Hc.
  reflexivity.
Qed.

Lemma to_int_printable z : Z.to_int z <> Pos Nil /\ Z.to_int z <> Neg Nil.
Proof.
  destruct z as [|p|p]; simpl; split; try discriminate;
    intros [= E]; exact (DecimalPos.Unsigned.to_uint_nonnil p E).
Qed.

(** [int(str(z)) == z]: the decimal form determines the number. *)
Lemma decimal_inj z z' : decimal z = decimal z' -> z = z'.
Proof.
  unfold decimal. intros E. apply str_of_string_inj in E.
  apply DecimalZ.to_int_inj.
  destruct (to_int_printable z) as [P N], (to_int_printable z') as [P' N'].
  pose proof (NilZero.isi _ P N) as I. rewrite E, (NilZero.isi _ P' N') in I.
  congruence.
Qed.

Lemma framed_inj (p n m q x y : str) :
  p ++ n ++ m ++ x ++ q = p ++ n ++ m ++ y ++ q -> x = y.
Proof.
  intros E. do 3 apply app_inv_head in E. apply app_inv_tail in E. exact E.
Qed.

Lemma exec_str t limit h l x :
  h !! l = Some x -> BankAccount.lock x = None ->
  exec t (__str__ limit l) h
  = if (0 <? limit)%nat && (limit <? digits (BankAccount.balance_cents x))%nat
    then Some (Raises (ValueError
                 ("Exceeds the limit ("
                  ++ NilZero.string_of_uint (Nat.to_uint limit)
                  ++ " digits) for integer string conversion; "
                  ++ "use sys.set_int_max_str_digits() to increase the limit")),
               h)
    else Some (Returns (str_of_string "BankAccount("
                        ++ BankAccount.account_number x
                        ++ str_of_string ", balance_cents="
                        ++ decimal (BankAccount.balance_cents x)
                        ++ str_of_string ")"), h).
Proof.
  intros Hx Lx. unfold __str__. cbn [exec]. rewrite Hx.
  cbn [mbind option_bind].
  rewrite exec_bind, (exec_get_balance t h l x Hx Lx), exec_bind.
  unfold str_of_int.
  destruct ((0 <? limit)%nat
            && (limit <? digits (BankAccount.balance_cents x))%nat);
    reflexivity.
Qed.

(** X8.  [__str__] returns ["BankAccount(<number>, balance_cents=<balance>)"]
    with the balance in decimal, and leaves the store as it was, unless the
    interpreter limits the digits of an integer conversion and the balance
    has more digits than that: then it raises [ValueError], after
    [get_balance] has given the lock back, and the store is as it was.  A
    text that is returned shows the balance faithfully: two accounts with
    the same number print the same text only if their balances are equal.
    [limit] is any value the interpreter's limit can have: 0 for none, or
    at least 640. *)
Theorem str_shows_balance t limit h self a :
  h !! self = Some a -> BankAccount.lock a = None ->
  limit = 0%nat \/ (640 <= limit)%nat ->
  let b := BankAccount.balance_cents a in
  (limit = 0%nat \/ (digits b <= limit)%nat ->
   exec t (__str__ limit self) h
   = Some (Returns (str_of_string "BankAccount("
                    ++ BankAccount.account_number a
                    ++ str_of_string ", balance_cents="
                    ++ decimal b
                    ++ str_of_string ")"), h))
  /\ ((0 < limit < digits b)%nat ->
      exists msg,
        exec t (__str__ limit self) h = Some (Raises (ValueError msg), h))
  /\ forall other a' s,
       h !! other = Some a' -> BankAccount.lock a' = None ->
       BankAccount.account_number a' = BankAccount.account_number a ->
       exec t (__str__ limit self) h = Some (Returns s, h) ->
       exec t (__str__ limit other) h = Some (Returns s, h) ->
       BankAccount.balance_cents a' = b.
Proof.
  intros H L _ b. split; [|split].
  - intros Hl. rewrite (exec_str t limit h self a H L). fold b.
    destruct (Nat.ltb_spec 0 limit) as [Hpos|Hz]; [|reflexivity].
    destruct (Nat.ltb_spec limit (digits b)); [lia|reflexivity].
  - intros [Hpos Hl]. rewrite (exec_str t limit h self a H L). fold b.
    destruct (Nat.ltb_spec 0 limit); [|lia].
    destruct (Nat.ltb_spec limit (digits b)); [|lia].
    eexists. reflexivity.
  - intros other a' s H' L' Hn E1 E2.
    rewrite (exec_str t limit h self a H L) in E1.
    rewrite (exec_str t limit h other a' H' L') in E2.
    destruct ((0 <? limit)%nat
              && (limit <? digits (BankAccount.balance_cents a))%nat);
      [discriminate E1|].
    destruct ((0 <? limit)%nat
              && (limit <? digits (BankAccount.balance_cents a'))%nat);
      [discriminate E2|].
    rewrite Hn in E2. apply decimal_inj. subst b.
    apply (framed_inj (str_of_string "BankAccount(")
             (BankAccount.account_number a)
             (str_of_string ", balance_cents=") (str_of_string ")")).
    congruence.
Qed.

Lemma str_shows_balance_witness :
  exec 0%nat (__str__ 4300 0%nat) two_accounts
  = Some (Returns (str_of_string "BankAccount(ACC-A, balance_cents=100000)"),
          two_accounts)
  /\ exists msg,
       exec 0%nat (__str__ 4300 0%nat)
         [BankAccount.mk (str_of_string "ACC-A") (10 ^ 4300) None]
       = Some (Raises (ValueError msg),
               [BankAccount.mk (str_of_string "ACC-A") (10 ^ 4300) None]).
Proof.
  split.
  - destruct (str_shows_balance 0%nat 4300 two_accounts 0%nat acc_a
                eq_refl eq_refl ltac:(right; lia)) as [E _].
    apply E. right. apply Nat.leb_le. vm_compute. reflexivity.
  - destruct (str_shows_balance 0%nat 4300
                [BankAccount.mk (str_of_string "ACC-A") (10 ^ 4300) None]
                0%nat (BankAccount.mk (str_of_string "ACC-A") (10 ^ 4300) None)
                eq_refl eq_refl ltac:(right; lia)) as (_ & E & _).
    apply E. split; [lia|]. apply Nat.ltb_lt. vm_compute. reflexivity.
Defined.

(** ** User tasks *)

Lemma exec_try_except {A : Type} t (p : prog A) handler h :
  exec t (try_except p handler) h
  = match exec t p h with
    | Some (Raises e, h') =>
        match handler e with
        | Some q => exec t q h'
        | None => Some (Raises e, h')
        end
    | o => o
    end.
Proof.
  revert h. induction p as [a|e|n b k IH|l k IH|l k IH|l v k IH|l k IH|l k IH];
    intros h; simpl; try reflexivity; try apply IH.
  - destruct (handler e); reflexivity.
  - destruct (h !! l); simpl; [apply IH|reflexivity].
  - destruct (h !! l); simpl; [apply IH|reflexivity].
  - destruct (h !! l); simpl; [apply IH|reflexivity].
  - destruct (h !! l) as [a|]; simpl; [|reflexivity].
    destruct (acquire t _); simpl; [apply IH|reflexivity].
  - destruct (h !! l) as [a|]; simpl; [|reflexivity].
    destruct (release t _); simpl; [apply IH|reflexivity].
Qed.

Lemma call_of_ok h u d c :
  task_ok h u -> UserTask.call_of u d = Some c -> worker_call_ok h c.
Proof.
  intros [Hp Hs]. unfold UserTask.call_of.
  destruct (UserTask.chosen d); try (intros [= <-]; split; simpl; auto).
  destruct (UserTask.secondary_account u) as [s|]; [|discriminate].
  intros [= <-]. destruct (UserTask.primary_to_secondary d);
    split; simpl; auto.
Qed.

(** One iteration makes its call, if it has one, and absorbs what the call
    raises. *)
Lemma exec_iteration t u d h :
  unlocked h -> task_ok h u ->
  match UserTask.call_of u d with
  | Some c =>
      exists r h',
        exec t (perform c) h = Some (r, h')
        /\ exec t (UserTask.iteration u d) h = Some (Returns tt, h')
  | None => exec t (UserTask.iteration u d) h = Some (Returns tt, h)
  end.
Proof.
  intros U [Hp Hs]. unfold UserTask.call_of, UserTask.iteration.
  destruct (lookup_valid h _ Hp) as [a Ha]. pose proof (U _ _ Ha) as La.
  destruct (UserTask.chosen d).
  - rewrite exec_try_except. unfold perform.
    rewrite (exec_deposit t h _ a _ Ha La).
    destruct (_ <=? 0); eexists _, _; split; reflexivity.
  - rewrite !exec_try_except. unfold perform.
    rewrite (exec_withdraw t h _ a _ Ha La).
    destruct (_ <=? 0); [eexists _, _; split; reflexivity|].
    destruct (_ >? _); eexists _, _; split; reflexivity.
  - destruct (UserTask.secondary_account u) as [s|]; [|reflexivity].
    destruct (lookup_valid h _ Hs) as [b Hb]. pose proof (U _ _ Hb) as Lb.
    destruct (decide (s = UserTask.primary_account u)) as [->|Hne].
    + destruct (UserTask.primary_to_secondary d);
        rewrite !exec_try_except; unfold perform;
        rewrite exec_self_transfer; eexists _, _; split; reflexivity.
    + destruct (UserTask.primary_to_secondary d);
        rewrite !exec_try_except; unfold perform.
      * rewrite (exec_transfer_to t h _ s a b _ Ha Hb ltac:(congruence) La Lb).
        destruct (_ <=? 0); [eexists _, _; split; reflexivity|].
        destruct (_ >? _); eexists _, _; split; reflexivity.
      * rewrite (exec_transfer_to t h s _ b a _ Hb Ha Hne Lb La).
        destruct (_ <=? 0); [eexists _, _; split; reflexivity|].
        destruct (_ >? _); eexists _, _; split; reflexivity.
Qed.

Lemma task_ok_length (h h' : heap) u :
  (length h <= length h')%nat -> task_ok h u -> task_ok h' u.
Proof.
  intros E [Hp Hs]. split; [lia|].
  destruct (UserTask.secondary_account u); [lia|exact I].
Qed.

Lemma exec_loop t u rand n : forall i h,
  unlocked h -> task_ok h u ->
  exists tr,
    run t (UserTask.calls_from u rand n i) h = Some tr
    /\ exec t (UserTask.loop u rand n i) h = Some (Returns tt, final h tr)
    /\ unlocked (final h tr)
    /\ (nonneg h -> nonneg (final h tr))
    /\ length (final h tr) = length h.
Proof.
  induction n as [|n IH]; intros i h U Hu.
  - exists []. simpl. unfold final. simpl. auto.
  - simpl. rewrite exec_bind.
    pose proof (exec_iteration t u (rand i) h U Hu) as It.
    destruct (UserTask.call_of u (rand i)) as [c|] eqn:Ec.
    + destruct It as (r & h' & E & It). rewrite It.
      destruct (call_of_ok h u _ c Hu Ec) as [Hok Hw].
      destruct (exec_perform t h c U Hok) as (r1 & h1 & E1 & O).
      rewrite E in E1. injection E1 as <- <-.
      assert (Hlen : length h' = length h).
      { destruct O; rewrite ?length_insert; try reflexivity. contradiction. }
      destruct (IH (S i) h') as (tr & Er & El & Ul & Nl & Ll).
      * eapply outcome_unlocked; eassumption.
      * apply (task_ok_length h); [lia|exact Hu].
      * exists ((r, h') :: tr). simpl. rewrite E, Er, !final_cons.
        split; [reflexivity|]. split; [exact El|]. split; [exact Ul|].
        split; [|congruence].
        intros N. apply Nl. eapply outcome_nonneg; eassumption.
    + rewrite It. apply IH; assumption.
Qed.

(** X9.  [UserTask.run] does exactly what its calls would do if made one
    after the other with every exception dropped: for any random values,
    on a store with no lock held, it ends in the store the sequence of its
    calls ends in. *)
Theorem user_task_runs_its_calls t u rand h :
  unlocked h -> task_ok h u ->
  exists tr,
    run t (UserTask.calls u rand) h = Some tr
    /\ exec t (UserTask.run u rand) h = Some (Returns tt, final h tr).
Proof.
  intros U Hu.
  destruct (exec_loop t u rand (UserTask.operations u) 0%nat h U Hu)
    as (tr & Er & El & _).
  exists tr. split; [exact Er|exact El].
Qed.

(** X10.  [UserTask.run] never lets an exception escape, whatever the
    random values are (also amounts outside the range, or a secondary
    account equal to the primary one): it returns, holds no lock at the
    end, has created no account, and has kept every balance at least 0 if
    they were so at the start. *)
Theorem user_task_never_raises t u rand h :
  unlocked h -> task_ok h u ->
  exists h',
    exec t (UserTask.run u rand) h = Some (Returns tt, h')
    /\ unlocked h'
    /\ (nonneg h -> nonneg h')
    /\ length h' = length h.
Proof.
  intros U Hu.
  destruct (exec_loop t u rand (UserTask.operations u) 0%nat h U Hu)
    as (tr & _ & El & Ul & Nl & Ll).
  exists (final h tr). auto.
Qed.

Lemma user_task_runs_its_calls_witness :
  exists tr,
    run 0%nat (UserTask.calls sample_task sample_rand) two_accounts = Some tr
    /\ exec 0%nat (UserTask.run sample_task sample_rand) two_accounts
       = Some (Returns tt, final two_accounts tr).
Proof.
  apply (user_task_runs_its_calls 0%nat sample_task sample_rand two_accounts).
  - solve_unlocked.
  - split; simpl; lia.
Defined.

Lemma user_task_never_raises_witness :
  exists h',
    exec 0%nat (UserTask.run sample_task sample_rand) two_accounts
    = Some (Returns tt, h')
    /\ unlocked h'.
Proof.
  destruct (user_task_never_raises 0%nat sample_task sample_rand two_accounts)
    as (h' & E & U & _).
  - solve_unlocked.
  - split; simpl; lia.
  - exists h'. split; [exact E|exact U].
Defined.

Lemma call_no_ValueError t u d h c r h' :
  unlocked h -> task_ok h u -> UserTask.in_range d ->
  UserTask.secondary_account u <> Some (UserTask.primary_account u) ->
  UserTask.call_of u d = Some c -> exec t (perform c) h = Some (r, h') ->
  no_ValueError r.
Proof.
  intros U [Hp Hs] [Hlo Hhi] Hne. unfold UserTask.call_of.
  destruct (lookup_valid h _ Hp) as [a Ha]. pose proof (U _ _ Ha) as La.
  assert (Hpos : (UserTask.amount_cents d <=? 0) = false)
    by (apply Z.leb_gt; lia).
  destruct (UserTask.chosen d).
  - intros [= <-]. unfold perform.
    rewrite (exec_deposit t h _ a _ Ha La), Hpos. intros [= <- _]. exact I.
  - intros [= <-]. unfold perform.
    rewrite (exec_withdraw t h _ a _ Ha La), Hpos.
    destruct (_ >? _); intros [= <- _]; exact I.
  - destruct (UserTask.secondary_account u) as [s|]; [|discriminate].
    destruct (lookup_valid h _ Hs) as [b Hb]. pose proof (U _ _ Hb) as Lb.
    assert (Hd : s <> UserTask.primary_account u) by congruence.
    intros [= <-]. destruct (UserTask.primary_to_secondary d); unfold perform.
    + rewrite (exec_transfer_to t h _ s a b _ Ha Hb ltac:(congruence) La Lb),
        Hpos.
      destruct (_ >? _); intros [= <- _]; exact I.
    + rewrite (exec_transfer_to t h s _ b a _ Hb Ha Hd Lb La), Hpos.
      destruct (_ >? _); intros [= <- _]; exact I.
Qed.

Lemma calls_no_ValueError t u rand n : forall i h,
  unlocked h -> task_ok h u -> (forall j, UserTask.in_range (rand j)) ->
  UserTask.secondary_account u <> Some (UserTask.primary_account u) ->
  exists tr,
    run t (UserTask.calls_from u rand n i) h = Some tr
    /\ Forall (fun e => no_ValueError (fst e)) tr.
Proof.
  induction n as [|n IH]; intros i h U Hu Hr Hne.
  - exists []. split; [reflexivity|constructor].
  - simpl. destruct (UserTask.call_of u (rand i)) as [c|] eqn:Ec;
      [|apply IH; assumption].
    destruct (call_of_ok h u _ c Hu Ec) as [Hok Hw].
    destruct (exec_perform t h c U Hok) as (r & h' & E & O).
    destruct (IH (S i) h') as (tr & Er & Ft); try assumption.
    + eapply outcome_unlocked; eassumption.
    + apply (task_ok_length h); [|exact Hu].
      eapply outcome_length; eassumption.
    + exists ((r, h') :: tr). simpl. rewrite E, Er.
      split; [reflexivity|]. constructor; [|exact Ft].
      simpl. exact (call_no_ValueError t u (rand i) h c r h' U Hu (Hr i) Hne Ec E).
Qed.

(** X11.  The [except ValueError] of [UserTask.run] is never needed: when
    every amount is one that [random.randint(100, 10_000)] can return and
    the secondary account is not the primary one, none of the calls of the
    task raises [ValueError]; each returns or raises
    [InsufficientFundsError]. *)
Theorem user_task_no_ValueError t u rand h :
  unlocked h -> task_ok h u -> (forall j, UserTask.in_range (rand j)) ->
  UserTask.secondary_account u <> Some (UserTask.primary_account u) ->
  exists tr,
    run t (UserTask.calls u rand) h = Some tr
    /\ Forall (fun e => no_ValueError (fst e)) tr.
Proof. intros U Hu Hr Hne. apply calls_no_ValueError; assumption. Qed.

Lemma user_task_no_ValueError_witness :
  exists tr,
    run 0%nat (UserTask.calls sample_task sample_rand) two_accounts = Some tr
    /\ Forall (fun e => no_ValueError (fst e)) tr.
Proof.
  apply (user_task_no_ValueError 0%nat sample_task sample_rand two_accounts).
  - solve_unlocked.
  - split; simpl; lia.
  - intros [|[|[|j]]]; unfold UserTask.in_range; simpl; lia.
  - discriminate.
Defined.

(** ** The simulator *)

(** X12.  [TransactionSimulator.__init__] creates account "ACC-001" and then
    account "ACC-002", both with a free lock.  It fails with [ValueError]
    exactly when one of the two initial balances is negative; when only the
    second one is, the first account has already been added to the store. *)
Theorem simulator_init t (h : heap) a b users ops :
  (a < 0 ->
   exec t (TransactionSimulator.__init__ a b users ops) h
   = Some (Raises (ValueError "Initial balance cannot be negative."), h))
  /\ (0 <= a -> b < 0 ->
      exec t (TransactionSimulator.__init__ a b users ops) h
      = Some (Raises (ValueError "Initial balance cannot be negative."),
              h ++ [BankAccount.mk (str_of_string "ACC-001") a None]))
  /\ (0 <= a -> 0 <= b ->
      exec t (TransactionSimulator.__init__ a b users ops) h
      = Some (Returns (TransactionSimulator.mk (length h) (S (length h))
                         users ops),
              h ++ [BankAccount.mk (str_of_string "ACC-001") a None;
                    BankAccount.mk (str_of_string "ACC-002") b None])).
Proof.
  unfold TransactionSimulator.__init__, BankAccount.__init__.
  change (negb (truthy (str_of_string "ACC-001"))
          || negb (truthy (strip (str_of_string "ACC-001")))) with false.
  change (negb (truthy (str_of_string "ACC-002"))
          || negb (truthy (strip (str_of_string "ACC-002")))) with false.
  cbv iota. split; [|split].
  - intros Ha. destruct (Z.ltb_spec a 0); [reflexivity|lia].
  - intros Ha Hb. destruct (Z.ltb_spec a 0); [lia|].
    destruct (Z.ltb_spec b 0); [reflexivity|lia].
  - intros Ha Hb. destruct (Z.ltb_spec a 0); [lia|].
    destruct (Z.ltb_spec b 0); [lia|]. simpl.
    rewrite length_app, <- app_assoc. simpl.
    replace (length h + 1)%nat with (S (length h)) by lia. reflexivity.
Qed.

Lemma simulator_init_witness :
  exec 0%nat (TransactionSimulator.__init__ 100000 (-1) 20 1000) two_accounts
  = Some (Raises (ValueError "Initial balance cannot be negative."),
          two_accounts ++ [BankAccount.mk (str_of_string "ACC-001") 100000 None])
  /\ exec 0%nat (TransactionSimulator.__init__ 100000 100000 20 1000) []
     = Some (Returns (TransactionSimulator.mk 0 1 20 1000),
             [BankAccount.mk (str_of_string "ACC-001") 100000 None;
              BankAccount.mk (str_of_string "ACC-002") 100000 None]).
Proof.
  split.
  - destruct (simulator_init 0%nat two_accounts 100000 (-1) 20 1000)
      as (_ & E & _).
    apply E; lia.
  - destruct (simulator_init 0%nat [] 100000 100000 20 1000) as (_ & _ & E).
    apply E; lia.
Defined.

(** X13.  [total_balance] returns the sum of the two balances of the
    simulator and leaves the store as it was. *)
Theorem simulator_total_balance t h sim a b :
  h !! TransactionSimulator.account_a sim = Some a ->
  h !! TransactionSimulator.account_b sim = Some b ->
  BankAccount.lock a = None -> BankAccount.lock b = None ->
  exec t (TransactionSimulator.total_balance sim) h
  = Some (Returns (BankAccount.balance_cents a + BankAccount.balance_cents b),
          h).
Proof.
  intros Ha Hb La Lb. unfold TransactionSimulator.total_balance.
  rewrite exec_bind, (exec_get_balance t h _ a Ha La).
  rewrite exec_bind, (exec_get_balance t h _ b Hb Lb). reflexivity.
Qed.

Lemma simulator_total_balance_witness :
  exec 0%nat
    (TransactionSimulator.total_balance (TransactionSimulator.mk 0 1 20 1000))
    two_accounts
  = Some (Returns 300000, two_accounts).
Proof.
  apply (simulator_total_balance 0%nat two_accounts
           (TransactionSimulator.mk 0 1 20 1000) acc_a acc_b
           eq_refl eq_refl eq_refl eq_refl).
Defined.

Lemma calls_from_ok h u rand n : forall i,
  task_ok h u -> Forall (worker_call_ok h) (UserTask.calls_from u rand n i).
Proof.
  induction n as [|n IH]; intros i Hu; simpl; [constructor|].
  destruct (UserTask.call_of u (rand i)) as [c|] eqn:Ec; [|apply IH, Hu].
  constructor; [eapply call_of_ok; eassumption|apply IH, Hu].
Qed.

Lemma calls_from_length u rand n : forall i,
  (length (UserTask.calls_from u rand n i) <= n)%nat.
Proof.
  induction n as [|n IH]; intros i; simpl; [lia|].
  destruct (UserTask.call_of u (rand i)); simpl; specialize (IH (S i)); lia.
Qed.

Lemma calls_from_transfers u rand n : forall i,
  only_transfers rand -> Forall is_transfer (UserTask.calls_from u rand n i).
Proof.
  induction n as [|n IH]; intros i Hr; simpl; [constructor|].
  unfold UserTask.call_of. rewrite (Hr i).
  destruct (UserTask.secondary_account u); [|apply IH, Hr].
  constructor; [|apply IH, Hr].
  destruct (UserTask.primary_to_secondary (rand i)); exact I.
Qed.

Lemma sum_list_bound (l : list nat) k :
  Forall (fun x => (x <= k)%nat) l -> (sum_list l <= length l * k)%nat.
Proof. induction 1; simpl; lia. Qed.

(** The jobs of the threads of a simulator. *)
Lemma simulator_jobs sim rand (P : list call -> Prop) :
  (forall i u, u ∈ TransactionSimulator.user_threads sim ->
               P (UserTask.calls u (rand i))) ->
  Forall P (imap (fun i u => UserTask.calls u (rand i))
              (TransactionSimulator.user_threads sim)).
Proof.
  intros H. apply Forall_forall. intros cs Hcs.
  apply list_elem_of_In, list_elem_of_lookup in Hcs as [i Hi].
  rewrite list_lookup_imap in Hi.
  destruct (TransactionSimulator.user_threads sim !! i) as [u|] eqn:Hu;
    [|discriminate].
  injection Hi as <-. apply H, list_elem_of_lookup. eauto.
Qed.

Lemma simulator_thread sim u :
  u ∈ TransactionSimulator.user_threads sim ->
  u = UserTask.mk (TransactionSimulator.account_a sim)
        (Some (TransactionSimulator.account_b sim))
        (TransactionSimulator.operations_per_user sim).
Proof.
  unfold TransactionSimulator.user_threads. intros H.
  apply list_elem_of_In, in_map_iff in H as (i & <- & _). reflexivity.
Qed.

(** *** Accounts the workers do not use *)

Lemma confined_bind {A B : Type} ls (p : prog A) (f : A -> prog B) :
  confined ls p -> (forall a, confined ls (f a)) -> confined ls (bind p f).
Proof.
  intros Hp Hf. induction Hp; simpl; try constructor; auto.
Qed.

Lemma confined_finally {A : Type} ls (p : prog A) l :
  l ∈ ls -> confined ls p -> confined ls (finally p l).
Proof.
  intros Hl Hp. induction Hp; simpl; repeat constructor; auto.
Qed.

Lemma confined_with_lock {A : Type} ls (p : prog A) l :
  l ∈ ls -> confined ls p -> confined ls (with_lock l p).
Proof.
  intros Hl Hp. unfold with_lock. constructor; [exact Hl|].
  apply confined_finally; assumption.
Qed.

Lemma perform_confined ls c : call_within ls c -> confined ls (perform c).
Proof.
  destruct c as [n b|self|self amount|self amount|self [other|] amount];
    simpl; intros H.
  - destruct H.
  - repeat (constructor; try exact H; intros).
  - unfold BankAccount.deposit. destruct (amount <=? 0); [constructor|].
    apply confined_with_lock; repeat constructor; exact H.
  - unfold BankAccount.withdraw. destruct (amount <=? 0); [constructor|].
    apply confined_with_lock; [exact H|]. constructor; [exact H|].
    intros v. destruct (amount >? v); repeat constructor; exact H.
  - destruct H as [Hs Ho]. unfold BankAccount.transfer_to.
    destruct (decide (other = self)); [constructor|].
    destruct (amount <=? 0); [constructor|].
    constructor; [exact Hs|]. intros x. constructor; [exact Ho|]. intros y.
    assert (Body : confined ls
              (LoadBalance self (fun b =>
                 if amount >? b
                 then Raise (InsufficientFundsError
                               "Insufficient funds for transfer.")
                 else BankAccount.__withdraw_unlocked self amount ;;
                      BankAccount.__deposit_unlocked other amount))).
    { constructor; [exact Hs|]. intros v.
      destruct (amount >? v); [constructor|].
      apply confined_bind; [|intros _]; repeat constructor; assumption. }
    destruct (str_lt x y); repeat apply confined_with_lock; assumption.
  - constructor.
Qed.

(** An action on an account of [ls] is the same in two stores that agree
    there, and leaves the other accounts alone. *)
Lemma act_agree {A : Type} t ls (p p' : prog A) h h' h1 :
  confined ls p -> agree ls h h' -> act t p h = Some (p', h1) ->
  confined ls p'
  /\ length h1 = length h
  /\ (forall l, l ∉ ls -> h1 !! l = h !! l)
  /\ exists h1', act t p h' = Some (p', h1') /\ agree ls h1 h1'.
Proof.
  intros C G E.
  assert (Ins : forall l (x : BankAccount.t),
            l ∈ ls -> is_Some (h !! l) ->
            length (<[l := x]> h) = length h
            /\ (forall l', l' ∉ ls -> <[l := x]> h !! l' = h !! l')
            /\ agree ls (<[l := x]> h) (<[l := x]> h')).
  { intros l x Hl Hx. split; [apply length_insert|]. split.
    - intros l' Hl'. apply list_lookup_insert_ne. congruence.
    - intros l' Hl'. destruct (decide (l = l')) as [<-|Hne].
      + rewrite !list_lookup_insert_eq; [reflexivity| |].
        * apply lookup_lt_is_Some. rewrite <- (G l Hl). exact Hx.
        * apply lookup_lt_is_Some. exact Hx.
      + rewrite !list_lookup_insert_ne by exact Hne. apply G, Hl'. }
  destruct C as [a|e|l k Hl Hk|l k Hl Hk|l v k Hl Hk|l k Hl Hk|l k Hl Hk];
    simpl in E; try discriminate; simpl; rewrite <- (G l Hl);
    destruct (h !! l) as [a|] eqn:Ha; try discriminate; simpl in E |- *.
  - injection E as <- <-. eauto 10.
  - injection E as <- <-. eauto 10.
  - injection E as <- <-.
    destruct (Ins l (set_balance v a) Hl) as (I1 & I2 & I3); eauto 10.
  - destruct (acquire t (BankAccount.lock a)) as [r|]; [|discriminate].
    simpl in E |- *. injection E as <- <-.
    destruct (Ins l (set_lock r a) Hl) as (I1 & I2 & I3); eauto 10.
  - destruct (release t (BankAccount.lock a)) as [r|]; [|discriminate].
    simpl in E |- *. injection E as <- <-.
    destruct (Ins l (set_lock r a) Hl) as (I1 & I2 & I3); eauto 10.
Qed.

Lemma step_alike ls t c c' c1 :
  alike ls c c' -> step t c = Some c1 ->
  length (store c1) = length (store c)
  /\ (forall l, l ∉ ls -> store c1 !! l = store c !! l)
  /\ exists c1', step t c' = Some c1' /\ alike ls c1 c1'.
Proof.
  intros [W G C] S. unfold step in *. rewrite <- W.
  destruct (workers c !! t) as [w|] eqn:Hw; [|discriminate]. simpl in *.
  destruct (C t w Hw) as [Cw Ct].
  assert (Upd : forall p td,
            confined ls p -> Forall (call_within ls) td ->
            forall h, within ls (mk_config h
                           (<[t := mk_worker p td]> (workers c)))).
  { intros p td Hp Htd h u wu Hu. simpl in Hu.
    destruct (decide (u = t)) as [->|Hne].
    - rewrite list_lookup_insert_eq in Hu by eauto using lookup_lt_Some.
      injection Hu as <-. auto.
    - rewrite list_lookup_insert_ne in Hu by congruence. exact (C u wu Hu). }
  destruct (returned (current w)).
  - destruct (todo w) as [|next rest]; [discriminate|].
    injection S as <-. simpl. split; [reflexivity|]. split; [reflexivity|].
    eexists. split; [reflexivity|].
    inversion Ct as [|? ? Hnext Hrest]; subst.
    constructor; simpl; [reflexivity|exact G|].
    apply Upd; [apply perform_confined, Hnext|exact Hrest].
  - destruct (act t (current w) (store c)) as [[p h1]|] eqn:A;
      [|discriminate].
    simpl in S. injection S as <-. simpl.
    destruct (act_agree t ls _ _ _ _ _ Cw G A)
      as (Cp & Len & Fr & h1' & A' & G').
    split; [exact Len|]. split; [exact Fr|].
    rewrite A'. simpl. eexists. split; [reflexivity|].
    constructor; simpl; [reflexivity|exact G'|]. apply Upd; assumption.
Qed.

Lemma schedule_alike ls s : forall c c' c1,
  alike ls c c' -> schedule s c = Some c1 ->
  length (store c1) = length (store c)
  /\ (forall l, l ∉ ls -> store c1 !! l = store c !! l)
  /\ exists c1', schedule s c' = Some c1' /\ alike ls c1 c1'.
Proof.
  induction s as [|t s IH]; intros c c' c1 R S; simpl in S.
  - injection S as <-. simpl. eauto.
  - destruct (step t c) as [c2|] eqn:E; [|discriminate]. simpl in S.
    destruct (step_alike ls t c c' c2 R E) as (L2 & F2 & c2' & E' & R2).
    destruct (IH c2 c2' c1 R2 S) as (L1 & F1 & c1' & S' & R1).
    split; [congruence|]. split.
    + intros l Hl. rewrite (F1 l Hl). apply F2, Hl.
    + exists c1'. simpl. rewrite E'. auto.
Qed.

Lemma alike_sym ls c c' : alike ls c c' -> alike ls c' c.
Proof.
  intros [W G C]. constructor; [congruence| |].
  - intros l Hl. symmetry. apply G, Hl.
  - intros t w Hw. rewrite <- W in Hw. exact (C t w Hw).
Qed.

Lemma alike_deadlocked ls c c' : alike ls c c' -> deadlocked c -> deadlocked c'.
Proof.
  intros R [Stuck Left]. split.
  - intros t. destruct (step t c') as [c1'|] eqn:E; [|reflexivity].
    destruct (step_alike ls t c' c c1' (alike_sym _ _ _ R) E)
      as (_ & _ & c1 & E1 & _).
    rewrite Stuck in E1. discriminate.
  - rewrite <- (alike_workers _ _ _ R). exact Left.
Qed.

Lemma spawn_alike ls h h' jobs :
  agree ls h h' -> Forall (Forall (call_within ls)) jobs ->
  alike ls (spawn h jobs) (spawn h' jobs).
Proof.
  intros G J. constructor; simpl; [reflexivity|exact G|].
  intros t w Hw. simpl in Hw. rewrite list_lookup_fmap in Hw.
  destruct (jobs !! t) as [cs|] eqn:Hcs; [|discriminate].
  injection Hw as <-. simpl. split; [constructor|].
  rewrite Forall_forall in J. apply J, list_elem_of_In, list_elem_of_lookup.
  eauto.
Qed.

Lemma total_balance_app (h h' : heap) :
  total_balance (h ++ h') = total_balance h + total_balance h'.
Proof. induction h as [|a h IH]; simpl; [reflexivity|]. rewrite IH. lia. Qed.

(** *** The store of a simulator *)

Lemma placeholders_length n : length (placeholders n) = n.
Proof. unfold placeholders. rewrite length_map, length_seq. reflexivity. Qed.

Lemma placeholders_lookup n l x :
  placeholders n !! l = Some x -> x = placeholder l.
Proof.
  unfold placeholders. rewrite list_lookup_fmap. intros H.
  destruct (seq 0 n !! l) as [i|] eqn:Hi; [|discriminate].
  apply lookup_seq in Hi as [-> _]. injection H as <-. reflexivity.
Qed.

(** The objects of a store that ends with the two accounts of a
    simulator. *)
Lemma simulator_lookup (h0 : heap) x y l z :
  (h0 ++ [x; y]) !! l = Some z ->
  ((l < length h0)%nat /\ h0 !! l = Some z)
  \/ (l = length h0 /\ z = x) \/ (l = S (length h0) /\ z = y).
Proof.
  intros H. destruct (decide (l < length h0)%nat) as [Hlt|Hge].
  - rewrite lookup_app_l in H by exact Hlt. auto.
  - rewrite lookup_app_r in H by lia. right.
    destruct (l - length h0)%nat as [|[|i]] eqn:E; simpl in H;
      [| |discriminate]; injection H as <-; [left|right]; split;
      (lia || reflexivity).
Qed.

Lemma simulator_store_unique n a b :
  unique_numbers (placeholders n
                  ++ [BankAccount.mk (str_of_string "ACC-001") a None;
                      BankAccount.mk (str_of_string "ACC-002") b None]).
Proof.
  intros l l' x x' H H' E.
  apply simulator_lookup in H, H'. rewrite placeholders_length in H, H'.
  destruct H as [[Hl H]|[[-> ->]|[-> ->]]],
           H' as [[Hl' H']|[[-> ->]|[-> ->]]];
    try apply placeholders_lookup in H; try apply placeholders_lookup in H';
    subst; simpl in E; try reflexivity; try discriminate E;
    apply (f_equal length) in E; simpl in E;
    rewrite ?length_replicate in E; lia.
Qed.

Lemma simulator_store_unlocked n a b :
  unlocked (placeholders n
            ++ [BankAccount.mk (str_of_string "ACC-001") a None;
                BankAccount.mk (str_of_string "ACC-002") b None]).
Proof.
  intros l x H. apply simulator_lookup in H.
  destruct H as [[_ H]|[[_ ->]|[_ ->]]]; [|reflexivity|reflexivity].
  apply placeholders_lookup in H. subst. reflexivity.
Qed.

Lemma simulator_store_nonneg n a b :
  0 <= a -> 0 <= b ->
  nonneg (placeholders n
          ++ [BankAccount.mk (str_of_string "ACC-001") a None;
              BankAccount.mk (str_of_string "ACC-002") b None]).
Proof.
  intros Ha Hb l x H. apply simulator_lookup in H.
  destruct H as [[_ H]|[[_ ->]|[_ ->]]]; [|exact Ha|exact Hb].
  apply placeholders_lookup in H. subst. simpl. lia.
Qed.

(** A simulator made in the store [h0], and the store it leaves. *)
Lemma simulator_made t a b users ops h0 sim h :
  exec t (TransactionSimulator.__init__ a b users ops) h0
  = Some (Returns sim, h) ->
  0 <= a /\ 0 <= b
  /\ sim = TransactionSimulator.mk (length h0) (S (length h0)) users ops
  /\ h = h0 ++ [BankAccount.mk (str_of_string "ACC-001") a None;
                BankAccount.mk (str_of_string "ACC-002") b None].
Proof.
  unfold TransactionSimulator.__init__, BankAccount.__init__.
  change (negb (truthy (str_of_string "ACC-001"))
          || negb (truthy (strip (str_of_string "ACC-001")))) with false.
  change (negb (truthy (str_of_string "ACC-002"))
          || negb (truthy (strip (str_of_string "ACC-002")))) with false.
  cbv iota. intros E.
  destruct (Z.ltb_spec a 0) as [Ha|Ha]; [discriminate E|].
  destruct (Z.ltb_spec b 0) as [Hb|Hb]; [discriminate E|].
  simpl in E. rewrite length_app, <- app_assoc in E. simpl in E.
  replace (length h0 + 1)%nat with (S (length h0)) in E by lia.
  injection E as <- <-. auto.
Qed.

Lemma calls_from_within ls u rand n : forall i,
  UserTask.primary_account u ∈ ls ->
  (forall o, UserTask.secondary_account u = Some o -> o ∈ ls) ->
  Forall (call_within ls) (UserTask.calls_from u rand n i).
Proof.
  induction n as [|n IH]; intros i Hp Hs; simpl; [constructor|].
  unfold UserTask.call_of.
  destruct (UserTask.chosen (rand i));
    [constructor; [exact Hp|apply IH; assumption]
    |constructor; [exact Hp|apply IH; assumption]|].
  destruct (UserTask.secondary_account u) as [o|] eqn:Eo;
    [|apply IH; assumption].
  constructor; [|apply IH; assumption].
  specialize (Hs o eq_refl).
  destruct (UserTask.primary_to_secondary (rand i)); simpl; auto.
Qed.

(** The calls of the threads of a simulator are made on its two accounts. *)
Lemma simulator_calls_within sim rand :
  Forall (Forall (call_within [TransactionSimulator.account_a sim;
                               TransactionSimulator.account_b sim]))
    (imap (fun i u => UserTask.calls u (rand i))
       (TransactionSimulator.user_threads sim)).
Proof.
  apply simulator_jobs. intros i u Hu. rewrite (simulator_thread sim u Hu).
  apply calls_from_within; simpl.
  - apply list_elem_of_In. simpl. auto.
  - intros o [= <-]. apply list_elem_of_In. simpl. auto.
Qed.

(** The threads of a simulator made in the store [h0] do, step for step,
    what they do when the other accounts are replaced by placeholders, and
    they leave the other accounts alone. *)
Lemma simulator_alike a b users ops rand (h0 : heap) s c :
  let A := BankAccount.mk (str_of_string "ACC-001") a None in
  let B := BankAccount.mk (str_of_string "ACC-002") b None in
  let sim := TransactionSimulator.mk (length h0) (S (length h0)) users ops in
  let ls := [length h0; S (length h0)] in
  schedule s (TransactionSimulator.started sim rand (h0 ++ [A; B])) = Some c ->
  length (store c) = S (S (length h0))
  /\ (forall l, (l < length h0)%nat -> store c !! l = h0 !! l)
  /\ exists c',
       schedule s (TransactionSimulator.started sim rand
                     (placeholders (length h0) ++ [A; B])) = Some c'
       /\ alike ls c c'.
Proof.
  intros A B sim ls S. unfold TransactionSimulator.started in *.
  assert (G : agree ls (h0 ++ [A; B])
                (placeholders (length h0) ++ [A; B])).
  { intros l Hl. apply list_elem_of_In in Hl. simpl in Hl.
    rewrite !lookup_app_r by (rewrite ?placeholders_length; lia).
    rewrite placeholders_length. reflexivity. }
  destruct (schedule_alike ls s _ _ c
              (spawn_alike ls _ _ _ G (simulator_calls_within sim rand)) S)
    as (Len & Fr & c' & S' & R).
  simpl in Len, Fr. rewrite length_app in Len. simpl in Len.
  split; [lia|]. split; [|eauto].
  intros l Hl. rewrite Fr.
  - apply lookup_app_l, Hl.
  - intros Hin. apply list_elem_of_In in Hin. simpl in Hin. lia.
Qed.

(** X14.  The simulation cannot deadlock and always ends.  For a simulator
    made by [__init__] in any store, whatever the other accounts of that
    store and their locks, the balances, the number of users, the number of
    operations and the random values: after any steps of its threads the
    threads are not deadlocked, they have taken at most 12 steps per
    operation, they can go on until every thread has finished (so that
    every [join] returns), the balances of the two accounts of the
    simulator are at least 0, and the other accounts of the store are as
    they were. *)
Theorem simulator_never_deadlocks t a b users ops rand h0 sim h :
  exec t (TransactionSimulator.__init__ a b users ops) h0
  = Some (Returns sim, h) ->
  forall s c,
    schedule s (TransactionSimulator.started sim rand h) = Some c ->
    ~ deadlocked c
    /\ (length s <= 12 * (users * ops))%nat
    /\ (exists s' c',
          schedule s' c = Some c'
          /\ forall w, w ∈ workers c' -> finished w = true)
    /\ (exists x y,
          balance (store c) (TransactionSimulator.account_a sim) = Some x
          /\ balance (store c) (TransactionSimulator.account_b sim) = Some y
          /\ 0 <= x /\ 0 <= y)
    /\ (forall l, (l < length h0)%nat -> store c !! l = h0 !! l).
Proof.
  intros E s c Hs.
  destruct (simulator_made _ _ _ _ _ _ _ _ E) as (Ha & Hb & -> & ->).
  destruct (simulator_alike a b users ops rand h0 s c Hs)
    as (Len & Fr & c' & S' & R).
  set (sim := TransactionSimulator.mk (length h0) (S (length h0)) users ops)
    in *.
  set (hc := placeholders (length h0)
             ++ [BankAccount.mk (str_of_string "ACC-001") a None;
                 BankAccount.mk (str_of_string "ACC-002") b None]) in *.
  assert (J : Forall (Forall (worker_call_ok hc))
                (imap (fun i u => UserTask.calls u (rand i))
                   (TransactionSimulator.user_threads sim))).
  { apply simulator_jobs. intros i u Hu.
    rewrite (simulator_thread sim u Hu). apply calls_from_ok.
    subst hc. split; simpl; rewrite length_app, placeholders_length;
      simpl; lia. }
  unfold TransactionSimulator.started in S'.
  destruct (workers_never_stuck hc _ s c'
              (simulator_store_unlocked _ a b)
              (simulator_store_unique _ a b) J S')
    as (Free & Len' & s' & c1' & S1' & Fin).
  split; [|split; [|split; [|split; [|exact Fr]]]].
  - intros D. exact (Free (alike_deadlocked _ _ _ R D)).
  - eapply Nat.le_trans; [exact Len'|].
    apply Nat.mul_le_mono_l.
    eapply Nat.le_trans; [apply sum_list_bound with (k := ops)|].
    + apply Forall_fmap. apply simulator_jobs. intros i u Hu. simpl.
      rewrite (simulator_thread sim u Hu). apply calls_from_length.
    + rewrite length_fmap, length_imap.
      unfold TransactionSimulator.user_threads.
      rewrite length_map, length_seq. simpl. lia.
  - destruct (schedule_alike _ s' c' c c1' (alike_sym _ _ _ R) S1')
      as (_ & _ & c1 & S1 & R1).
    exists s', c1. split; [exact S1|].
    rewrite <- (alike_workers _ _ _ R1). exact Fin.
  - pose proof (concurrent_nonneg hc _ s c'
                  (simulator_store_nonneg _ a b Ha Hb) J S') as N.
    pose proof (alike_store _ _ _ R) as G.
    destruct (lookup_lt_is_Some_2 (store c) (length h0)) as [x Hx]; [lia|].
    destruct (lookup_lt_is_Some_2 (store c) (S (length h0))) as [y Hy];
      [lia|].
    exists (BankAccount.balance_cents x), (BankAccount.balance_cents y).
    simpl. rewrite (balance_Some _ _ _ Hx), (balance_Some _ _ _ Hy).
    split; [reflexivity|]. split; [reflexivity|].
    rewrite G in Hx, Hy by (apply list_elem_of_In; simpl; auto).
    split; eapply N; eassumption.
Qed.

(** X15.  When every draw of every thread is a transfer, the simulation
    ends with the total it started with: for a simulator made by [__init__]
    in any store with balances [a] and [b], whenever every thread is
    between two operations the balances of its two accounts add up to
    [a + b]. *)
Theorem simulator_transfers_conserve t a b users ops rand h0 sim h :
  exec t (TransactionSimulator.__init__ a b users ops) h0
  = Some (Returns sim, h) ->
  (forall i, only_transfers (rand i)) ->
  forall s c,
    schedule s (TransactionSimulator.started sim rand h) = Some c ->
    quiescent c = true ->
    exists x y,
      balance (store c) (TransactionSimulator.account_a sim) = Some x
      /\ balance (store c) (TransactionSimulator.account_b sim) = Some y
      /\ x + y = a + b.
Proof.
  intros E Hr s c Hs Q.
  destruct (simulator_made _ _ _ _ _ _ _ _ E) as (Ha & Hb & -> & ->).
  destruct (simulator_alike a b users ops rand h0 s c Hs) as (Len & Fr & _).
  unfold TransactionSimulator.started in Hs.
  assert (J : Forall (Forall is_transfer)
                (imap (fun i u => UserTask.calls u (rand i))
                   (TransactionSimulator.user_threads
                      (TransactionSimulator.mk (length h0) (S (length h0))
                         users ops)))).
  { apply simulator_jobs. intros i u Hu. apply calls_from_transfers, Hr. }
  pose proof (concurrent_conservation _ _ s c J Hs Q) as T.
  destruct (lookup_lt_is_Some_2 (store c) (length h0)) as [x Hx]; [lia|].
  destruct (lookup_lt_is_Some_2 (store c) (S (length h0))) as [y Hy]; [lia|].
  assert (St : store c = h0 ++ [x; y]).
  { apply list_eq. intros l.
    destruct (decide (l < length h0)%nat) as [Hl|Hl].
    - rewrite lookup_app_l by exact Hl. apply Fr, Hl.
    - rewrite lookup_app_r by lia.
      destruct (l - length h0)%nat as [|[|i]] eqn:El; simpl.
      + replace l with (length h0) by lia. exact Hx.
      + replace l with (S (length h0)) by lia. exact Hy.
      + apply lookup_ge_None_2. lia. }
  rewrite St, !total_balance_app in T. simpl in T.
  exists (BankAccount.balance_cents x), (BankAccount.balance_cents y).
  simpl. rewrite (balance_Some _ _ _ Hx), (balance_Some _ _ _ Hy).
  split; [reflexivity|]. split; [reflexivity|]. lia.
Qed.

Lemma simulator_never_deadlocks_witness :
  exists c,
    schedule [0; 1; 0; 0; 1; 1; 0; 0]%nat
      (TransactionSimulator.started (TransactionSimulator.mk 2 3 2 1)
         transfer_rand
         (two_accounts
          ++ [BankAccount.mk (str_of_string "ACC-001") 100000 None;
              BankAccount.mk (str_of_string "ACC-002") 100000 None]))
    = Some c
    /\ ~ deadlocked c
    /\ store c !! 0%nat = Some acc_a /\ store c !! 1%nat = Some acc_b.
Proof.
  destruct (schedule [0; 1; 0; 0; 1; 1; 0; 0]%nat
              (TransactionSimulator.started (TransactionSimulator.mk 2 3 2 1)
                 transfer_rand
                 (two_accounts
                  ++ [BankAccount.mk (str_of_string "ACC-001") 100000 None;
                      BankAccount.mk (str_of_string "ACC-002") 100000 None])))
    as [c|] eqn:S; [|vm_compute in S; discriminate S].
  exists c. split; [reflexivity|].
  destruct (simulator_never_deadlocks 0%nat 100000 100000 2 1 transfer_rand
              two_accounts _ _ eq_refl _ c S) as (Free & _ & _ & _ & Fr).
  split; [exact Free|]. split; apply Fr; simpl; lia.
Defined.

Lemma simulator_transfers_conserve_witness :
  exists c x y,
    schedule one_after_the_other
      (TransactionSimulator.started (TransactionSimulator.mk 2 3 2 1)
         transfer_rand
         (two_accounts
          ++ [BankAccount.mk (str_of_string "ACC-001") 100000 None;
              BankAccount.mk (str_of_string "ACC-002") 100000 None]))
    = Some c
    /\ quiescent c = true
    /\ balance (store c) 2%nat = Some x /\ balance (store c) 3%nat = Some y
    /\ x + y = 200000.
Proof.
  destruct (schedule one_after_the_other
              (TransactionSimulator.started (TransactionSimulator.mk 2 3 2 1)
                 transfer_rand
                 (two_accounts
                  ++ [BankAccount.mk (str_of_string "ACC-001") 100000 None;
                      BankAccount.mk (str_of_string "ACC-002") 100000 None])))
    as [c|] eqn:S; [|vm_compute in S; discriminate S].
  assert (Q : quiescent c = true).
  { vm_compute in S. injection S as <-. reflexivity. }
  destruct (simulator_transfers_conserve 0%nat 100000 100000 2 1
              transfer_rand two_accounts _ _ eq_refl
              ltac:(intros i j; reflexivity) _ c S Q) as (x & y & X & Y & T).
  exists c, x, y. split; [reflexivity|]. split; [exact Q|].
  split; [exact X|]. split; [exact Y|exact T].
Defined.

(** ** Mutual exclusion *)

(** X16.  A balance is read and written only under the account's lock:
    whatever steps concurrent workers have taken, a worker whose next
    action reads or writes the balance of an account holds that account's
    lock, so no two workers are ever about to access the same balance. *)
Theorem balance_accessed_under_lock h jobs s c :
  Forall (Forall (worker_call_ok h)) jobs ->
  schedule s (spawn h jobs) = Some c ->
  (forall t w l,
     workers c !! t = Some w -> accessed (current w) = Some l ->
     exists m, lock_of (store c) l = Some (t, m))
  /\ (forall t u w w' l,
        workers c !! t = Some w -> workers c !! u = Some w' ->
        accessed (current w) = Some l -> accessed (current w') = Some l ->
        t = u).
Proof.
  intros Hjobs S.
  destruct (schedule_ledger (fun _ => True) false (total_balance h) s
              (spawn h jobs) (blank_ledger jobs) c) as [k L]; [|exact S|].
  { apply spawn_ledger; [trivial|].
    eapply Forall_impl; [|exact Hjobs]. intros cs Hcs.
    eapply Forall_impl; [|exact Hcs]. intros c0 [_ Hc0].
    apply perform_tracked; [trivial|trivial|exact Hc0|discriminate]. }
  assert (Own : forall t w l,
            workers c !! t = Some w -> accessed (current w) = Some l ->
            exists m, lock_of (store c) l = Some (t, m)).
  { intros t w l Hw Hl.
    assert (Hk : is_Some (k !! t)).
    { apply lookup_lt_is_Some. rewrite (led_length _ _ _ _ _ L).
      eauto using lookup_lt_Some. }
    destruct Hk as [[[held f] owed] Hk].
    destruct (led_workers _ _ _ _ _ L t w held f owed Hw Hk)
      as (D & _ & Hheld & _).
    apply Hheld.
    destruct (current w); simpl in Hl; try discriminate;
      injection Hl as ->; inversion D; assumption. }
  split; [exact Own|].
  intros t u w w' l Hw Hw' Hl Hl'.
  destruct (Own t w l Hw Hl) as [m Hm], (Own u w' l Hw' Hl') as [m' Hm'].
  congruence.
Qed.

Lemma balance_accessed_under_lock_witness :
  exists c w,
    schedule [0; 1; 0; 0; 1; 1; 0; 0; 0]%nat
      (spawn two_accounts crossing_transfers) = Some c
    /\ workers c !! 0%nat = Some w
    /\ accessed (current w) = Some 0%nat
    /\ exists m, lock_of (store c) 0%nat = Some (0%nat, m).
Proof.
  destruct (schedule [0; 1; 0; 0; 1; 1; 0; 0; 0]%nat
              (spawn two_accounts crossing_transfers)) as [c|] eqn:S;
    [|vm_compute in S; discriminate S].
  assert (J : Forall (Forall (worker_call_ok two_accounts))
                crossing_transfers) by (repeat constructor; simpl; lia).
  destruct (balance_accessed_under_lock two_accounts crossing_transfers _ c
              J S) as [Own _].
  assert (W : exists w, workers c !! 0%nat = Some w
                        /\ accessed (current w) = Some 0%nat).
  { pose proof S as S'. vm_compute in S'. injection S' as <-.
    eexists. split; reflexivity. }
  destruct W as (w & Hw & Hl).
  exists c, w. split; [reflexivity|]. split; [exact Hw|].
  split; [exact Hl|]. exact (Own 0%nat w 0%nat Hw Hl).
Defined.

(** ** Concurrent deposits and withdrawals of the same amount *)

Lemma deposit_paired acc d :
  0 < d -> paired acc (- d) false None 0 (perform (Deposit acc d)).
Proof.
  intros Hd. unfold perform, BankAccount.deposit.
  destruct (Z.leb_spec d 0); [lia|]. simpl.
  apply paired_acquire, paired_load. intros v Hv _.
  apply paired_store; [lia|].
  apply paired_release, paired_ret. lia.
Qed.

Lemma withdraw_paired acc d :
  0 < d -> paired acc 0 false None (- d) (perform (Withdraw acc d)).
Proof.
  intros Hd. unfold perform, BankAccount.withdraw.
  destruct (Z.leb_spec d 0); [lia|]. simpl.
  apply paired_acquire, paired_load. intros b Hb _.
  destruct (Z.gtb_spec d b); [lia|]. simpl.
  apply paired_load. intros v _ Hv. specialize (Hv b eq_refl). subst v.
  apply paired_store; [lia|].
  apply paired_release, paired_ret. lia.
Qed.

Lemma sum_in_hand_insert (k : list books) t x y :
  k !! t = Some x ->
  sum_in_hand (<[t := y]> k) = sum_in_hand k - in_hand x + in_hand y.
Proof.
  revert t. induction k as [|z k IH]; intros [|t] H; simpl in *;
    try discriminate.
  - injection H as ->. lia.
  - rewrite (IH t H). lia.
Qed.

Lemma sum_in_hand_nonpos (k : list books) :
  (forall u y, k !! u = Some y -> in_hand y <= 0) -> sum_in_hand k <= 0.
Proof.
  induction k as [|y k IH]; intros Hall; simpl; [lia|].
  pose proof (Hall 0%nat y eq_refl).
  specialize (IH (fun u y' Hy' => Hall (S u) y' Hy')). lia.
Qed.

Lemma sum_in_hand_le (k : list books) t x :
  (forall u y, k !! u = Some y -> in_hand y <= 0) ->
  k !! t = Some x -> sum_in_hand k <= in_hand x.
Proof.
  revert t. induction k as [|z k IH]; intros [|t] Hall H; simpl in *;
    try discriminate.
  - injection H as ->.
    pose proof (sum_in_hand_nonpos k (fun u y Hy => Hall (S u) y Hy)). lia.
  - pose proof (Hall 0%nat z eq_refl).
    specialize (IH t (fun u y Hy => Hall (S u) y Hy) H). lia.
Qed.

Lemma sum_in_hand_zero (k : list books) :
  (forall t x, k !! t = Some x -> in_hand x = 0) -> sum_in_hand k = 0.
Proof.
  induction k as [|x k IH]; intros H; simpl; [reflexivity|].
  rewrite (H 0%nat x eq_refl), IH; [reflexivity|].
  intros t y Hy. exact (H (S t) y Hy).
Qed.

Lemma in_step_nonpos acc d b0 c k :
  in_step acc d b0 c k ->
  forall u y, k !! u = Some y -> in_hand y <= 0.
Proof.
  intros [IL _ IW] u y Hy.
  assert (Hu : is_Some (workers c !! u)).
  { apply lookup_lt_is_Some. rewrite <- IL. eauto using lookup_lt_Some. }
  destruct Hu as [wu Hu]. destruct (IW u wu y Hu Hy) as (_ & N & _).
  exact N.
Qed.

(** Worker [t] moves on to [p], the store becoming [h']: what is to be
    checked for the books to balance again. *)
Lemma in_step_update acc d b0 c k t w x h' p x' todo' :
  in_step acc d b0 c k ->
  workers c !! t = Some w -> k !! t = Some x ->
  (forall b, balance (store c) acc = Some b ->
             balance h' acc = Some (b + in_hand x - in_hand x')) ->
  (forall u m, u <> t -> lock_of (store c) acc = Some (u, m) ->
     lock_of h' acc = Some (u, m)
     /\ balance h' acc = balance (store c) acc) ->
  paired acc (at_end x') (locked x') (seen x') (in_hand x') p ->
  in_hand x' <= 0 ->
  (locked x' = true -> exists m, lock_of h' acc = Some (t, m)) ->
  (forall v, seen x' = Some v ->
     locked x' = true /\ balance h' acc = Some v) ->
  rounds_left acc d (at_end x') todo' ->
  in_step acc d b0 (mk_config h' (<[t := mk_worker p todo']> (workers c)))
    (<[t := x']> k).
Proof.
  intros [IL (b & Hb & Hsum) IW] Hw Hk Hbal Hoth D Hneg Hlock Hseen Htodo.
  constructor; simpl.
  - rewrite !length_insert. exact IL.
  - exists (b + in_hand x - in_hand x'). split; [exact (Hbal b Hb)|].
    rewrite (sum_in_hand_insert k t x x' Hk). lia.
  - intros u w' y Hw' Hy. destruct (decide (u = t)) as [->|Hne].
    + rewrite list_lookup_insert_eq in Hw' by eauto using lookup_lt_Some.
      rewrite list_lookup_insert_eq in Hy by eauto using lookup_lt_Some.
      injection Hw' as <-. injection Hy as <-. simpl. auto.
    + rewrite list_lookup_insert_ne in Hw' by congruence.
      rewrite list_lookup_insert_ne in Hy by congruence.
      destruct (IW u w' y Hw' Hy) as (D' & N' & L' & S' & T').
      split; [exact D'|]. split; [exact N'|]. split; [|split; [|exact T']].
      * intros Hl. destruct (L' Hl) as [m Hm]. exists m.
        apply (Hoth u m Hne Hm).
      * intros v Hv. destruct (S' v Hv) as [Hl Hb'].
        split; [exact Hl|]. destruct (L' Hl) as [m Hm].
        destruct (Hoth u m Hne Hm) as [_ ->]. exact Hb'.
Qed.

Lemma step_in_step acc d b0 c k t c' :
  0 < d -> 0 <= b0 ->
  in_step acc d b0 c k -> step t c = Some c' ->
  exists k', in_step acc d b0 c' k'.
Proof.
  intros Hd Hb0 I S. pose proof I as [IL (b & Hb & Hsum) IW].
  pose proof (in_step_nonpos _ _ _ _ _ I) as Hall.
  assert (Hsum' : b0 <= b + sum_in_hand k) by lia. clear Hsum.
  unfold step in S. destruct (workers c !! t) as [w|] eqn:Hw; [|discriminate].
  simpl in S.
  assert (Hk : is_Some (k !! t)).
  { apply lookup_lt_is_Some. rewrite IL. eauto using lookup_lt_Some. }
  destruct Hk as [[lk sn hand final] Hk].
  destruct (IW t w _ Hw Hk) as (D & Hneg & Hlock & Hseen & Htodo).
  simpl in D, Hneg, Hlock, Hseen, Htodo.
  destruct (returned (current w)) eqn:R.
  - (* the call in progress is over: start the next one *)
    destruct (todo w) as [|next rest] eqn:E; [discriminate|].
    injection S as <-.
    assert (lk = false /\ hand = final) as [-> ->].
    { destruct (current w); simpl in R; try discriminate;
        inversion D; auto. }
    destruct Htodo as [[-> [n Hn]]|[-> [n Hn]]].
    + destruct n as [|n]; [discriminate|]. simpl in Hn.
      injection Hn as -> ->.
      exists (<[t := mk_books false None 0 (- d)]> k).
      apply (in_step_update acc d b0 c k t w _ _ _ _ _ I Hw Hk); simpl;
        [intros b' Hb'; rewrite Hb'; f_equal; lia|tauto
        |apply deposit_paired, Hd|lia|discriminate|discriminate|].
      right. eauto.
    + injection Hn as -> ->.
      exists (<[t := mk_books false None (- d) 0]> k).
      apply (in_step_update acc d b0 c k t w _ _ _ _ _ I Hw Hk); simpl;
        [intros b' Hb'; rewrite Hb'; f_equal; lia|tauto
        |apply withdraw_paired, Hd|lia|discriminate|discriminate|].
      left. eauto.
  - destruct (act t (current w) (store c)) as [[p h']|] eqn:A;
      [|discriminate].
    simpl in S. injection S as <-.
    destruct (current w) as [a|e|nb bb k0|l k0|l k0|l v k0|l k0|l k0] eqn:C;
      simpl in R; try discriminate;
      inversion D as [|sn0 hand0 k1 D'
                     |b1 hand0 v0 k1 Hle D'
                     |sn0 hand0 k1 D'
                     |sn0 hand0 k1 D'];
      subst; simpl in A.
    + (* LoadBalance *)
      destruct (store c !! l) as [a|] eqn:Ha; [|discriminate].
      simpl in A. injection A as <- <-.
      pose proof (balance_Some _ _ _ Ha) as Hbal. rewrite Hb in Hbal.
      injection Hbal as ->.
      pose proof (sum_in_hand_le k t _ Hall Hk) as Hle. simpl in Hle.
      exists (<[t := mk_books true (Some (BankAccount.balance_cents a))
                        hand final]> k).
      apply (in_step_update l d b0 c k t w _ _ _ _ _ I Hw Hk); simpl;
        [intros b' Hb'; rewrite Hb'; f_equal; lia|tauto| |exact Hneg
        |exact Hlock| |exact Htodo].
      * apply D'; [lia|]. intros b' ->.
        destruct (Hseen b' eq_refl) as [_ Hb']. congruence.
      * intros v [= <-]. split; [reflexivity|exact Hb].
    + (* StoreBalance *)
      destruct (store c !! l) as [a|] eqn:Ha; [|discriminate].
      simpl in A. injection A as <- <-.
      destruct (Hseen b1 eq_refl) as [_ Hb1]. rewrite Hb in Hb1.
      injection Hb1 as ->.
      destruct (Hlock eq_refl) as [m Hm].
      exists (<[t := mk_books true (Some v) (hand + b1 - v) final]> k).
      apply (in_step_update l d b0 c k t w _ _ _ _ _ I Hw Hk); simpl;
        [| |exact D'|exact Hle| | |exact Htodo].
      * intros b' Hb'. rewrite (balance_insert_eq _ _ _ _ Ha).
        rewrite Hb in Hb'. injection Hb' as <-. f_equal. lia.
      * intros u m' Hne Hu. congruence.
      * intros _. exists m. rewrite (lock_of_set_balance _ _ _ _ _ Ha).
        exact Hm.
      * intros v' [= <-]. split; [reflexivity|].
        apply balance_insert_eq, Ha.
    + (* Acquire *)
      destruct (store c !! l) as [a|] eqn:Ha; [|discriminate].
      simpl in A.
      destruct (acquire t (BankAccount.lock a)) as [r|] eqn:Hacq;
        [|discriminate].
      simpl in A. injection A as <- <-.
      destruct (acquire_owner _ _ _ Hacq) as [Hbefore [m Hr]]. subst r.
      exists (<[t := mk_books true sn hand final]> k).
      apply (in_step_update l d b0 c k t w _ _ _ _ _ I Hw Hk); simpl;
        [| |exact D'|exact Hneg| | |exact Htodo].
      * intros b' Hb'. rewrite (balance_set_lock _ _ _ _ _ Ha), Hb'.
        f_equal. lia.
      * intros u m' Hne Hu. exfalso.
        rewrite (lock_of_Some _ _ _ Ha) in Hu.
        destruct Hbefore as [Hf|[m1 Hf]]; congruence.
      * intros _. exists m. rewrite (lock_of_set_lock _ _ _ _ _ Ha).
        rewrite decide_True by reflexivity. reflexivity.
      * intros v Hv. destruct (Hseen v Hv) as [Hl _]. discriminate Hl.
    + (* Release *)
      destruct (store c !! l) as [a|] eqn:Ha; [|discriminate].
      simpl in A.
      destruct (release t (BankAccount.lock a)) as [r|] eqn:Hrel;
        [|discriminate].
      simpl in A. injection A as <- <-.
      destruct (release_owner _ _ _ Hrel) as [m Hm].
      exists (<[t := mk_books false None hand final]> k).
      apply (in_step_update l d b0 c k t w _ _ _ _ _ I Hw Hk); simpl;
        [| |exact D'|exact Hneg|discriminate|discriminate|exact Htodo].
      * intros b' Hb'. rewrite (balance_set_lock _ _ _ _ _ Ha), Hb'.
        f_equal. lia.
      * intros u m' Hne Hu. exfalso.
        destruct (Hlock eq_refl) as [m0 Hm0]. congruence.
Qed.

Lemma spawn_in_step acc d h a (rounds : list nat) :
  h !! acc = Some a ->
  in_step acc d (BankAccount.balance_cents a)
    (spawn h (map (deposit_withdraw_rounds acc d) rounds))
    (map (fun _ => mk_books false None 0 0) rounds).
Proof.
  intros Ha. constructor; simpl.
  - rewrite !length_map. reflexivity.
  - exists (BankAccount.balance_cents a). split; [apply balance_Some, Ha|].
    rewrite sum_in_hand_zero; [lia|].
    intros t x Hx. rewrite list_lookup_fmap in Hx.
    destruct (rounds !! t); [|discriminate]. injection Hx as <-. reflexivity.
  - intros t w x Hw Hx. rewrite !list_lookup_fmap in Hw.
    rewrite list_lookup_fmap in Hx.
    destruct (rounds !! t) as [n|] eqn:Hn; [|discriminate].
    simpl in Hw, Hx. injection Hw as <-. injection Hx as <-. simpl.
    split; [constructor; reflexivity|]. split; [lia|].
    split; [discriminate|]. split; [discriminate|]. left. eauto.
Qed.

Lemma schedule_in_step acc d b0 s : forall c k c',
  0 < d -> 0 <= b0 ->
  in_step acc d b0 c k -> schedule s c = Some c' ->
  exists k', in_step acc d b0 c' k'.
Proof.
  induction s as [|t s IH]; intros c k c' Hd Hb I S; simpl in S.
  - injection S as <-. eauto.
  - destruct (step t c) as [c1|] eqn:E; [|discriminate]. simpl in S.
    destruct (step_in_step _ _ _ _ _ _ _ Hd Hb I E) as [k1 I1]. eauto.
Qed.

(** X17.  Any number of workers that each deposit an amount into an account
    and withdraw it again, any number of times, running concurrently: no
    deposit and no withdrawal ever fails, the balance is never below the
    initial one, and when all workers have finished the balance is the
    initial one again. *)
Theorem concurrent_rounds_restore_balance h acc a d rounds s c :
  h !! acc = Some a -> 0 <= BankAccount.balance_cents a -> 0 < d ->
  schedule s (spawn h (map (deposit_withdraw_rounds acc d) rounds)) = Some c ->
  (forall t w e, workers c !! t = Some w -> current w <> Raise e)
  /\ (exists b, balance (store c) acc = Some b
                /\ BankAccount.balance_cents a <= b)
  /\ ((forall w, w ∈ workers c -> finished w = true) ->
      balance (store c) acc = Some (BankAccount.balance_cents a)).
Proof.
  intros Ha Hb0 Hd S.
  destruct (schedule_in_step acc d _ s _ _ c Hd Hb0
              (spawn_in_step acc d h a rounds Ha) S) as [k I].
  pose proof I as [IL (b & Hb & Hsum) IW].
  pose proof (in_step_nonpos _ _ _ _ _ I) as Hall.
  split; [|split].
  - intros t w e Hw C.
    assert (Hx : is_Some (k !! t)).
    { apply lookup_lt_is_Some. rewrite IL. eauto using lookup_lt_Some. }
    destruct Hx as [x Hx].
    destruct (IW t w x Hw Hx) as (D & _). rewrite C in D. inversion D.
  - exists b. split; [exact Hb|].
    pose proof (sum_in_hand_nonpos k Hall). lia.
  - intros Fin. rewrite Hb. f_equal.
    rewrite sum_in_hand_zero in Hsum; [lia|].
    intros t x Hx.
    assert (Hw : is_Some (workers c !! t)).
    { apply lookup_lt_is_Some. rewrite <- IL. eauto using lookup_lt_Some. }
    destruct Hw as [w Hw].
    destruct (IW t w x Hw Hx) as (D & _ & _ & _ & Htodo).
    assert (F : finished w = true)
      by (apply Fin, list_elem_of_lookup; eauto).
    unfold finished in F. apply andb_true_iff in F as [R T].
    destruct (todo w) eqn:E; [|discriminate].
    assert (Hend : in_hand x = at_end x).
    { destruct (current w); simpl in R; try discriminate;
        inversion D; auto. }
    destruct Htodo as [[E0 _]|[_ [n Hn]]]; [lia|discriminate].
Qed.

Lemma concurrent_rounds_restore_balance_witness :
  exists c,
    schedule [0; 1; 0; 0; 0; 0; 1; 1; 1; 1; 0; 1; 0; 0; 0; 0; 0;
              1; 1; 1; 1; 1]%nat
      (spawn two_accounts (map (deposit_withdraw_rounds 0%nat 100)
                             [1; 1]%nat)) = Some c
    /\ Forall (fun w => finished w = true) (workers c)
    /\ balance (store c) 0%nat = Some 100000.
Proof.
  destruct (schedule [0; 1; 0; 0; 0; 0; 1; 1; 1; 1; 0; 1; 0; 0; 0; 0; 0;
                      1; 1; 1; 1; 1]%nat
              (spawn two_accounts (map (deposit_withdraw_rounds 0%nat 100)
                                     [1; 1]%nat))) as [c|] eqn:S;
    [|vm_compute in S; discriminate S].
  assert (F : Forall (fun w => finished w = true) (workers c)).
  { pose proof S as S'. vm_compute in S'. injection S' as <-.
    repeat constructor. }
  exists c. split; [reflexivity|]. split; [exact F|].
  assert (B : 0 <= BankAccount.balance_cents acc_a) by (simpl; lia).
  assert (D : 0 < 100) by lia.
  destruct (concurrent_rounds_restore_balance two_accounts 0%nat acc_a 100
              [1; 1]%nat _ c eq_refl B D S) as (_ & _ & E).
  apply E. intros w Hw. rewrite Forall_forall in F.
  apply F, list_elem_of_In, Hw.
Defined.
